(** * cFair: kernel-based HGR estimator and indicator state

    A shallow embedding of [cfair/hgr/kernel.py] and
    [cfair/indicators/indicator.py].

    Numbers: Python floats are modelled as the real numbers [R] (rounding is
    abstracted away).  Vectors are [list R]; a two-dimensional array is the
    list of its rows.  Code that can raise returns a [result]; products and
    assignments whose operands may disagree in shape go through the checked
    operations [Backend.matmul_vv], [Backend.matmul_mv], [Backend.lstsq] and
    [Np.assign], which raise where the arrays of the code raise.  The
    closures handed to the solver are functions of a point of the solver's
    dimension, and the detector is stated on two kernel matrices of one
    number of rows, as [_kbhgr] builds them from vectors of one length.

    External libraries are not part of the program and stay parameters of the
    model: the R factor of [scipy.linalg.qr], the least-squares solve behind
    [backend.lstsq] and [scipy.optimize.minimize]. *)

From Stdlib Require Import Reals Lra Lia Sorted.
From stdpp Require Import base decidable option list.

#[local] Open Scope R_scope.

(** ** Exceptions *)

Inductive exn := AssertionError | IndexError | ValueError | LinAlgError.

Inductive result (A : Type) :=
| Ok (x : A)
| Raise (e : exn).
Arguments Ok {A} x.
Arguments Raise {A} e.

#[global] Instance result_ret : MRet result := fun _ x => Ok x.
#[global] Instance result_bind : MBind result := fun _ _ k m =>
  match m with
  | Ok x => k x
  | Raise e => Raise e
  end.

Definition raises {A} (m : result A) : Prop := exists e, m = Raise e.

(** ** Decidable comparisons on floats *)

#[global] Instance Rle_decision (x y : R) : Decision (x <= y) := Rle_dec x y.
#[global] Instance Rlt_decision (x y : R) : Decision (x < y) := Rlt_dec x y.
#[global] Instance Req_decision : EqDecision R := Req_dec_T.

Abbreviation vec := (list R).
Abbreviation matrix := (list (list R)).

(** ** Array primitives (numpy) *)

Module Np.

Definition sum (v : vec) : R := fold_right Rplus 0 v.

Definition zeros (n : nat) : vec := replicate n 0.
Definition ones (n : nat) : vec := replicate n 1.

(** [f.shape[1]] *)
Definition ncols (m : matrix) : nat := length (hd [] m).

(** [np.sign] *)
Definition sign (x : R) : R :=
  if decide (x < 0) then -1 else if decide (0 < x) then 1 else 0.

(** The sum of products of [u @ v], for two vectors of one length; the
    closures handed to the solver use it at points of the solver's
    dimension, and [Backend.matmul_vv] checks the lengths. *)
Definition dot (u v : vec) : R := sum (zip_with Rmult u v).

(** The rows of [m @ v], for a matrix whose rows have the length of [v];
    [Backend.matmul_mv] checks the lengths. *)
Definition matvec (m : matrix) (v : vec) : vec := map (fun row => dot row v) m.

(** [m.T] for a matrix of [c] columns *)
Definition transpose (c : nat) (m : matrix) : matrix :=
  map (fun j => map (fun row => nth j row 0) m) (seq 0 c).

(** [m1 @ m2] where [m2] has [c] columns *)
Definition matmul (c : nat) (m1 m2 : matrix) : matrix :=
  map (fun row => map (fun col => dot row col) (transpose c m2)) m1.

Definition scale (k : R) (v : vec) : vec := map (Rmult k) v.
Definition mscale (k : R) (m : matrix) : matrix := map (scale k) m.
Definition vadd (u v : vec) : vec := zip_with Rplus u v.
Definition vsub (u v : vec) : vec := zip_with Rminus u v.

(** [v.mean()] and [v.var(ddof=0)] *)
Definition mean (v : vec) : R := sum v / INR (length v).
Definition var (v : vec) : R := mean (map (fun x => (x - mean v) ^ 2) v).

(** [np.diag] of a two-dimensional array *)
Fixpoint diag_from (k : nat) (m : matrix) : vec :=
  match m with
  | [] => []
  | row :: m' =>
      match row !! k with
      | Some x => x :: diag_from (S k) m'
      | None => []
      end
  end.
Definition diag (m : matrix) : vec := diag_from 0 m.

(** [v[idxs]] with a list of indices: IndexError when one is out of range *)
Fixpoint gather (v : vec) (idxs : list nat) : result vec :=
  match idxs with
  | [] => Ok []
  | i :: idxs' =>
      match v !! i with
      | Some x => xs ← gather v idxs'; Ok (x :: xs)
      | None => Raise IndexError
      end
  end.

(** [m[:, idxs]] *)
Definition gather_cols (m : matrix) (idxs : list nat) : matrix :=
  map (fun row => map (fun i => nth i row 0) idxs) m.

(** The writes of [v[idxs] = vals], one value per index, for as many values
    as indices, all in range; [assign] checks both. *)
Fixpoint put (v : vec) (idxs : list nat) (vals : vec) : vec :=
  match idxs, vals with
  | i :: idxs', x :: vals' => put (<[i := x]> v) idxs' vals'
  | _, _ => v
  end.

(** [v[idxs] = vals] with a list of indices: a single value is broadcast to
    all the indices; any other number of values than that of the indices is
    refused with ValueError, an index out of range with IndexError. *)
Definition assign (v : vec) (idxs : list nat) (vals : vec) : result vec :=
  vals ← (if decide (length vals = length idxs) then Ok vals
          else match vals with
               | [x] => Ok (replicate (length idxs) x)
               | _ => Raise ValueError
               end);
  if decide (Forall (fun i => (i < length v)%nat) idxs)
  then Ok (put v idxs vals) else Raise IndexError.

(** [m[:, idxs] = src], for [src] with the rows of [m] and as many columns
    as indices *)
Definition put_cols (m : matrix) (idxs : list nat) (src : matrix) : matrix :=
  zip_with (fun row srow => put row idxs srow) m src.

(** [xs[mask]] with a boolean mask *)
Fixpoint select (xs : list nat) (mask : list bool) : list nat :=
  match xs, mask with
  | x :: xs', b :: mask' => if b then x :: select xs' mask' else select xs' mask'
  | _, _ => []
  end.

(** [v[i]] and [v[i] = x] with a single index *)
Definition getitem (v : vec) (i : nat) : result R :=
  match v !! i with
  | Some x => Ok x
  | None => Raise IndexError
  end.

Definition setitem (v : vec) (i : nat) (x : R) : result vec :=
  if decide (i < length v)%nat then Ok (<[i := x]> v) else Raise IndexError.

End Np.

(** ** The numeric backend *)

(** The backend class ([cfair.backend]) is not among the sources; its
    primitives follow the capability list of the specification (section 6).
    Casts and conversions to host arrays are the identity on reals. *)
Module Backend.

(** Modelled from the spec: [backend.len], the length of a vector. *)
Definition len (v : vec) : R := INR (length v).

(** Modelled from the spec: [backend.mean], [backend.var] and [backend.std],
    the mean, the population variance and the standard deviation. *)
Definition mean (v : vec) : R := Np.mean v.
Definition var (v : vec) : R := Np.var v.
Definition std (v : vec) : R := sqrt (var v).

(** Modelled from the spec: [backend.abs] and [backend.maximum]. *)
Definition abs (x : R) : R := Rabs x.
Definition maximum (x y : R) : R := Rmax x y.

(** Modelled from the spec: [backend.zeros] and [backend.ones], zero and one
    vectors of a given length. *)
Definition zeros (n : nat) : vec := Np.zeros n.
Definition ones (n : nat) : vec := Np.ones n.

(** Modelled from the spec: [backend.standardize], the standardization
    [(v - mean(v)) / (std(v) + eps)]. *)
Definition standardize (v : vec) (eps : R) : vec :=
  map (fun x => (x - mean v) / (std v + eps)) v.

(** Modelled from the spec: [backend.matmul], the matrix multiply, here of
    two vectors and of a matrix with a vector; like numpy's it raises
    ValueError when the inner dimensions differ. *)
Definition matmul_vv (u v : vec) : result R :=
  if decide (length u = length v) then Ok (Np.dot u v) else Raise ValueError.

Definition matmul_mv (m : matrix) (v : vec) : result vec :=
  if decide (Forall (fun row => length row = length v) m)
  then Ok (Np.matvec m v) else Raise ValueError.

(** Modelled from the spec: [backend.lstsq], the unconstrained least-squares
    solve, done by the external routine [solve]; like numpy's it refuses a
    matrix and a vector of different numbers of rows with LinAlgError. *)
Definition lstsq (solve : matrix -> vec -> vec) (m : matrix) (v : vec)
  : result vec :=
  if decide (length m = length v) then Ok (solve m v) else Raise LinAlgError.

(** Modelled from the spec: [backend.stack], which makes the n x d matrix
    whose columns are the given vectors of length n; like [np.stack] it
    refuses an empty list. *)
Definition stack (cols : list vec) : result matrix :=
  match cols with
  | [] => Raise ValueError
  | c :: _ => Ok (map (fun i => map (fun col => nth i col 0) cols) (seq 0 (length c)))
  end.

End Backend.

(** ** Configuration and results of the kernel-based estimator *)

Inductive opt_method := trust_constr | SLSQP.

Record config := {
  method : opt_method;
  maxiter : nat;
  eps : R;
  tol : R;
  use_lstsq : bool;
  delta : R;
  lasso : R
}.

(** The dataclass defaults. *)
Definition default_config : config :=
  {| method := trust_constr; maxiter := 1000; eps := 1 / 10 ^ 9; tol := 1 / 100;
     use_lstsq := true; delta := 1 / 100; lasso := 0 |}.

(** [scipy.optimize.NonlinearConstraint] *)
Record NonlinearConstraint := {
  c_fun : vec -> R;
  c_jac : vec -> vec;
  c_hess : matrix;
  c_lb : R;
  c_ub : R
}.

Module KernelBasedHGR.

(** [KernelBasedHGR.Result]; the back-reference [hgr] to the estimator is
    not represented. *)
Record Result := {
  a : vec;
  b : vec;
  correlation : R;
  num_call : nat;
  alpha : vec;
  beta : vec
}.

(** [kernel]: column k is [v ** k - mean(v ** k)], k from 1 to [degree] *)
Definition kernel (v : vec) (degree : nat) : result matrix :=
  Backend.stack
    (map (fun d => let p := map (fun x => x ^ d) v in
                   map (fun x => x - Backend.mean p) p)
         (seq 1 degree)).

(** [_f] and [_g], from the coefficients of the last result *)
Definition _f (degree_a : nat) (last_alpha : vec) (a : vec) : result vec :=
  fa ← kernel a degree_a; Backend.matmul_mv fa last_alpha.

Definition _g (degree_b : nat) (last_beta : vec) (b : vec) : result vec :=
  gb ← kernel b degree_b; Backend.matmul_mv gb last_beta.

(** Positions of the F and G columns in [ 1 | F_1 | G_1 | F_2 | G_2 | ... ] *)
Definition f_positions (dx dy : nat) : list nat :=
  if decide (dx < dy)%nat
  then map (fun i => 2 * i + 1)%nat (seq 0 dx)
  else map (fun i => 2 * i + 1)%nat (seq 0 dy)
       ++ map (fun i => i + 1)%nat (seq (2 * dy) (dx + dy - 2 * dy)).

Definition g_positions (dx dy : nat) : list nat :=
  if decide (dx < dy)%nat
  then map (fun i => 2 * i + 2)%nat (seq 0 dx)
       ++ map (fun i => i + 1)%nat (seq (2 * dx) (dx + dy - 2 * dx))
  else map (fun i => 2 * i + 2)%nat (seq 0 dy).

Definition fg_bias (f g : matrix) : matrix :=
  let dx := Np.ncols f in
  let dy := Np.ncols g in
  let ones := replicate (length f) (Np.ones (dx + dy + 1)) in
  Np.put_cols (Np.put_cols ones (f_positions dx dy) f) (g_positions dx dy) g.

(** [np.arange(dx)[r[positions] <= delta][1:]] *)
Definition dropped (delta : R) (dx : nat) (rs : vec) : list nat :=
  tail (Np.select (seq 0 dx) (map (fun x => bool_decide (x <= delta)) rs)).

(** [[idx for idx in range(dx) if idx not in removed]] *)
Definition kept (dx : nat) (removed : list nat) : list nat :=
  filter (fun idx => idx ∉ removed) (seq 0 dx).

Section Estimator.

(** [scipy.linalg.qr(m, mode='r')[0]] *)
Variable qr_r : matrix -> matrix.
(** [backend.lstsq] *)
Variable lstsq : matrix -> vec -> vec.
(** [scipy.optimize.minimize(fun, jac=True, hess, x0, constraints,
    method, tol, options={'maxiter': maxiter}).x] *)
Variable minimize :
  (vec -> R * vec) -> matrix -> vec -> NonlinearConstraint ->
  opt_method -> R -> nat -> vec.

Variable self : config.

(** [np.abs(np.diag(r))] of the R factor of the augmented matrix *)
Definition r_diag (f g : matrix) : vec :=
  map Rabs (Np.diag (qr_r (fg_bias f g))).

Definition _get_linearly_independent (f g : matrix)
  : result (list nat * list nat) :=
  let dx := Np.ncols f in
  let dy := Np.ncols g in
  let r := r_diag f g in
  rf ← Np.gather r (f_positions dx dy);
  let f_indices := dropped (delta self) dx rf in
  rg ← Np.gather r (g_positions dx dy);
  let g_indices := dropped (delta self) dy rg in
  Ok (kept dx f_indices, kept dy g_indices).

(** [np.concatenate((f_slim, -g_slim), axis=1)] *)
Definition fg_concat (f_slim g_slim : matrix) : matrix :=
  zip_with (fun frow grow => frow ++ map Ropp grow) f_slim g_slim.

(** The closure [_fun]: objective value and gradient at [inp] *)
Definition _fun (f_slim g_slim : matrix) (dx d : nat) (inp : vec) : R * vec :=
  let fg := fg_concat f_slim g_slim in
  let alp := take dx inp in
  let bet := drop dx inp in
  let diff := Np.vsub (Np.matvec f_slim alp) (Np.matvec g_slim bet) in
  let obj_func := Np.dot diff diff in
  let obj_grad := Np.matvec (Np.mscale 2 (Np.transpose d fg)) diff in
  let pen_func := Np.sum (map Rabs inp) in
  let pen_grad := map Np.sign inp in
  (obj_func + lasso self * pen_func,
   Np.vadd obj_grad (Np.scale (lasso self) pen_grad)).

(** [fun_hess = 2 * fg.T @ fg] *)
Definition fun_hess (f_slim g_slim : matrix) (d : nat) : matrix :=
  let fg := fg_concat f_slim g_slim in
  Np.matmul d (Np.mscale 2 (Np.transpose d fg)) fg.

(** [2 * g_slim.T @ g_slim / n] *)
Definition gram_g (g_slim : matrix) (dy n : nat) : matrix :=
  map (map (fun x => x / INR n))
      (Np.matmul dy (Np.mscale 2 (Np.transpose dy g_slim)) g_slim).

(** [cst_hess]: zeros of shape (d, d) with the block [dx:, dx:] assigned *)
Definition cst_hess (g_slim : matrix) (dx dy n : nat) : matrix :=
  replicate dx (Np.zeros (dx + dy))
  ++ map (fun row => Np.zeros dx ++ row) (gram_g g_slim dy n).

Definition constraint (g_slim : matrix) (dx dy n : nat) : NonlinearConstraint :=
  {| c_fun := fun inp => Np.var (Np.matvec g_slim (drop dx inp));
     c_jac := fun inp =>
       Np.zeros dx
       ++ map (fun x => x / INR n)
            (Np.matvec (Np.matmul dy (Np.mscale 2 (Np.transpose dy g_slim)) g_slim)
                       (drop dx inp));
     c_hess := cst_hess g_slim dx dy n;
     c_lb := 1;
     c_ub := 1 |}.

(** [np.ones(dx) / np.sqrt(m.sum(axis=1).var(ddof=0) + eps)] *)
Definition initial_guess (m : matrix) (dx : nat) : vec :=
  map (fun x => x / sqrt (Np.var (map Np.sum m) + eps self)) (Np.ones dx).

Definition _higher_order_coefficients
    (f g : matrix) (a0 b0 : option vec) : result (vec * vec) :=
  let degree_x := Np.ncols f in
  let degree_y := Np.ncols g in
  '(f_indices, g_indices) ← _get_linearly_independent f g;
  let f_slim := Np.gather_cols f f_indices in
  let g_slim := Np.gather_cols g g_indices in
  let n := length f_slim in
  let dx := Np.ncols f_slim in
  let dy := Np.ncols g_slim in
  let d := (dx + dy)%nat in
  a0 ← match a0 with
       | None => Ok (initial_guess f_slim dx)
       | Some a0 => Np.gather a0 f_indices
       end;
  b0 ← match b0 with
       | None => Ok (initial_guess g_slim dy)
       | Some b0 => Np.gather b0 g_indices
       end;
  let x0 := a0 ++ b0 in
  let s_x :=
    minimize (_fun f_slim g_slim dx d) (fun_hess f_slim g_slim d) x0
             (constraint g_slim dx dy n) (method self) (tol self) (maxiter self) in
  alpha ← Np.assign (Np.zeros degree_x) f_indices (take dx s_x);
  beta ← Np.assign (Np.zeros degree_y) g_indices (drop dx s_x);
  Ok (alpha, beta).

(** [_kbhgr]; [num_calls] is the counter of the calling instance *)
Definition _kbhgr (num_calls : nat) (a b : vec) (degree_a degree_b : nat)
    (a0 b0 : option vec) : result Result :=
  f ← kernel a degree_a;
  g ← kernel b degree_b;
  let alpha := Backend.ones 1 in
  let beta := Backend.ones 1 in
  '(alpha, beta, fa, gb) ←
    (if decide (degree_a = 1%nat /\ degree_b = 1%nat) then
       let fa := Backend.standardize a (eps self) in
       let gb := Backend.standardize b (eps self) in
       Ok (alpha, beta, fa, gb)
     else if decide (degree_a = 1%nat /\ use_lstsq self = true) then
       let fa := Backend.standardize a (eps self) in
       beta ← Backend.lstsq lstsq g fa;
       g_beta ← Backend.matmul_mv g beta;
       let gb := Backend.standardize g_beta (eps self) in
       Ok (alpha, beta, fa, gb)
     else if decide (degree_b = 1%nat /\ use_lstsq self = true) then
       let gb := Backend.standardize b (eps self) in
       alpha ← Backend.lstsq lstsq f gb;
       f_alpha ← Backend.matmul_mv f alpha;
       let fa := Backend.standardize f_alpha (eps self) in
       Ok (alpha, beta, fa, gb)
     else
       '(alpha, beta) ← _higher_order_coefficients f g a0 b0;
       f_alpha ← Backend.matmul_mv f alpha;
       let fa := Backend.standardize f_alpha (eps self) in
       g_beta ← Backend.matmul_mv g beta;
       let gb := Backend.standardize g_beta (eps self) in
       Ok (alpha, beta, fa, gb));
  fa_gb ← Backend.matmul_vv fa gb;
  let correlation := Backend.abs (fa_gb / Backend.len fa) in
  Ok {| a := a; b := b; correlation := correlation; num_call := num_calls;
        alpha := alpha; beta := beta |}.

(** The warm start read from [last_result] *)
Definition warm_start (last_result : option Result) : option vec * option vec :=
  match last_result with
  | None => (None, None)
  | Some r => (Some (alpha r), Some (beta r))
  end.

End Estimator.

End KernelBasedHGR.

Module DoubleKernelHGR.
Import KernelBasedHGR.

Section Estimator.
Variable qr_r : matrix -> matrix.
Variable lstsq : matrix -> vec -> vec.
Variable minimize :
  (vec -> R * vec) -> matrix -> vec -> NonlinearConstraint ->
  opt_method -> R -> nat -> vec.
Variable self : config.
Variables degree_a degree_b : nat.

Definition _compute (last_result : option Result) (num_calls : nat)
    (a b : vec) : result Result :=
  let '(a0, b0) := warm_start last_result in
  _kbhgr qr_r lstsq minimize self num_calls a b degree_a degree_b a0 b0.

End Estimator.

End DoubleKernelHGR.

Module SingleKernelHGR.
Import KernelBasedHGR.

Section Estimator.
Variable qr_r : matrix -> matrix.
Variable lstsq : matrix -> vec -> vec.
Variable minimize :
  (vec -> R * vec) -> matrix -> vec -> NonlinearConstraint ->
  opt_method -> R -> nat -> vec.
Variable self : config.
Variable degree : nat.

Definition degree_a : nat := degree.
Definition degree_b : nat := degree.

(** The two branches: [res_a] has a non-linear, [res_b] has b non-linear. *)
Definition res_a (last_result : option Result) (num_calls : nat)
    (a b : vec) : result Result :=
  _kbhgr qr_r lstsq minimize self num_calls a b degree 1
         (fst (warm_start last_result)) None.

Definition res_b (last_result : option Result) (num_calls : nat)
    (a b : vec) : result Result :=
  _kbhgr qr_r lstsq minimize self num_calls a b 1 degree
         None (snd (warm_start last_result)).

Definition _compute (last_result : option Result) (num_calls : nat)
    (a b : vec) : result Result :=
  res_a ← res_a last_result num_calls a b;
  res_b ← res_b last_result num_calls a b;
  let cor_a := correlation res_a in
  let cor_b := correlation res_b in
  let correlation := Backend.maximum cor_a cor_b in
  '(alpha, beta) ←
    (if decide (cor_a > cor_b) then
       let alpha := alpha res_a in
       let beta := Backend.zeros degree in
       x ← Np.getitem (KernelBasedHGR.beta res_a) 0;
       beta ← Np.setitem beta 0 x;
       Ok (alpha, beta)
     else
       let beta := beta res_b in
       let alpha := Backend.zeros degree in
       x ← Np.getitem (KernelBasedHGR.alpha res_b) 0;
       alpha ← Np.setitem alpha 0 x;
       Ok (alpha, beta));
  Ok {| a := a; b := b; correlation := correlation; num_call := num_calls;
        alpha := alpha; beta := beta |}.

End Estimator.

End SingleKernelHGR.

(** ** The indicator interface ([cfair/indicators/indicator.py]) *)

Module Indicator.

(** An input array with its shape; [data] is the flat content. *)
Record ndarray := { shape : list nat; data : vec }.

(** [bk.ndim] and [bk.len] *)
Definition ndim (v : ndarray) : nat := length (shape v).
Definition len (v : ndarray) : nat := hd 0%nat (shape v).

(** A one-dimensional array *)
Definition vector (v : vec) : ndarray := {| shape := [length v]; data := v |}.

Inductive semantics := hgr | gedi | nlc.

Section Indicator.

(** The additional fields ([kwargs]) of the result of a subclass *)
Variable K : Type.

(** [Indicator.Result]; the back-reference [indicator] is not represented. *)
Record Result := {
  a : ndarray;
  b : ndarray;
  value : R;
  num_call : nat;
  kwargs : K
}.

(** The mutable fields of an instance *)
Record state := {
  _last_result : option Result;
  _num_calls : nat
}.

(** The instance after [__init__] *)
Definition init : state := {| _last_result := None; _num_calls := 0 |}.

Variable sem : semantics.

(** The abstract method [_value]; it reads the instance and may raise. *)
Variable _value : state -> vec -> vec -> result (R * K).

Definition _factor (a b : ndarray) : R :=
  match sem with
  | hgr => 1
  | gedi => Backend.std (data b) / Backend.std (data a)
  | nlc => Backend.std (data b) * Backend.std (data a)
  end.

Definition __call__ (self : state) (a b : ndarray) : result Result * state :=
  if decide (ndim a = ndim b /\ ndim b = 1%nat) then
    if decide (len a = len b) then
      let self := {| _last_result := _last_result self;
                     _num_calls := _num_calls self + 1 |} in
      match _value self (data a) (data b) with
      | Raise e => (Raise e, self)
      | Ok (value, kwargs) =>
          let result := {| a := a; b := b; value := value * _factor a b;
                           num_call := _num_calls self; kwargs := kwargs |} in
          (Ok result, {| _last_result := Some result;
                         _num_calls := _num_calls self |})
      end
    else (Raise AssertionError, self)
  else (Raise AssertionError, self).

Definition compute (self : state) (a b : ndarray) : result R * state :=
  let '(res, self) := __call__ self a b in
  (r ← res; Ok (value r), self).

(** A sequence of invocations on one instance, with their outcomes *)
Fixpoint run (self : state) (calls : list (ndarray * ndarray))
  : list (result Result) * state :=
  match calls with
  | [] => ([], self)
  | (a, b) :: calls' =>
      let '(res, self') := __call__ self a b in
      let '(outs, final) := run self' calls' in
      (res :: outs, final)
  end.

(** The result of the last invocation that returned, if any *)
Fixpoint last_ok (outs : list (result Result)) : option Result :=
  match outs with
  | [] => None
  | out :: outs' =>
      match last_ok outs', out with
      | Some r, _ => Some r
      | None, Ok r => Some r
      | None, Raise _ => None
      end
  end.

(** [CopulaIndicator]: the abstract [_f], [_g] read [last_result]. *)
Variable _f : Result -> vec -> result vec.
Variable _g : Result -> vec -> result vec.

Definition f (self : state) (a : vec) : result vec :=
  match _last_result self with
  | None => Raise AssertionError
  | Some last => _f last a
  end.

Definition g (self : state) (b : vec) : result vec :=
  match _last_result self with
  | None => Raise AssertionError
  | Some last => _g last b
  end.

End Indicator.

Arguments a {K} _.
Arguments b {K} _.
Arguments value {K} _.
Arguments num_call {K} _.
Arguments kwargs {K} _.
Arguments _last_result {K} _.
Arguments _num_calls {K} _.

End Indicator.

(** The kernel-based indicators keep [alpha] and [beta] as additional fields
    of their result; [_f] and [_g] are those of [KernelBasedHGR]. *)
Module KernelIndicator.
Import Indicator.

Definition coefficients : Type := vec * vec.

Definition _f (degree_a : nat) (last : Result coefficients) (v : vec) : result vec :=
  KernelBasedHGR._f degree_a (fst (kwargs last)) v.

Definition _g (degree_b : nat) (last : Result coefficients) (v : vec) : result vec :=
  KernelBasedHGR._g degree_b (snd (kwargs last)) v.

Definition f (degree_a : nat) := Indicator.f coefficients (_f degree_a).
Definition g (degree_b : nat) := Indicator.g coefficients (_g degree_b).

End KernelIndicator.

(** ** The formulas of the specification

    Written from the text of the specification, to be compared with the
    definitions above. *)

Module Spec.

(** The squared Euclidean norm and the 1-norm *)
Definition sq_norm (v : vec) : R := fold_right (fun x acc => x * x + acc) 0 v.
Definition norm1 (v : vec) : R := fold_right (fun x acc => Rabs x + acc) 0 v.

(** Entry (i, j) of a matrix and of the block matrix [F -G] *)
Definition entry (m : matrix) (i j : nat) : R := nth j (nth i m []) 0.
Definition block_entry (F G : matrix) (dx : nat) (i j : nat) : R :=
  if decide (j < dx)%nat then entry F i j else - entry G i (j - dx).

(** Sum of [h i] for i below [n] *)
Fixpoint sigma (n : nat) (h : nat -> R) : R :=
  match n with
  | O => 0
  | S k => sigma k h + h k
  end.

(** Entry i of F.alpha - G.beta *)
Definition residual (F G : matrix) (alpha beta : vec) (i : nat) : R :=
  sigma (length alpha) (fun j => entry F i j * nth j alpha 0)
  - sigma (length beta) (fun j => entry G i j * nth j beta 0).

(** ||F.alpha - G.beta||^2 + lambda.||[alpha, beta]||_1 *)
Definition objective (lambda : R) (F G : matrix) (alpha beta : vec) : R :=
  sigma (length F) (fun i => residual F G alpha beta i ^ 2)
  + lambda * norm1 (alpha ++ beta).

(** Entry j of 2.[F -G]^T.(F.alpha - G.beta) + lambda.sign([alpha, beta]) *)
Definition gradient (lambda : R) (F G : matrix) (alpha beta : vec) (j : nat) : R :=
  2 * sigma (length F)
        (fun i => block_entry F G (length alpha) i j * residual F G alpha beta i)
  + lambda * Np.sign (nth j (alpha ++ beta) 0).

(** Entry (j, k) of 2.[F -G]^T.[F -G] *)
Definition hessian (F G : matrix) (dx : nat) (j k : nat) : R :=
  2 * sigma (length F) (fun i => block_entry F G dx i j * block_entry F G dx i k).

(** The vector M.v for a matrix of [n] rows *)
Definition product (M : matrix) (v : vec) (n : nat) : vec :=
  map (fun i => sigma (length v) (fun j => entry M i j * nth j v 0)) (seq 0 n).

(** Population variance: denominator n, no Bessel correction *)
Definition pop_variance (x : vec) : R :=
  let n := INR (length x) in
  let m := sigma (length x) (fun i => nth i x 0) / n in
  sigma (length x) (fun i => (nth i x 0 - m) ^ 2) / n.

(** Covariance and Pearson correlation of two samples of the same length *)
Definition cov (a b : vec) : R :=
  Np.mean (zip_with (fun x y => (x - Np.mean a) * (y - Np.mean b)) a b).

Definition pearson (a b : vec) : R :=
  cov a b / (sqrt (Np.var a) * sqrt (Np.var b)).

(** The same with [eps] added to both standard deviations *)
Definition pearson_eps (eps : R) (a b : vec) : R :=
  cov a b / ((sqrt (Np.var a) + eps) * (sqrt (Np.var b) + eps)).

(** A matrix of [n] rows and [d] columns *)
Definition has_shape (n d : nat) (m : matrix) : Prop :=
  length m = n /\ Forall (fun row => length row = d) m.

(** The QR diagonal entry of column [idx] of a variable, whose columns sit
    at [positions] of the augmented matrix, and the dependence test *)
Definition col_diag (r : vec) (positions : list nat) (idx : nat) : option R :=
  match positions !! idx with
  | Some p => r !! p
  | None => None
  end.

Definition flagged (delta : R) (r : vec) (positions : list nat) (idx : nat) : Prop :=
  exists x, col_diag r positions idx = Some x /\ x <= delta.

(** The retained set as the specification words it: the columns that are
    not flagged, and column 0 whatever its diagonal entry. *)
Definition keeps_unflagged_and_column_0
    (delta : R) (r : vec) (positions : list nat) (dx : nat) (kept : list nat) : Prop :=
  forall idx, idx ∈ kept <->
    (idx < dx)%nat /\ (idx = 0%nat \/ ~ flagged delta r positions idx).

(** The retained set of the code: the columns that are not flagged, and the
    first flagged column. *)
Definition keeps_unflagged_and_first_flagged
    (delta : R) (r : vec) (positions : list nat) (dx : nat) (kept : list nat) : Prop :=
  forall idx, idx ∈ kept <->
    (idx < dx)%nat /\
    (~ flagged delta r positions idx \/
     forall j, (j < idx)%nat -> ~ flagged delta r positions j).

(** Zero everywhere but possibly at index 0 *)
Definition zero_but_first (v : vec) : Prop :=
  forall i, (1 <= i)%nat -> (i < length v)%nat -> v !! i = Some 0.

End Spec.

(** ** Concrete inputs *)

Module Examples.

(** [kernel [0; 0; 1; 1] 1] and [kernel [0; 1; 0; 1] 2]: the second vector
    takes the values 0 and 1 only, so its square repeats it. *)
Definition a_bits : vec := [0; 0; 1; 1].
Definition b_bits : vec := [0; 1; 0; 1].
Definition F_bits : matrix := [[-1/2]; [-1/2]; [1/2]; [1/2]].
Definition G_bits : matrix :=
  [[-1/2; -1/2]; [1/2; 1/2]; [-1/2; -1/2]; [1/2; 1/2]].

(** The augmented matrix [ 1 | F_1 | G_1 | G_2 ] and a QR factorization *)
Definition A_bits : matrix :=
  [[1; -1/2; -1/2; -1/2]; [1; -1/2; 1/2; 1/2];
   [1; 1/2; -1/2; -1/2]; [1; 1/2; 1/2; 1/2]].
Definition Q_bits : matrix :=
  [[1/2; -1/2; -1/2; 1/2]; [1/2; -1/2; 1/2; -1/2];
   [1/2; 1/2; -1/2; -1/2]; [1/2; 1/2; 1/2; 1/2]].
Definition R_bits : matrix :=
  [[2; 0; 0; 0]; [0; 1; 0; 0]; [0; 0; 1; 1]; [0; 0; 0; 0]].
Definition identity4 : matrix :=
  [[1; 0; 0; 0]; [0; 1; 0; 0]; [0; 0; 1; 0]; [0; 0; 0; 1]].

(** A QR routine that answers [R_bits] *)
Definition qr_bits : matrix -> matrix := fun _ => R_bits.

(** A solver that returns its initial point *)
Definition minimize_x0 :
    (vec -> R * vec) -> matrix -> vec -> NonlinearConstraint ->
    opt_method -> R -> nat -> vec :=
  fun _ _ x0 _ _ _ _ => x0.

(** The higher-order solve on [F_bits], [G_bits] with that solver: the
    initial point and the coefficients scattered back *)
Definition x0_bits : vec :=
  KernelBasedHGR.initial_guess default_config F_bits 1
  ++ KernelBasedHGR.initial_guess default_config G_bits 2.
Definition alpha_bits : vec := Np.put (Np.zeros 1) [0%nat] (take 1 x0_bits).
Definition beta_bits : vec := Np.put (Np.zeros 2) [0%nat; 1%nat] (drop 1 x0_bits).

(** [kernel [0; 0; 1; 1] 2], the kernel of the first vector again: both of
    its columns repeat the column of [F_bits].  The augmented matrix
    [ 1 | F_1 | G_1 | G_2 ] of [F_bits] and this kernel, and its R factor
    with [Q_bits] *)
Definition G_twin : matrix :=
  [[-1/2; -1/2]; [-1/2; -1/2]; [1/2; 1/2]; [1/2; 1/2]].
Definition A_twin : matrix :=
  [[1; -1/2; -1/2; -1/2]; [1; -1/2; -1/2; -1/2];
   [1; 1/2; 1/2; 1/2]; [1; 1/2; 1/2; 1/2]].
Definition R_twin : matrix :=
  [[2; 0; 0; 0]; [0; 1; 1; 1]; [0; 0; 0; 0]; [0; 0; 0; 0]].

(** A QR routine that answers [R_twin] *)
Definition qr_twin : matrix -> matrix := fun _ => R_twin.

(** The higher-order solve on [F_bits], [G_twin] with the solver that returns
    its initial point: column 1 of [G_twin] is removed *)
Definition x0_twin : vec :=
  KernelBasedHGR.initial_guess default_config F_bits 1
  ++ KernelBasedHGR.initial_guess default_config (Np.gather_cols G_twin [0%nat]) 1.
Definition alpha_twin : vec := Np.put (Np.zeros 1) [0%nat] (take 1 x0_twin).
Definition beta_twin : vec := Np.put (Np.zeros 2) [0%nat] (drop 1 x0_twin).

(** A sample with mean 0 and variance 1 and its degree-2 kernel *)
Definition a_tie : vec := [-2; 1; 1; 0; 0; 0].
Definition K_tie : matrix :=
  [[-2; 3]; [1; 0]; [1; 0]; [0; -1]; [0; -1]; [0; -1]].

(** The least-squares fit of [standardize a_tie] on [K_tie]: zero residual *)
Definition c_tie : R := 1 / (1 + eps default_config).
Definition lstsq_tie : matrix -> vec -> vec := fun _ _ => [c_tie; 0].

Definition lstsq_none : matrix -> vec -> vec := fun _ _ => [].

(** A fit with one coefficient per column: that of [lstsq_tie] on matrices
    of two columns, zero otherwise *)
Definition lstsq_cols : matrix -> vec -> vec := fun m _ =>
  if decide (Np.ncols m = 2%nat) then [c_tie; 0] else Np.zeros (Np.ncols m).

(** The Single-Kernel run of degree 2 on [a = b = a_tie]: the standardized
    target, the projection of the fit and the three results *)
Definition t_tie : vec := Backend.standardize a_tie (eps default_config).
Definition p_tie : vec :=
  Backend.standardize (Np.matvec K_tie (lstsq_tie K_tie t_tie)) (eps default_config).
Definition ra_tie : KernelBasedHGR.Result :=
  {| KernelBasedHGR.a := a_tie; KernelBasedHGR.b := a_tie;
     KernelBasedHGR.correlation := Backend.abs (Np.dot p_tie t_tie / Backend.len p_tie);
     KernelBasedHGR.num_call := 0;
     KernelBasedHGR.alpha := [c_tie; 0]; KernelBasedHGR.beta := [1] |}.
Definition rb_tie : KernelBasedHGR.Result :=
  {| KernelBasedHGR.a := a_tie; KernelBasedHGR.b := a_tie;
     KernelBasedHGR.correlation := Backend.abs (Np.dot t_tie p_tie / Backend.len t_tie);
     KernelBasedHGR.num_call := 0;
     KernelBasedHGR.alpha := [1]; KernelBasedHGR.beta := [c_tie; 0] |}.
Definition r_tie : KernelBasedHGR.Result :=
  {| KernelBasedHGR.a := a_tie; KernelBasedHGR.b := a_tie;
     KernelBasedHGR.correlation :=
       Backend.maximum (KernelBasedHGR.correlation ra_tie)
                       (KernelBasedHGR.correlation rb_tie);
     KernelBasedHGR.num_call := 0;
     KernelBasedHGR.alpha := [1; 0]; KernelBasedHGR.beta := [c_tie; 0] |}.

(** A configuration with a negative [eps] *)
Definition negative_eps : config :=
  {| method := trust_constr; maxiter := 1000; eps := - (1 / 2); tol := 1 / 100;
     use_lstsq := true; delta := 1 / 100; lasso := 0 |}.

(** The same as the default without the closed-form shortcut *)
Definition no_lstsq : config :=
  {| method := trust_constr; maxiter := 1000; eps := 1 / 10 ^ 9; tol := 1 / 100;
     use_lstsq := false; delta := 1 / 100; lasso := 0 |}.

Definition two_by_two : Indicator.ndarray :=
  {| Indicator.shape := [2; 2]%nat; Indicator.data := [1; 2; 3; 4] |}.

End Examples.

(** * Further code *)

(** ** [CopulaIndicator.value] *)

Module Elementwise.

(** [u * w] on two one-dimensional arrays; a single element is broadcast,
    other length mismatches are refused. *)
Definition mul (u w : vec) : result vec :=
  if decide (length u = length w) then Ok (zip_with Rmult u w)
  else match u, w with
       | [x], _ => Ok (map (Rmult x) w)
       | _, [y] => Ok (map (fun x => x * y) u)
       | _, _ => Raise ValueError
       end.

End Elementwise.

Module CopulaIndicator.
Import Indicator.

Section Value.
Variable K : Type.
Variable sem : semantics.
(** The property [eps] of the instance *)
Variable eps : R.
Variable _f : Result K -> vec -> result vec.
Variable _g : Result K -> vec -> result vec.

Definition value (self : state K) (a b : ndarray) : result R :=
  match _last_result self with
  | None => Raise AssertionError
  | Some last =>
      fa ← _f last (data a);
      let fa := Backend.standardize fa eps in
      gb ← _g last (data b);
      let gb := Backend.standardize gb eps in
      p ← Elementwise.mul fa gb;
      Ok (Backend.mean p * _factor sem a b)
  end.

End Value.

End CopulaIndicator.

(** Statements about sequences of invocations *)
Module Calls.
Import Indicator.

(** The two assertions of [__call__] pass. *)
Definition valid_shapes (call : ndarray * ndarray) : Prop :=
  ndim (fst call) = ndim (snd call) /\ ndim (snd call) = 1%nat /\
  len (fst call) = len (snd call).

#[global] Instance valid_shapes_dec (call : ndarray * ndarray) :
  Decision (valid_shapes call).
Proof. unfold valid_shapes. apply _. Defined.

(** How many of the invocations pass the assertions *)
Definition attempts (calls : list (ndarray * ndarray)) : nat :=
  length (filter valid_shapes calls).

End Calls.

(** Statements about warm starts *)
Module WarmStart.

(** A warm start, when there is one, has an entry for every column. *)
Definition covers (a0 : option vec) (d : nat) : Prop :=
  forall v, a0 = Some v -> (d <= length v)%nat.

End WarmStart.

(** A QR routine that keeps the shape of its argument *)
Definition qr_same_shape : matrix -> matrix := fun M => M.

(** A configuration with a negative [delta] *)
Definition negative_delta : config :=
  {| method := trust_constr; maxiter := 1000; eps := 1 / 10 ^ 9; tol := 1 / 100;
     use_lstsq := true; delta := - (1 / 100); lasso := 0 |}.

(** Statements about the columns of a kernel matrix *)
Module Columns.

(** Every column of a matrix of [n] rows and [d] columns sums to zero. *)
Definition centered (n d : nat) (M : matrix) : Prop :=
  forall j, (j < d)%nat -> Spec.sigma n (fun i => Spec.entry M i j) = 0.

End Columns.

(** Equality of two explicit arrays of reals, entry by entry *)
Ltac arrays_eq :=
  repeat (apply (f_equal2 cons); [|]); try reflexivity;
  repeat (apply (f_equal2 cons); [|]); try reflexivity;
  try lra.

(** * Properties *)

(** ** Arrays *)

Lemma bind_Ok {A B} (m : result A) (k : A -> result B) (y : B) :
  m ≫= k = Ok y -> exists x, m = Ok x /\ k x = Ok y.
Proof. destruct m as [x|e]; cbn; [eauto | discriminate]. Qed.

Lemma gather_Ok (r : vec) (idxs : list nat) (rs : vec) :
  Np.gather r idxs = Ok rs ->
  length rs = length idxs /\
  forall k i, idxs !! k = Some i -> rs !! k = r !! i.
Proof.
  revert rs. induction idxs as [|i idxs IH]; intros rs; cbn.
  - intros [= <-]. split; [done | intros ? ?; rewrite lookup_nil; discriminate].
  - destruct (r !! i) as [x|] eqn:Hx; [|discriminate].
    intros H. apply bind_Ok in H as (xs & Hxs & [= <-]).
    destruct (IH _ Hxs) as [Hlen Hget]. split; [cbn; lia|].
    intros [|k] j; cbn; [intros [= <-]; done | apply Hget].
Qed.

Lemma gather_returns (r : vec) (idxs : list nat) :
  Forall (fun i => (i < length r)%nat) idxs -> exists rs, Np.gather r idxs = Ok rs.
Proof.
  induction 1 as [|i idxs Hi _ [rs IH]]; [by exists []|].
  destruct (lookup_lt_is_Some_2 r i Hi) as [x Hx].
  exists (x :: rs). unfold Np.gather; fold Np.gather. by rewrite Hx, IH.
Qed.

(** Membership in a masked selection of [seq s n] *)
Lemma elem_of_select_seq (s n : nat) (mask : list bool) (idx : nat) :
  idx ∈ Np.select (seq s n) mask <->
  (s <= idx < s + n)%nat /\ mask !! (idx - s)%nat = Some true.
Proof.
  revert s mask. induction n as [|n IH]; intros s mask; cbn.
  - rewrite elem_of_nil. lia.
  - destruct mask as [|b mask].
    + rewrite elem_of_nil, lookup_nil. split; [done | intros [_ [=]]].
    + assert (Hstep : forall i, (S s <= i)%nat ->
                (b :: mask) !! (i - s)%nat = mask !! (i - S s)%nat).
      { intros i Hi. replace (i - s)%nat with (S (i - S s)) by lia. done. }
      destruct b.
      * rewrite elem_of_cons, IH. split.
        -- intros [-> | [Hr Hm]].
           ++ split; [lia|]. by rewrite Nat.sub_diag.
           ++ split; [lia|]. by rewrite Hstep by lia.
        -- intros [Hr Hm]. destruct (decide (idx = s)) as [->|Hne]; [by left|].
           right. split; [lia|]. by rewrite <- Hstep by lia.
      * rewrite IH. split.
        -- intros [Hr Hm]. split; [lia|]. by rewrite Hstep by lia.
        -- intros [Hr Hm]. destruct (decide (idx = s)) as [->|Hne].
           ++ rewrite Nat.sub_diag in Hm. discriminate.
           ++ split; [lia|]. by rewrite <- Hstep by lia.
Qed.

Lemma select_seq_sorted (s n : nat) (mask : list bool) :
  StronglySorted lt (Np.select (seq s n) mask).
Proof.
  revert s mask. induction n as [|n IH]; intros s mask; cbn; [constructor|].
  destruct mask as [|[] mask]; [constructor| |apply IH].
  constructor; [apply IH|]. apply Forall_forall. intros i Hi.
  apply elem_of_select_seq in Hi. lia.
Qed.

(** [l[1:]] of an increasing list: what is left has a smaller element in [l] *)
Lemma elem_of_tail_sorted (l : list nat) (idx : nat) :
  StronglySorted lt l ->
  idx ∈ tail l <-> idx ∈ l /\ exists j, j ∈ l /\ (j < idx)%nat.
Proof.
  intros Hs. destruct l as [|h t]; cbn.
  - rewrite elem_of_nil. tauto.
  - apply StronglySorted_inv in Hs as [_ Hh].
    rewrite Forall_forall in Hh. split.
    + intros Hin. split; [by right|]. exists h. split; [by left | by apply Hh].
    + intros [Hin (j & Hj & Hlt)].
      apply elem_of_cons in Hin as [-> | Hin]; [|done].
      apply elem_of_cons in Hj as [-> | Hj]; [lia|].
      apply Hh in Hj. lia.
Qed.

Lemma lookup_map {A B} (h : A -> B) (l : list A) (i : nat) :
  map h l !! i = h <$> (l !! i).
Proof. revert i. induction l as [|x l IH]; intros [|i]; cbn; auto. Qed.

(** ** The linear dependence detector *)

Module DetectorFacts.
Import KernelBasedHGR.

Lemma length_f_positions (dx dy : nat) : length (f_positions dx dy) = dx.
Proof.
  unfold f_positions. case_decide.
  - by rewrite length_map, length_seq.
  - rewrite length_app, !length_map, !length_seq. lia.
Qed.

Lemma length_g_positions (dx dy : nat) : length (g_positions dx dy) = dy.
Proof.
  unfold g_positions. case_decide.
  - rewrite length_app, !length_map, !length_seq. lia.
  - by rewrite length_map, length_seq.
Qed.

Lemma f_positions_bound (dx dy : nat) :
  Forall (fun p => (p < dx + dy + 1)%nat) (f_positions dx dy).
Proof.
  unfold f_positions. case_decide; rewrite ?Forall_app, !Forall_forall;
    repeat split; intros p Hp; apply list_elem_of_In, in_map_iff in Hp;
    destruct Hp as (i & <- & Hi); apply in_seq in Hi; lia.
Qed.

Lemma g_positions_bound (dx dy : nat) :
  Forall (fun p => (p < dx + dy + 1)%nat) (g_positions dx dy).
Proof.
  unfold g_positions. case_decide; rewrite ?Forall_app, !Forall_forall;
    repeat split; intros p Hp; apply list_elem_of_In, in_map_iff in Hp;
    destruct Hp as (i & <- & Hi); apply in_seq in Hi; lia.
Qed.

(** The indices [dropped] removes: flagged, with a flagged index before. *)
Lemma elem_of_dropped (delta : R) (dx : nat) (rs : vec) (idx : nat) :
  let hit i := (i < dx)%nat /\ exists x, rs !! i = Some x /\ x <= delta in
  idx ∈ dropped delta dx rs <-> hit idx /\ exists j, hit j /\ (j < idx)%nat.
Proof.
  intros hit. unfold dropped.
  assert (Hsel : forall i,
    i ∈ Np.select (seq 0 dx) (map (fun x => bool_decide (x <= delta)) rs) <-> hit i).
  { intros i. rewrite elem_of_select_seq, Nat.sub_0_r, lookup_map. unfold hit.
    split.
    - intros [Hr Hm]. split; [lia|].
      destruct (rs !! i) as [x|]; [|discriminate].
      exists x. split; [done|]. injection Hm as Hm. by apply bool_decide_eq_true in Hm.
    - intros [Hr (x & -> & Hx)]. split; [lia|]. cbn. f_equal.
      by apply bool_decide_eq_true. }
  rewrite elem_of_tail_sorted by apply select_seq_sorted.
  rewrite Hsel. split.
  - intros [Hi (j & Hj & Hlt)]. apply Hsel in Hj. eauto.
  - intros [Hi (j & Hj & Hlt)]. apply Hsel in Hj. eauto.
Qed.

Lemma elem_of_kept (dx : nat) (removed : list nat) (idx : nat) :
  idx ∈ kept dx removed <-> (idx < dx)%nat /\ idx ∉ removed.
Proof.
  unfold kept. rewrite list_elem_of_filter, elem_of_seq. intuition lia.
Qed.

Lemma NoDup_kept (dx : nat) (removed : list nat) : NoDup (kept dx removed).
Proof. apply NoDup_filter, NoDup_seq. Qed.

(** Index 0 is never dropped: nothing flagged lies before it. *)
Lemma zero_kept (delta : R) (dx : nat) (rs : vec) :
  (0 < dx)%nat -> 0%nat ∈ kept dx (dropped delta dx rs).
Proof.
  intros Hdx. apply elem_of_kept. split; [done|].
  rewrite elem_of_dropped. intros [_ (j & _ & Hj)]. lia.
Qed.

Section Detector.
Variable qr_r : matrix -> matrix.
Variable self : config.

(** What the detector keeps for one variable, from the gathered diagonal *)
Lemma kept_dropped_flagged (r : vec) (positions : list nat) (rs : vec)
    (dx idx : nat) :
  length positions = dx ->
  Np.gather r positions = Ok rs ->
  idx ∈ kept dx (dropped (delta self) dx rs) <->
  (idx < dx)%nat /\
  (~ Spec.flagged (delta self) r positions idx \/
   forall j, (j < idx)%nat -> ~ Spec.flagged (delta self) r positions j).
Proof.
  intros Hlen Hg. apply gather_Ok in Hg as [Hlen' Hget].
  assert (Hflag : forall i, (i < dx)%nat ->
    (exists x, rs !! i = Some x /\ x <= delta self) <->
    Spec.flagged (delta self) r positions i).
  { intros i Hi. unfold Spec.flagged, Spec.col_diag.
    destruct (lookup_lt_is_Some_2 positions i) as [p Hp]; [lia|].
    rewrite Hp. by rewrite (Hget _ _ Hp). }
  rewrite elem_of_kept, elem_of_dropped. split.
  - intros [Hi Hnot]. split; [done|].
    assert (Hdec : (exists x, rs !! idx = Some x /\ x <= delta self) \/
                   ~ (exists x, rs !! idx = Some x /\ x <= delta self)).
    { destruct (rs !! idx) as [x|]; [|right; intros (? & [=] & _)].
      destruct (Rle_dec x (delta self)); [left; eauto|].
      right. intros (y & [= <-] & Hy). done. }
    destruct Hdec as [Hhit|Hno].
    + right. intros j Hj Hfj. apply Hnot. split; [done|].
      exists j. split; [|done]. split; [lia|]. apply Hflag; [lia | done].
    + left. intros Hf. apply Hno, Hflag; done.
  - intros [Hi Hcase]. split; [done|].
    intros [[_ Hhit] (j & [Hj Hhj] & Hlt)]. destruct Hcase as [Hno | Hfirst].
    + apply Hno, Hflag; done.
    + apply (Hfirst j Hlt), Hflag; done.
Qed.

(** The detector returns as soon as the diagonal covers every column. *)
Lemma detector_returns (f g : matrix) :
  (Np.ncols f + Np.ncols g < length (r_diag qr_r f g))%nat ->
  exists fi gi, _get_linearly_independent qr_r self f g = Ok (fi, gi).
Proof.
  intros Hlen. unfold _get_linearly_independent.
  destruct (gather_returns (r_diag qr_r f g)
              (f_positions (Np.ncols f) (Np.ncols g))) as [rf ->].
  { eapply Forall_impl; [apply f_positions_bound|]. cbn. intros; lia. }
  destruct (gather_returns (r_diag qr_r f g)
              (g_positions (Np.ncols f) (Np.ncols g))) as [rg Hrg].
  { eapply Forall_impl; [apply g_positions_bound|]. cbn. intros; lia. }
  cbn. rewrite Hrg. cbn. eauto.
Qed.

End Detector.

End DetectorFacts.

(** ** Concrete runs of the detector *)

Module DetectorExamples.
Import KernelBasedHGR Examples.

Lemma kernel_a_bits : kernel a_bits 1 = Ok F_bits.
Proof.
  unfold kernel, Backend.stack, Backend.mean, Np.mean, Np.sum, a_bits, F_bits.
  cbn [seq map length nth fold_right pow INR]. f_equal. arrays_eq.
Qed.

Lemma kernel_b_bits : kernel b_bits 2 = Ok G_bits.
Proof.
  unfold kernel, Backend.stack, Backend.mean, Np.mean, Np.sum, b_bits, G_bits.
  cbn [seq map length nth fold_right pow INR]. f_equal. arrays_eq.
Qed.

Lemma fg_bias_bits : fg_bias F_bits G_bits = A_bits.
Proof. reflexivity. Qed.

(** [R_bits] is the R factor of the augmented matrix: Q is orthogonal,
    R upper triangular and Q.R the matrix. *)
Lemma qr_bits_factorization :
  Np.matmul 4 Q_bits (qr_bits (fg_bias F_bits G_bits)) = fg_bias F_bits G_bits /\
  Np.matmul 4 (Np.transpose 4 Q_bits) Q_bits = identity4 /\
  (forall i j, (j < i)%nat -> Spec.entry R_bits i j = 0).
Proof.
  rewrite fg_bias_bits. unfold qr_bits. repeat split.
  - unfold Np.matmul, Np.transpose, Np.dot, Np.sum, Q_bits, R_bits, A_bits.
    cbn [seq map length nth fold_right zip_with]. arrays_eq.
  - unfold Np.matmul, Np.transpose, Np.dot, Np.sum, Q_bits, identity4.
    cbn [seq map length nth fold_right zip_with]. arrays_eq.
  - intros i j Hlt. unfold Spec.entry, R_bits.
    do 4 (destruct i as [|i];
          [do 4 (try (destruct j as [|j]; [first [lia | reflexivity]|])); try lia|]).
    destruct i, j; reflexivity.
Qed.

Lemma r_diag_bits : r_diag qr_bits F_bits G_bits = [2; 1; 1; 0].
Proof.
  unfold r_diag, qr_bits, R_bits.
  cbn [Np.diag Np.diag_from lookup list_lookup map].
  rewrite !Rabs_pos_eq by lra. reflexivity.
Qed.

Lemma detector_bits :
  _get_linearly_independent qr_bits default_config F_bits G_bits
  = Ok ([0%nat], [0%nat; 1%nat]).
Proof.
  unfold _get_linearly_independent. rewrite r_diag_bits.
  change (f_positions _ _) with [1%nat].
  change (g_positions _ _) with [2%nat; 3%nat].
  cbn [Np.gather lookup list_lookup mbind result_bind].
  unfold dropped. cbn [map seq Np.select Np.ncols F_bits G_bits hd length].
  rewrite (bool_decide_eq_false_2 (1 <= _)) by (cbn; lra).
  rewrite (bool_decide_eq_true_2 (0 <= _)) by (cbn; lra).
  reflexivity.
Qed.

Lemma kernel_twin : kernel a_bits 2 = Ok G_twin.
Proof.
  unfold kernel, Backend.stack, Backend.mean, Np.mean, Np.sum, a_bits, G_twin.
  cbn [seq map length nth fold_right pow INR]. f_equal. arrays_eq.
Qed.

Lemma fg_bias_twin : fg_bias F_bits G_twin = A_twin.
Proof. reflexivity. Qed.

(** [R_twin] is the R factor of that augmented matrix. *)
Lemma qr_twin_factorization :
  Np.matmul 4 Q_bits (qr_twin (fg_bias F_bits G_twin)) = fg_bias F_bits G_twin /\
  (forall i j, (j < i)%nat -> Spec.entry R_twin i j = 0).
Proof.
  rewrite fg_bias_twin. unfold qr_twin. split.
  - unfold Np.matmul, Np.transpose, Np.dot, Np.sum, Q_bits, R_twin, A_twin.
    cbn [seq map length nth fold_right zip_with]. arrays_eq.
  - intros i j Hlt. unfold Spec.entry, R_twin.
    do 4 (destruct i as [|i];
          [do 4 (try (destruct j as [|j]; [first [lia | reflexivity]|])); try lia|]).
    destruct i, j; reflexivity.
Qed.

Lemma r_diag_twin : r_diag qr_twin F_bits G_twin = [2; 1; 0; 0].
Proof.
  unfold r_diag, qr_twin, R_twin.
  cbn [Np.diag Np.diag_from lookup list_lookup map].
  rewrite !Rabs_pos_eq by lra. reflexivity.
Qed.

(** Both columns of [G_twin] are flagged; the first is kept, the second
    removed. *)
Lemma detector_twin :
  _get_linearly_independent qr_twin default_config F_bits G_twin
  = Ok ([0%nat], [0%nat]).
Proof.
  unfold _get_linearly_independent. rewrite r_diag_twin.
  change (f_positions _ _) with [1%nat].
  change (g_positions _ _) with [2%nat; 3%nat].
  cbn [Np.gather lookup list_lookup mbind result_bind].
  unfold dropped. cbn [map seq Np.select Np.ncols F_bits G_twin hd length].
  rewrite (bool_decide_eq_false_2 (1 <= _)) by (cbn; lra).
  rewrite !(bool_decide_eq_true_2 (0 <= _)) by (cbn; lra).
  reflexivity.
Qed.

(** Column 1 of G repeats column 0: its diagonal entry is 0. *)
Lemma flagged_bits :
  Spec.flagged (delta default_config) (r_diag qr_bits F_bits G_bits)
               (g_positions 1 2) 1.
Proof. rewrite r_diag_bits. exists 0. split; [reflexivity | cbn; lra]. Qed.

End DetectorExamples.

(** ** Claims on the detector *)

(** C2, as the specification states it, fails: with [b = [0; 1; 0; 1]] and
    degree 2 the second column of G repeats the first, its QR diagonal entry is
    0 and it is not column 0, yet the detector retains it. *)
Lemma C2_first_column_counterexample :
  exists fi gi,
    KernelBasedHGR._get_linearly_independent
      Examples.qr_bits default_config Examples.F_bits Examples.G_bits = Ok (fi, gi) /\
    ~ Spec.keeps_unflagged_and_column_0 (delta default_config)
        (KernelBasedHGR.r_diag Examples.qr_bits Examples.F_bits Examples.G_bits)
        (KernelBasedHGR.g_positions (Np.ncols Examples.F_bits) (Np.ncols Examples.G_bits))
        (Np.ncols Examples.G_bits) gi.
Proof.
  exists [0%nat], [0%nat; 1%nat]. split; [apply DetectorExamples.detector_bits|].
  intros Hclaim. destruct (Hclaim 1%nat) as [Hkeep _].
  assert (Hin : 1%nat ∈ [0%nat; 1%nat]).
  { apply elem_of_cons. right. apply elem_of_cons. by left. }
  destruct (Hkeep Hin) as [_ [Hz | Hnf]]; [discriminate|].
  apply Hnf, DetectorExamples.flagged_bits.
Qed.

(** C2 (amended): for each variable the detector retains exactly the columns
    whose QR diagonal entry exceeds delta together with the first column whose
    entry is at or below delta; every later column at or below delta is
    removed. *)
Theorem C2_detector_keeps_first_flagged
    (qr_r : matrix -> matrix) (self : config) (f g : matrix) (fi gi : list nat) :
  KernelBasedHGR._get_linearly_independent qr_r self f g = Ok (fi, gi) ->
  let r := KernelBasedHGR.r_diag qr_r f g in
  let dx := Np.ncols f in
  let dy := Np.ncols g in
  Spec.keeps_unflagged_and_first_flagged (delta self) r
    (KernelBasedHGR.f_positions dx dy) dx fi /\
  Spec.keeps_unflagged_and_first_flagged (delta self) r
    (KernelBasedHGR.g_positions dx dy) dy gi.
Proof.
  intros Hdet r dx dy. unfold KernelBasedHGR._get_linearly_independent in Hdet.
  apply bind_Ok in Hdet as (rf & Hrf & Hdet).
  apply bind_Ok in Hdet as (rg & Hrg & [= <- <-]).
  split; intros idx.
  - apply (DetectorFacts.kept_dropped_flagged self r _ rf); [|done].
    apply DetectorFacts.length_f_positions.
  - apply (DetectorFacts.kept_dropped_flagged self r _ rg); [|done].
    apply DetectorFacts.length_g_positions.
Qed.

Lemma C2_detector_keeps_first_flagged_witness :
  Spec.keeps_unflagged_and_first_flagged (delta default_config)
    (KernelBasedHGR.r_diag Examples.qr_bits Examples.F_bits Examples.G_bits)
    (KernelBasedHGR.f_positions 1 2) 1 [0%nat] /\
  Spec.keeps_unflagged_and_first_flagged (delta default_config)
    (KernelBasedHGR.r_diag Examples.qr_bits Examples.F_bits Examples.G_bits)
    (KernelBasedHGR.g_positions 1 2) 2 [0%nat; 1%nat].
Proof.
  apply (C2_detector_keeps_first_flagged Examples.qr_bits default_config
           Examples.F_bits Examples.G_bits).
  apply DetectorExamples.detector_bits.
Defined.

(** C10: whenever the detector returns, for kernel matrices of at least one
    column each, both retained index sets contain index 0; in particular
    neither is empty. *)
Theorem C10_detector_keeps_index_0
    (qr_r : matrix -> matrix) (self : config) (f g : matrix) (fi gi : list nat) :
  (0 < Np.ncols f)%nat -> (0 < Np.ncols g)%nat ->
  KernelBasedHGR._get_linearly_independent qr_r self f g = Ok (fi, gi) ->
  (0%nat ∈ fi /\ 0%nat ∈ gi) /\ fi <> [] /\ gi <> [].
Proof.
  intros Hdx Hdy Hdet. unfold KernelBasedHGR._get_linearly_independent in Hdet.
  apply bind_Ok in Hdet as (rf & Hrf & Hdet).
  apply bind_Ok in Hdet as (rg & Hrg & [= <- <-]).
  pose proof (DetectorFacts.zero_kept (delta self) _ rf Hdx) as Hf.
  pose proof (DetectorFacts.zero_kept (delta self) _ rg Hdy) as Hg.
  repeat split; try done.
  - intros Hnil. rewrite Hnil in Hf. by apply elem_of_nil in Hf.
  - intros Hnil. rewrite Hnil in Hg. by apply elem_of_nil in Hg.
Qed.

Lemma C10_detector_keeps_index_0_witness :
  (0%nat ∈ [0%nat] /\ 0%nat ∈ [0%nat; 1%nat]) /\
  [0%nat] <> [] /\ [0%nat; 1%nat] <> [].
Proof.
  apply (C10_detector_keeps_index_0 Examples.qr_bits default_config
           Examples.F_bits Examples.G_bits).
  - cbn. lia.
  - cbn. lia.
  - apply DetectorExamples.detector_bits.
Defined.

(** ** The indicator state *)

Module IndicatorFacts.
Import Indicator.

Section Calls.
Context {K : Type}.
Variable sem : semantics.
Variable _value : state K -> vec -> vec -> result (R * K).

(** An invocation either leaves [last_result] alone and raises, or stores
    the result it returns. *)
Lemma call_last_result (self : state K) (a b : ndarray) :
  match __call__ K sem _value self a b with
  | (Ok r, self') => _last_result self' = Some r
  | (Raise _, self') => _last_result self' = _last_result self
  end.
Proof.
  unfold __call__. repeat case_decide; try done.
  destruct (_value _ _ _) as [[v k]|e]; done.
Qed.

Lemma run_last_result (calls : list (ndarray * ndarray)) (self : state K) :
  _last_result (snd (run K sem _value self calls)) =
  match last_ok K (fst (run K sem _value self calls)) with
  | Some r => Some r
  | None => _last_result self
  end.
Proof.
  revert self. induction calls as [|[a b] calls IH]; intros self; [done|].
  cbn [run]. pose proof (call_last_result self a b) as Hcall.
  destruct (__call__ K sem _value self a b) as [res self'].
  specialize (IH self').
  destruct (run K sem _value self' calls) as [outs final]. cbn in *.
  rewrite IH. destruct (last_ok K outs); [done|].
  destruct res; by rewrite Hcall.
Qed.

(** No result is stored exactly when no invocation returned. *)
Lemma last_ok_None (outs : list (result (Result K))) :
  last_ok K outs = None <-> forall r, Ok r ∉ outs.
Proof.
  induction outs as [|out outs IH]; cbn.
  - split; [intros _ r Hr; by apply elem_of_nil in Hr | done].
  - destruct (last_ok K outs) as [r|].
    + split; [done|]. intros Hno. destruct IH as [_ IH].
      discriminate IH. intros r' Hr'. apply (Hno r'). by right.
    + destruct IH as [IH _]. specialize (IH eq_refl). destruct out as [r|e].
      * split; [done|]. intros Hno. exfalso. apply (Hno r). by left.
      * split; [|done]. intros _ r Hr.
        apply elem_of_cons in Hr as [[=]|Hr]. by apply (IH r).
Qed.

End Calls.

End IndicatorFacts.

Lemma kernel_returns (v : vec) (degree : nat) :
  (1 <= degree)%nat -> exists m, KernelBasedHGR.kernel v degree = Ok m.
Proof.
  intros Hd. unfold KernelBasedHGR.kernel.
  destruct degree as [|k]; [lia|]. cbn. eauto.
Qed.

Lemma kernel_rows (v : vec) (degree : nat) (m : matrix) :
  KernelBasedHGR.kernel v degree = Ok m ->
  Forall (fun row => length row = degree) m.
Proof.
  unfold KernelBasedHGR.kernel, Backend.stack.
  destruct degree as [|d]; [discriminate|].
  cbn [seq map]. intros [= <-].
  apply Forall_forall. intros row Hrow.
  apply list_elem_of_In, in_map_iff in Hrow as (i & <- & _).
  cbn [map length]. by rewrite !length_map, length_seq.
Qed.

(** The transformation of [kernel.py] returns when the coefficients have the
    length of the degree. *)
Lemma kernel_projection_returns (v alpha : vec) (degree : nat) :
  (1 <= degree)%nat -> length alpha = degree ->
  exists fv, KernelBasedHGR.kernel v degree = Ok fv /\
             KernelBasedHGR._f degree alpha v = Ok (Np.matvec fv alpha) /\
             KernelBasedHGR._g degree alpha v = Ok (Np.matvec fv alpha).
Proof.
  intros Hd Hlen. destruct (kernel_returns v degree Hd) as [fv Hfv].
  exists fv. split; [done|].
  unfold KernelBasedHGR._f, KernelBasedHGR._g. rewrite Hfv.
  cbn [mbind result_bind]. unfold Backend.matmul_mv.
  rewrite decide_True; [done|].
  eapply Forall_impl; [exact (kernel_rows v degree fv Hfv)|].
  cbn. intros row Hrow. congruence.
Qed.

(** C8: an invocation with arrays that are not one-dimensional, or of
    different lengths, raises at once, whatever [_value] is, and leaves
    [num_calls] and [last_result] as they were. *)
Theorem C8_shape_error_keeps_state
    (K : Type) (sem : Indicator.semantics)
    (_value : Indicator.state K -> vec -> vec -> result (R * K))
    (self : Indicator.state K) (a b : Indicator.ndarray) :
  Indicator.ndim a <> 1%nat \/ Indicator.ndim b <> 1%nat \/
  Indicator.len a <> Indicator.len b ->
  Indicator.__call__ K sem _value self a b = (Raise AssertionError, self).
Proof.
  intros Hbad. unfold Indicator.__call__. repeat case_decide; try done.
  exfalso. destruct Hbad as [Ha | [Hb | Hl]]; [|tauto..].
  apply Ha. destruct H as [-> ->]. done.
Qed.

Lemma C8_shape_error_keeps_state_witness :
  Indicator.__call__ nat Indicator.hgr (fun _ _ _ => Ok (0, 0%nat))
    {| Indicator._last_result := None; Indicator._num_calls := 3 |}
    Examples.two_by_two (Indicator.vector [1; 2])
  = (Raise AssertionError,
     {| Indicator._last_result := None; Indicator._num_calls := 3 |}).
Proof.
  apply (C8_shape_error_keeps_state nat Indicator.hgr (fun _ _ _ => Ok (0, 0%nat))).
  left. cbn. lia.
Defined.

(** C9: on an instance that went through any sequence of invocations, no
    result is stored exactly when none of them returned, and then [f] and [g]
    raise the AssertionError of their precondition; otherwise they return what
    the transformations [_f] and [_g] of the subclass compute from the result
    of the last invocation that returned.  So, for transformations that do
    not raise, [f] and [g] raise if and only if no invocation returned; and
    where the transformation is that of [kernel.py] with stored coefficients
    of the length of the degree, they return the kernel of the given vector
    multiplied by these coefficients. *)
Theorem C9_reapply_iff_prior_call
    (K : Type) (sem : Indicator.semantics)
    (_value : Indicator.state K -> vec -> vec -> result (R * K))
    (_f _g : Indicator.Result K -> vec -> result vec)
    (calls : list (Indicator.ndarray * Indicator.ndarray)) (v : vec) :
  let outs := fst (Indicator.run K sem _value (Indicator.init K) calls) in
  let self := snd (Indicator.run K sem _value (Indicator.init K) calls) in
  (Indicator._last_result self = None <-> forall r, Ok r ∉ outs) /\
  ((forall r, Ok r ∉ outs) ->
     Indicator.f K _f self v = Raise AssertionError /\
     Indicator.g K _g self v = Raise AssertionError) /\
  (forall last, Indicator.last_ok K outs = Some last ->
     Indicator.f K _f self v = _f last v /\
     Indicator.g K _g self v = _g last v) /\
  ((forall last, ~ raises (_f last v)) ->
     (raises (Indicator.f K _f self v) <-> forall r, Ok r ∉ outs)) /\
  ((forall last, ~ raises (_g last v)) ->
     (raises (Indicator.g K _g self v) <-> forall r, Ok r ∉ outs)) /\
  (forall last degree_a alpha,
     Indicator.last_ok K outs = Some last ->
     (1 <= degree_a)%nat -> length alpha = degree_a ->
     _f last v = KernelBasedHGR._f degree_a alpha v ->
     exists fv, KernelBasedHGR.kernel v degree_a = Ok fv /\
                Indicator.f K _f self v = Ok (Np.matvec fv alpha)) /\
  (forall last degree_b beta,
     Indicator.last_ok K outs = Some last ->
     (1 <= degree_b)%nat -> length beta = degree_b ->
     _g last v = KernelBasedHGR._g degree_b beta v ->
     exists gv, KernelBasedHGR.kernel v degree_b = Ok gv /\
                Indicator.g K _g self v = Ok (Np.matvec gv beta)).
Proof.
  intros outs self.
  pose proof (IndicatorFacts.run_last_result sem _value calls (Indicator.init K))
    as Hlast.
  fold outs self in Hlast. cbn [Indicator.init Indicator._last_result] in Hlast.
  pose proof (IndicatorFacts.last_ok_None outs) as [Hnone1 Hnone2].
  unfold Indicator.f, Indicator.g. rewrite Hlast.
  destruct (Indicator.last_ok K outs) as [last|].
  - assert (Hsome : ~ forall r, Ok r ∉ outs) by (intros Hno; discriminate (Hnone2 Hno)).
    split; [done|]. split; [done|]. split; [by intros last' [= <-]|].
    split; [intros Hnr; (split; [intros Hr; by destruct (Hnr last) | done])|].
    split; [intros Hnr; (split; [intros Hr; by destruct (Hnr last) | done])|].
    split.
    + intros last' d alpha [= <-] Hd Hlen ->.
      destruct (kernel_projection_returns v alpha d Hd Hlen) as (fv & Hfv & Hf & _).
      by exists fv.
    + intros last' d beta [= <-] Hd Hlen ->.
      destruct (kernel_projection_returns v beta d Hd Hlen) as (gv & Hgv & _ & Hg).
      by exists gv.
  - specialize (Hnone1 eq_refl).
    split; [done|]. split; [done|]. split; [done|].
    split; [intros _; (split; [done | intros _; by eexists])|].
    split; [intros _; (split; [done | intros _; by eexists])|].
    split; intros; discriminate.
Qed.

Lemma C9_reapply_iff_prior_call_witness :
  exists fv,
    KernelBasedHGR.kernel [5; 7] 1 = Ok fv /\
    Indicator.f KernelIndicator.coefficients (KernelIndicator._f 1)
      (snd (Indicator.run KernelIndicator.coefficients Indicator.hgr
              (fun _ _ _ => Ok (1, ([1], [1])))
              (Indicator.init KernelIndicator.coefficients)
              [(Examples.two_by_two, Indicator.vector [1; 2]);
               (Indicator.vector [1; 2], Indicator.vector [3; 4])]))
      [5; 7]
    = Ok (Np.matvec fv [1]).
Proof.
  destruct (C9_reapply_iff_prior_call KernelIndicator.coefficients Indicator.hgr
              (fun _ _ _ => Ok (1, ([1], [1])))
              (KernelIndicator._f 1) (KernelIndicator._g 1)
              [(Examples.two_by_two, Indicator.vector [1; 2]);
               (Indicator.vector [1; 2], Indicator.vector [3; 4])] [5; 7])
    as (_ & _ & _ & _ & _ & Hf & _).
  apply (Hf _ 1%nat [1] eq_refl); [lia | reflexivity | reflexivity].
Defined.

(** ** The Single-Kernel variant *)

Lemma getitem_Ok (v : vec) (i : nat) (x : R) :
  Np.getitem v i = Ok x <-> v !! i = Some x.
Proof.
  unfold Np.getitem. destruct (v !! i); split; intros [=]; by subst.
Qed.

Lemma setitem_Ok (v : vec) (i : nat) (x : R) (v' : vec) :
  Np.setitem v i x = Ok v' <-> (i < length v)%nat /\ v' = <[i := x]> v.
Proof.
  unfold Np.setitem. case_decide; split.
  - by intros [= <-].
  - by intros [_ ->].
  - discriminate.
  - intros [? _]. lia.
Qed.

Lemma zero_but_first_insert (n : nat) (x : R) :
  Spec.zero_but_first (<[0%nat := x]> (Np.zeros n)).
Proof.
  intros i Hi Hlen. rewrite length_insert in Hlen. unfold Np.zeros in *.
  rewrite length_replicate in Hlen.
  rewrite list_lookup_insert_ne by lia. by apply lookup_replicate_2.
Qed.

Module SingleKernelFacts.
Import KernelBasedHGR.

Section Estimator.
Variable qr_r : matrix -> matrix.
Variable lstsq : matrix -> vec -> vec.
Variable minimize :
  (vec -> R * vec) -> matrix -> vec -> NonlinearConstraint ->
  opt_method -> R -> nat -> vec.
Variable self : config.
Variable degree : nat.

#[local] Abbreviation res_a := (SingleKernelHGR.res_a qr_r lstsq minimize self degree).
#[local] Abbreviation res_b := (SingleKernelHGR.res_b qr_r lstsq minimize self degree).
#[local] Abbreviation _compute := (SingleKernelHGR._compute qr_r lstsq minimize self degree).

(** The two ways [_compute] returns *)
Lemma compute_inv (last : option Result) (n : nat) (a b : vec) (r : Result) :
  _compute last n a b = Ok r ->
  exists ra rb,
    res_a last n a b = Ok ra /\ res_b last n a b = Ok rb /\
    correlation r = Rmax (correlation ra) (correlation rb) /\
    (0 < degree)%nat /\
    ((correlation ra > correlation rb /\
      alpha r = alpha ra /\
      exists x, beta ra !! 0%nat = Some x /\
                beta r = <[0%nat := x]> (Np.zeros degree))
     \/
     (~ correlation ra > correlation rb /\
      beta r = beta rb /\
      exists x, alpha rb !! 0%nat = Some x /\
                alpha r = <[0%nat := x]> (Np.zeros degree))).
Proof.
  unfold _compute, SingleKernelHGR._compute. intros H.
  apply bind_Ok in H as (ra & Hra & H).
  apply bind_Ok in H as (rb & Hrb & H).
  apply bind_Ok in H as ([al be] & Hsel & [= <-]).
  exists ra, rb. do 3 (split; [done|]). cbn.
  case_decide as Hcmp.
  - apply bind_Ok in Hsel as (x & Hx & Hsel).
    apply bind_Ok in Hsel as (v & Hv & [= <- <-]).
    apply getitem_Ok in Hx. apply setitem_Ok in Hv as [Hlen ->].
    unfold Backend.zeros, Np.zeros in Hlen. rewrite length_replicate in Hlen.
    split; [done|]. left. eauto.
  - apply bind_Ok in Hsel as (x & Hx & Hsel).
    apply bind_Ok in Hsel as (v & Hv & [= <- <-]).
    apply getitem_Ok in Hx. apply setitem_Ok in Hv as [Hlen ->].
    unfold Backend.zeros, Np.zeros in Hlen. rewrite length_replicate in Hlen.
    split; [done|]. right. eauto.
Qed.

(** [_compute] returns as soon as both branches do, with coefficients. *)
Lemma compute_returns (last : option Result) (n : nat) (a b : vec)
    (ra rb : Result) :
  res_a last n a b = Ok ra -> res_b last n a b = Ok rb ->
  (0 < degree)%nat -> beta ra <> [] -> alpha rb <> [] ->
  exists r, _compute last n a b = Ok r.
Proof.
  intros Hra Hrb Hd Hbe Hal. unfold _compute, SingleKernelHGR._compute.
  fold (res_a last n a b) (res_b last n a b). rewrite Hra, Hrb.
  destruct (beta ra) as [|x ?] eqn:Eb; [done|].
  destruct (alpha rb) as [|y ?] eqn:Ea; [done|].
  destruct degree as [|k]; [lia|].
  cbn. rewrite Eb, Ea. case_decide; cbn; eauto.
Qed.

End Estimator.

End SingleKernelFacts.

(** C4: when the Single-Kernel variant returns, its correlation is the maximum
    of the correlations of the two branches (degree on one side, 1 on the other,
    both orders) and the side that was not selected has length [degree] and is
    zero everywhere except possibly at index 0. *)
Theorem C4_single_kernel_max_and_zeroed_side
    (qr_r : matrix -> matrix) (lstsq : matrix -> vec -> vec)
    (minimize : (vec -> R * vec) -> matrix -> vec -> NonlinearConstraint ->
                opt_method -> R -> nat -> vec)
    (self : config) (degree : nat)
    (last : option KernelBasedHGR.Result) (n : nat) (a b : vec)
    (r : KernelBasedHGR.Result) :
  SingleKernelHGR._compute qr_r lstsq minimize self degree last n a b = Ok r ->
  exists ra rb,
    KernelBasedHGR._kbhgr qr_r lstsq minimize self n a b degree 1
      (fst (KernelBasedHGR.warm_start last)) None = Ok ra /\
    KernelBasedHGR._kbhgr qr_r lstsq minimize self n a b 1 degree
      None (snd (KernelBasedHGR.warm_start last)) = Ok rb /\
    KernelBasedHGR.correlation r
      = Rmax (KernelBasedHGR.correlation ra) (KernelBasedHGR.correlation rb) /\
    (KernelBasedHGR.correlation ra > KernelBasedHGR.correlation rb ->
       length (KernelBasedHGR.beta r) = degree /\
       Spec.zero_but_first (KernelBasedHGR.beta r)) /\
    (KernelBasedHGR.correlation ra <= KernelBasedHGR.correlation rb ->
       length (KernelBasedHGR.alpha r) = degree /\
       Spec.zero_but_first (KernelBasedHGR.alpha r)).
Proof.
  intros H. apply SingleKernelFacts.compute_inv in H
    as (ra & rb & Hra & Hrb & Hmax & Hd & Hcase).
  exists ra, rb. do 3 (split; [done|]).
  destruct Hcase as [(Hgt & _ & x & _ & ->) | (Hle & _ & x & _ & ->)].
  - split; [|intros; lra]. intros _.
    split; [|apply zero_but_first_insert].
    rewrite length_insert. apply length_replicate.
  - split; [intros; lra|]. intros _.
    split; [|apply zero_but_first_insert].
    rewrite length_insert. apply length_replicate.
Qed.

(** C1 (amended): when the two branch correlations are equal, the result
    carries the coefficients of the second branch (b non-linear): [beta] is
    that branch's [beta] and [alpha] is zero except for that branch's entry at
    index 0. *)
Theorem C1_tie_takes_second_branch
    (qr_r : matrix -> matrix) (lstsq : matrix -> vec -> vec)
    (minimize : (vec -> R * vec) -> matrix -> vec -> NonlinearConstraint ->
                opt_method -> R -> nat -> vec)
    (self : config) (degree : nat)
    (last : option KernelBasedHGR.Result) (n : nat) (a b : vec)
    (ra rb r : KernelBasedHGR.Result) :
  SingleKernelHGR.res_a qr_r lstsq minimize self degree last n a b = Ok ra ->
  SingleKernelHGR.res_b qr_r lstsq minimize self degree last n a b = Ok rb ->
  KernelBasedHGR.correlation ra = KernelBasedHGR.correlation rb ->
  SingleKernelHGR._compute qr_r lstsq minimize self degree last n a b = Ok r ->
  KernelBasedHGR.beta r = KernelBasedHGR.beta rb /\
  exists x, KernelBasedHGR.alpha rb !! 0%nat = Some x /\
            KernelBasedHGR.alpha r = <[0%nat := x]> (Np.zeros degree).
Proof.
  intros Hra Hrb Htie H. apply SingleKernelFacts.compute_inv in H
    as (ra' & rb' & Hra' & Hrb' & _ & _ & Hcase).
  rewrite Hra in Hra'. rewrite Hrb in Hrb'.
  injection Hra' as <-. injection Hrb' as <-.
  destruct Hcase as [(Hgt & _) | (_ & Hbeta & Halpha)]; [lra | done].
Qed.

(** ** Standardized projections and their correlation *)

Lemma sq_norm_nonneg (v : vec) : 0 <= Spec.sq_norm v.
Proof.
  induction v as [|x v IH]; [cbn; lra|].
  change (Spec.sq_norm (x :: v)) with (x * x + Spec.sq_norm v). nra.
Qed.

Lemma dot_cons (x y : R) (u w : vec) :
  Np.dot (x :: u) (y :: w) = x * y + Np.dot u w.
Proof. reflexivity. Qed.

Lemma dot_comm (u w : vec) : Np.dot u w = Np.dot w u.
Proof.
  revert w. induction u as [|x u IH]; intros [|y w]; try reflexivity.
  rewrite !dot_cons, IH. lra.
Qed.

Lemma Rabs_le_both (x c : R) : Rabs x <= c -> - c <= x <= c.
Proof.
  intros H. pose proof (Rle_abs x) as H1. pose proof (Rle_abs (- x)) as H2.
  rewrite Rabs_Ropp in H2. lra.
Qed.

(** |u.w| is at most half the sum of the squared norms. *)
Lemma dot_bound (u w : vec) :
  Rabs (Np.dot u w) <= (Spec.sq_norm u + Spec.sq_norm w) / 2.
Proof.
  revert w. induction u as [|x u IH]; intros w.
  - change (Np.dot [] w) with 0. rewrite Rabs_R0.
    pose proof (sq_norm_nonneg w). cbn. lra.
  - destruct w as [|y w].
    + change (Np.dot (x :: u) []) with 0. rewrite Rabs_R0.
      pose proof (sq_norm_nonneg (x :: u)). cbn in *. lra.
    + rewrite dot_cons. cbn [Spec.sq_norm fold_right].
      specialize (IH w). fold (Spec.sq_norm u) (Spec.sq_norm w).
      apply Rabs_le. apply Rabs_le_both in IH.
      pose proof (Rle_0_sqr (x - y)) as H1. pose proof (Rle_0_sqr (x + y)) as H2.
      unfold Rsqr in *. lra.
Qed.

Lemma sum_sq_dev_nonneg (m : R) (v : vec) :
  0 <= Np.sum (map (fun x => (x - m) ^ 2) v).
Proof.
  induction v as [|x v IH]; [cbn; lra|].
  change (Np.sum (map (fun x => (x - m) ^ 2) (x :: v)))
    with ((x - m) ^ 2 + Np.sum (map (fun x => (x - m) ^ 2) v)).
  pose proof (pow2_ge_0 (x - m)). lra.
Qed.

Lemma INR_length_pos {A} (v : list A) : v <> [] -> 0 < INR (length v).
Proof. destruct v; [done|]. intros _. apply lt_0_INR. cbn. lia. Qed.

Lemma var_nonneg (v : vec) : v <> [] -> 0 <= Np.var v.
Proof.
  intros Hv. unfold Np.var, Np.mean at 1. rewrite length_map.
  apply Rmult_le_pos; [apply sum_sq_dev_nonneg|].
  left. apply Rinv_0_lt_compat, INR_length_pos, Hv.
Qed.

Lemma sum_sq_dev_var (v : vec) :
  v <> [] ->
  Np.sum (map (fun x => (x - Np.mean v) ^ 2) v) = INR (length v) * Np.var v.
Proof.
  intros Hv. unfold Np.var, Np.mean at 2. rewrite length_map.
  pose proof (INR_length_pos v Hv). field. lra.
Qed.

Lemma sq_norm_scaled_dev (m d : R) (v : vec) :
  d <> 0 ->
  Spec.sq_norm (map (fun x => (x - m) / d) v)
  = Np.sum (map (fun x => (x - m) ^ 2) v) / (d * d).
Proof.
  intros Hd. induction v as [|x v IH].
  - cbn. field. done.
  - change (Spec.sq_norm (map (fun x => (x - m) / d) (x :: v)))
      with ((x - m) / d * ((x - m) / d)
            + Spec.sq_norm (map (fun x => (x - m) / d) v)).
    change (Np.sum (map (fun x => (x - m) ^ 2) (x :: v)))
      with ((x - m) ^ 2 + Np.sum (map (fun x => (x - m) ^ 2) v)).
    rewrite IH. field. done.
Qed.

Lemma sq_norm_zero_divisor (m : R) (v : vec) :
  Spec.sq_norm (map (fun x => (x - m) / 0) v) = 0.
Proof.
  induction v as [|x v IH]; [reflexivity|].
  change (Spec.sq_norm (map (fun x => (x - m) / 0) (x :: v)))
    with ((x - m) / 0 * ((x - m) / 0)
          + Spec.sq_norm (map (fun x => (x - m) / 0) v)).
  rewrite IH. unfold Rdiv. rewrite Rinv_0. ring.
Qed.

(** A standardized vector has mean square at most 1 when [eps] is not
    negative. *)
Lemma sq_norm_standardize (v : vec) (eps : R) :
  0 <= eps ->
  Spec.sq_norm (Backend.standardize v eps) <= INR (length v).
Proof.
  intros Heps. destruct (decide (v = [])) as [->|Hv]; [cbn; lra|].
  unfold Backend.standardize, Backend.std, Backend.var, Backend.mean.
  pose proof (var_nonneg v Hv) as Hvar.
  pose proof (sqrt_pos (Np.var v)) as Hs.
  pose proof (sqrt_sqrt _ Hvar) as Hss.
  pose proof (INR_length_pos v Hv) as Hn.
  set (s := sqrt (Np.var v)) in *.
  destruct (decide (s + eps = 0)) as [Hz|Hnz].
  { rewrite Hz, sq_norm_zero_divisor. lra. }
  rewrite sq_norm_scaled_dev by lra.
  rewrite sum_sq_dev_var by done.
  assert (Hd : 0 < (s + eps) * (s + eps)) by nra.
  apply (Rmult_le_reg_r ((s + eps) * (s + eps))); [done|].
  replace (INR (length v) * Np.var v / ((s + eps) * (s + eps)) * ((s + eps) * (s + eps)))
    with (INR (length v) * Np.var v) by (field; lra).
  apply Rmult_le_compat_l; [lra | nra].
Qed.

Lemma length_standardize (v : vec) (eps : R) :
  length (Backend.standardize v eps) = length v.
Proof. apply length_map. Qed.

(** The correlation of two standardized vectors of one length is in [0, 1]. *)
Lemma standardized_correlation_bound (x y : vec) (eps : R) :
  0 <= eps -> length x = length y ->
  let fa := Backend.standardize x eps in
  let gb := Backend.standardize y eps in
  0 <= Backend.abs (Np.dot fa gb / Backend.len fa) <= 1.
Proof.
  intros Heps Hlen fa gb. unfold Backend.abs, Backend.len.
  split; [apply Rabs_pos|].
  destruct (decide (x = [])) as [->|Hx].
  { change (Np.dot fa gb) with 0. unfold Rdiv. rewrite Rmult_0_l, Rabs_R0. lra. }
  pose proof (sq_norm_standardize x eps Heps) as Hfa.
  pose proof (sq_norm_standardize y eps Heps) as Hgb.
  pose proof (dot_bound fa gb) as Hdot. fold fa in Hfa. fold gb in Hgb.
  unfold fa at 2. rewrite length_standardize.
  pose proof (INR_length_pos x Hx) as Hn. rewrite <- Hlen in Hgb.
  unfold Rdiv. rewrite Rabs_mult, (Rabs_pos_eq (/ _)).
  2:{ left. by apply Rinv_0_lt_compat. }
  apply (Rmult_le_reg_r (INR (length x))); [done|].
  rewrite Rmult_assoc, Rinv_l by lra. lra.
Qed.

(** ** The orchestrator [_kbhgr] *)

Lemma length_kernel (v : vec) (degree : nat) (m : matrix) :
  KernelBasedHGR.kernel v degree = Ok m -> length m = length v.
Proof.
  unfold KernelBasedHGR.kernel. destruct degree as [|k]; [discriminate|].
  cbn. intros [= <-]. by rewrite length_map, length_seq, !length_map.
Qed.

(** The kernel of a non-empty vector has [degree] columns. *)
Lemma ncols_kernel (v : vec) (degree : nat) (m : matrix) :
  v <> [] -> KernelBasedHGR.kernel v degree = Ok m -> Np.ncols m = degree.
Proof.
  unfold KernelBasedHGR.kernel. destruct degree as [|k]; [discriminate|].
  destruct v as [|x v]; [done|]. intros _. cbn. intros [= <-].
  cbn. by rewrite !length_map, length_seq.
Qed.

Lemma length_matvec (m : matrix) (v : vec) : length (Np.matvec m v) = length m.
Proof. apply length_map. Qed.

Lemma matmul_vv_Ok (u v : vec) (c : R) :
  Backend.matmul_vv u v = Ok c <-> length u = length v /\ c = Np.dot u v.
Proof.
  unfold Backend.matmul_vv. case_decide; split.
  - by intros [= <-].
  - by intros [_ ->].
  - discriminate.
  - by intros [? _].
Qed.

Lemma matmul_mv_Ok (m : matrix) (v w : vec) :
  Backend.matmul_mv m v = Ok w <->
  Forall (fun row => length row = length v) m /\ w = Np.matvec m v.
Proof.
  unfold Backend.matmul_mv. case_decide; split.
  - by intros [= <-].
  - by intros [_ ->].
  - discriminate.
  - by intros [? _].
Qed.

Lemma lstsq_Ok (solve : matrix -> vec -> vec) (m : matrix) (v x : vec) :
  Backend.lstsq solve m v = Ok x <-> length m = length v /\ x = solve m v.
Proof.
  unfold Backend.lstsq. case_decide; split.
  - by intros [= <-].
  - by intros [_ ->].
  - discriminate.
  - by intros [? _].
Qed.

Lemma matmul_vv_eq (u v : vec) :
  length u = length v -> Backend.matmul_vv u v = Ok (Np.dot u v).
Proof. intros H. by apply matmul_vv_Ok. Qed.

Lemma matmul_mv_eq (m : matrix) (v : vec) :
  Forall (fun row => length row = length v) m ->
  Backend.matmul_mv m v = Ok (Np.matvec m v).
Proof. intros H. by apply matmul_mv_Ok. Qed.

Lemma rows_match (n d : nat) (m : matrix) (v : vec) :
  Spec.has_shape n d m -> length v = d ->
  Forall (fun row => length row = length v) m.
Proof.
  intros [_ Hrows] Hv. eapply Forall_impl; [exact Hrows|].
  cbn. intros row Hrow. congruence.
Qed.

Lemma lstsq_eq (solve : matrix -> vec -> vec) (m : matrix) (v : vec) :
  length m = length v -> Backend.lstsq solve m v = Ok (solve m v).
Proof. intros H. by apply lstsq_Ok. Qed.

Module OrchestratorFacts.
Import KernelBasedHGR.

Section Estimator.
Variable qr_r : matrix -> matrix.
Variable lstsq : matrix -> vec -> vec.
Variable minimize :
  (vec -> R * vec) -> matrix -> vec -> NonlinearConstraint ->
  opt_method -> R -> nat -> vec.
Variable self : config.

#[local] Abbreviation _kbhgr := (KernelBasedHGR._kbhgr qr_r lstsq minimize self).

(** Whatever the branch, the inputs have one length and the correlation is
    that of two standardized vectors as long as the inputs. *)
Lemma kbhgr_inv (n : nat) (a b : vec) (degree_a degree_b : nat)
    (a0 b0 : option vec) (r : Result) :
  _kbhgr n a b degree_a degree_b a0 b0 = Ok r ->
  exists x y,
    length x = length a /\ length y = length b /\ length a = length b /\
    correlation r =
      Backend.abs (Np.dot (Backend.standardize x (eps self))
                          (Backend.standardize y (eps self))
                   / Backend.len (Backend.standardize x (eps self))).
Proof.
  unfold _kbhgr, KernelBasedHGR._kbhgr. intros H.
  apply bind_Ok in H as (f & Hf & H). apply bind_Ok in H as (g & Hg & H).
  apply bind_Ok in H as ([[[al be] fa] gb] & Hbranch & H).
  apply bind_Ok in H as (c & Hc & [= <-]). cbn.
  apply matmul_vv_Ok in Hc as [Hlen ->].
  apply length_kernel in Hf, Hg.
  repeat case_decide.
  - injection Hbranch as <- <- <- <-. exists a, b.
    rewrite !length_standardize in Hlen. done.
  - apply bind_Ok in Hbranch as (be' & _ & Hbranch).
    apply bind_Ok in Hbranch as (gbe & Hgbe & [= <- <- <- <-]).
    apply matmul_mv_Ok in Hgbe as [_ ->].
    rewrite !length_standardize, length_matvec in Hlen.
    exists a, (Np.matvec g be'). rewrite length_matvec.
    repeat split; congruence.
  - apply bind_Ok in Hbranch as (al' & _ & Hbranch).
    apply bind_Ok in Hbranch as (fal & Hfal & [= <- <- <- <-]).
    apply matmul_mv_Ok in Hfal as [_ ->].
    rewrite !length_standardize, length_matvec in Hlen.
    exists (Np.matvec f al'), b. rewrite length_matvec.
    repeat split; congruence.
  - apply bind_Ok in Hbranch as ([al' be'] & _ & Hbranch).
    apply bind_Ok in Hbranch as (fal & Hfal & Hbranch).
    apply bind_Ok in Hbranch as (gbe & Hgbe & [= <- <- <- <-]).
    apply matmul_mv_Ok in Hfal as [_ ->]. apply matmul_mv_Ok in Hgbe as [_ ->].
    rewrite !length_standardize, !length_matvec in Hlen.
    exists (Np.matvec f al'), (Np.matvec g be'). rewrite !length_matvec.
    repeat split; congruence.
Qed.

(** The linear case *)
Lemma kbhgr_linear (n : nat) (a b : vec) (a0 b0 : option vec) :
  length a = length b ->
  _kbhgr n a b 1 1 a0 b0 =
  Ok {| KernelBasedHGR.a := a; KernelBasedHGR.b := b;
        correlation :=
          Backend.abs (Np.dot (Backend.standardize a (eps self))
                              (Backend.standardize b (eps self))
                       / Backend.len (Backend.standardize a (eps self)));
        num_call := n; alpha := [1]; beta := [1] |}.
Proof.
  intros Hlen. unfold _kbhgr, KernelBasedHGR._kbhgr.
  destruct (kernel_returns a 1) as [f ->]; [lia|].
  destruct (kernel_returns b 1) as [g ->]; [lia|].
  cbn [mbind result_bind]. rewrite decide_True by done.
  cbn [mbind result_bind].
  by rewrite matmul_vv_eq by (by rewrite !length_standardize).
Qed.

(** Vectors of different lengths are refused in the linear case. *)
Lemma kbhgr_linear_mismatch (n : nat) (a b : vec) (a0 b0 : option vec) :
  length a <> length b ->
  _kbhgr n a b 1 1 a0 b0 = Raise ValueError.
Proof.
  intros Hlen. unfold _kbhgr, KernelBasedHGR._kbhgr.
  destruct (kernel_returns a 1) as [f ->]; [lia|].
  destruct (kernel_returns b 1) as [g ->]; [lia|].
  cbn [mbind result_bind]. rewrite decide_True by done.
  cbn [mbind result_bind]. unfold Backend.matmul_vv.
  by rewrite decide_False by (by rewrite !length_standardize).
Qed.

(** The closed-form fits *)
Lemma kbhgr_lstsq_a (n : nat) (a b : vec) (degree_b : nat)
    (a0 b0 : option vec) (g : matrix) :
  degree_b <> 1%nat -> use_lstsq self = true ->
  kernel b degree_b = Ok g ->
  let fa := Backend.standardize a (eps self) in
  let be := lstsq g fa in
  let gb := Backend.standardize (Np.matvec g be) (eps self) in
  length a = length b ->
  Forall (fun row => length row = length be) g ->
  _kbhgr n a b 1 degree_b a0 b0 =
  Ok {| KernelBasedHGR.a := a; KernelBasedHGR.b := b;
        correlation := Backend.abs (Np.dot fa gb / Backend.len fa);
        num_call := n; alpha := [1]; beta := be |}.
Proof.
  intros Hd Hl Hg fa be gb Hlen Hrows. unfold _kbhgr, KernelBasedHGR._kbhgr.
  destruct (kernel_returns a 1) as [f ->]; [lia|]. rewrite Hg.
  cbn [mbind result_bind].
  rewrite decide_False by tauto. rewrite decide_True by done.
  apply length_kernel in Hg.
  rewrite lstsq_eq by (rewrite length_standardize; congruence).
  cbn [mbind result_bind]. fold fa be.
  rewrite matmul_mv_eq by done.
  cbn [mbind result_bind]. fold gb.
  rewrite matmul_vv_eq; [done|].
  unfold fa, gb. rewrite !length_standardize, length_matvec. congruence.
Qed.

Lemma kbhgr_lstsq_b (n : nat) (a b : vec) (degree_a : nat)
    (a0 b0 : option vec) (f : matrix) :
  degree_a <> 1%nat -> use_lstsq self = true ->
  kernel a degree_a = Ok f ->
  let gb := Backend.standardize b (eps self) in
  let al := lstsq f gb in
  let fa := Backend.standardize (Np.matvec f al) (eps self) in
  length a = length b ->
  Forall (fun row => length row = length al) f ->
  _kbhgr n a b degree_a 1 a0 b0 =
  Ok {| KernelBasedHGR.a := a; KernelBasedHGR.b := b;
        correlation := Backend.abs (Np.dot fa gb / Backend.len fa);
        num_call := n; alpha := al; beta := [1] |}.
Proof.
  intros Hd Hl Hf gb al fa Hlen Hrows. unfold _kbhgr, KernelBasedHGR._kbhgr.
  destruct (kernel_returns b 1) as [g ->]; [lia|]. rewrite Hf.
  cbn [mbind result_bind].
  rewrite decide_False by tauto. rewrite decide_False by tauto.
  rewrite decide_True by done.
  apply length_kernel in Hf.
  rewrite lstsq_eq by (rewrite length_standardize; congruence).
  cbn [mbind result_bind]. fold gb al.
  rewrite matmul_mv_eq by done.
  cbn [mbind result_bind]. fold fa.
  rewrite matmul_vv_eq; [done|].
  unfold fa, gb. rewrite !length_standardize, length_matvec. congruence.
Qed.

(** When a closed-form fit returns, the two vectors have one length and the
    fitted coefficients fit the kernel matrix. *)
Lemma kbhgr_lstsq_a_inv (n : nat) (a b : vec) (degree_b : nat)
    (a0 b0 : option vec) (g : matrix) (r : Result) :
  degree_b <> 1%nat -> use_lstsq self = true ->
  kernel b degree_b = Ok g ->
  _kbhgr n a b 1 degree_b a0 b0 = Ok r ->
  length a = length b /\
  Forall (fun row => length row
                     = length (lstsq g (Backend.standardize a (eps self)))) g.
Proof.
  intros Hd Hl Hg. unfold _kbhgr, KernelBasedHGR._kbhgr.
  destruct (kernel_returns a 1) as [f ->]; [lia|]. rewrite Hg.
  cbn [mbind result_bind].
  rewrite decide_False by tauto. rewrite decide_True by done.
  intros H. apply bind_Ok in H as ([[[al be] fa] gb] & Hbranch & H).
  apply bind_Ok in Hbranch as (be' & Hls & Hbranch).
  apply lstsq_Ok in Hls as [_ ->].
  apply bind_Ok in Hbranch as (gbe & Hmv & [= <- <- <- <-]).
  apply matmul_mv_Ok in Hmv as [Hall ->].
  apply bind_Ok in H as (c & Hc & _). apply matmul_vv_Ok in Hc as [Hlen _].
  rewrite !length_standardize, length_matvec in Hlen.
  apply length_kernel in Hg. split; [congruence | done].
Qed.

Lemma kbhgr_lstsq_b_inv (n : nat) (a b : vec) (degree_a : nat)
    (a0 b0 : option vec) (f : matrix) (r : Result) :
  degree_a <> 1%nat -> use_lstsq self = true ->
  kernel a degree_a = Ok f ->
  _kbhgr n a b degree_a 1 a0 b0 = Ok r ->
  length a = length b /\
  Forall (fun row => length row
                     = length (lstsq f (Backend.standardize b (eps self)))) f.
Proof.
  intros Hd Hl Hf. unfold _kbhgr, KernelBasedHGR._kbhgr.
  destruct (kernel_returns b 1) as [g ->]; [lia|]. rewrite Hf.
  cbn [mbind result_bind].
  rewrite decide_False by tauto. rewrite decide_False by tauto.
  rewrite decide_True by done.
  intros H. apply bind_Ok in H as ([[[al be] fa] gb] & Hbranch & H).
  apply bind_Ok in Hbranch as (al' & Hls & Hbranch).
  apply lstsq_Ok in Hls as [_ ->].
  apply bind_Ok in Hbranch as (fal & Hmv & [= <- <- <- <-]).
  apply matmul_mv_Ok in Hmv as [Hall ->].
  apply bind_Ok in H as (c & Hc & _). apply matmul_vv_Ok in Hc as [Hlen _].
  rewrite !length_standardize, length_matvec in Hlen.
  apply length_kernel in Hf. split; [congruence | done].
Qed.

End Estimator.

End OrchestratorFacts.

(** ** A Single-Kernel run with equal branch correlations *)

Lemma default_eps_pos : 0 < eps default_config.
Proof.
  change (eps default_config) with (1 / 10 ^ 9).
  apply Rdiv_lt_0_compat; [lra|]. apply pow_lt. lra.
Qed.

Module TieExample.
Import KernelBasedHGR Examples.

Lemma kernel_a_tie : kernel a_tie 2 = Ok K_tie.
Proof.
  unfold kernel, Backend.stack, Backend.mean, Np.mean, Np.sum, a_tie, K_tie.
  cbn [seq map length nth fold_right pow INR]. f_equal.
  repeat (apply (f_equal2 cons); [arrays_eq|]). reflexivity.
Qed.

Lemma mean_a_tie : Backend.mean a_tie = 0.
Proof. unfold Backend.mean, Np.mean, Np.sum, a_tie. cbn. lra. Qed.

Lemma std_a_tie : Backend.std a_tie = 1.
Proof.
  unfold Backend.std, Backend.var, Np.var.
  change (Np.mean a_tie) with (Backend.mean a_tie). rewrite mean_a_tie.
  replace (Np.mean (map (fun x => (x - 0) ^ 2) a_tie)) with 1.
  - apply sqrt_1.
  - unfold Np.mean, Np.sum, a_tie. cbn. lra.
Qed.

(** The fit reproduces the target: its residual is zero, so it is the
    least-squares solution. *)
Lemma lstsq_tie_exact : Np.matvec K_tie (lstsq_tie K_tie t_tie) = t_tie.
Proof.
  pose proof default_eps_pos as Heps.
  unfold t_tie, Backend.standardize. rewrite mean_a_tie, std_a_tie.
  unfold lstsq_tie, c_tie, Np.matvec, Np.dot, Np.sum, K_tie, a_tie.
  cbn [map zip_with fold_right].
  repeat (apply (f_equal2 cons); [field; lra|]). reflexivity.
Qed.

Lemma res_a_tie :
  SingleKernelHGR.res_a qr_bits lstsq_tie minimize_x0 default_config 2
    None 0 a_tie a_tie = Ok ra_tie.
Proof.
  unfold SingleKernelHGR.res_a.
  rewrite (OrchestratorFacts.kbhgr_lstsq_b _ _ _ _ _ _ _ _ _ _ K_tie);
    [done | done | done | apply kernel_a_tie | done | by repeat constructor].
Qed.

Lemma res_b_tie :
  SingleKernelHGR.res_b qr_bits lstsq_tie minimize_x0 default_config 2
    None 0 a_tie a_tie = Ok rb_tie.
Proof.
  unfold SingleKernelHGR.res_b.
  rewrite (OrchestratorFacts.kbhgr_lstsq_a _ _ _ _ _ _ _ _ _ _ K_tie);
    [done | done | done | apply kernel_a_tie | done | by repeat constructor].
Qed.

Lemma correlations_tie : correlation ra_tie = correlation rb_tie.
Proof.
  unfold ra_tie, rb_tie. cbn [correlation].
  rewrite (dot_comm p_tie t_tie).
  replace (Backend.len p_tie) with (Backend.len t_tie); [reflexivity|].
  unfold Backend.len, p_tie, t_tie.
  by rewrite !length_standardize, length_matvec.
Qed.

Lemma compute_tie :
  SingleKernelHGR._compute qr_bits lstsq_tie minimize_x0 default_config 2
    None 0 a_tie a_tie = Ok r_tie.
Proof.
  unfold SingleKernelHGR._compute. rewrite res_a_tie, res_b_tie.
  cbn [mbind result_bind].
  rewrite decide_False by (rewrite correlations_tie; lra).
  reflexivity.
Qed.

Lemma c_tie_not_1 : c_tie <> 1.
Proof.
  pose proof default_eps_pos as Heps. unfold c_tie. intros H.
  apply (Rmult_eq_compat_r (1 + eps default_config)) in H.
  unfold Rdiv in H. rewrite Rmult_assoc, Rinv_l in H by lra. lra.
Qed.

End TieExample.

(** C1, as the specification states it, fails: on [a = b] with degree 2 the
    two branch correlations are equal, and the result does not carry the
    [alpha] of the first branch. *)
Lemma C1_tie_counterexample :
  exists ra rb r,
    SingleKernelHGR.res_a Examples.qr_bits Examples.lstsq_tie Examples.minimize_x0
      default_config 2 None 0 Examples.a_tie Examples.a_tie = Ok ra /\
    SingleKernelHGR.res_b Examples.qr_bits Examples.lstsq_tie Examples.minimize_x0
      default_config 2 None 0 Examples.a_tie Examples.a_tie = Ok rb /\
    SingleKernelHGR._compute Examples.qr_bits Examples.lstsq_tie Examples.minimize_x0
      default_config 2 None 0 Examples.a_tie Examples.a_tie = Ok r /\
    KernelBasedHGR.correlation ra = KernelBasedHGR.correlation rb /\
    ~ (KernelBasedHGR.alpha r = KernelBasedHGR.alpha ra /\
       exists x, KernelBasedHGR.beta ra !! 0%nat = Some x /\
                 KernelBasedHGR.beta r = <[0%nat := x]> (Np.zeros 2)).
Proof.
  exists Examples.ra_tie, Examples.rb_tie, Examples.r_tie.
  split; [apply TieExample.res_a_tie|].
  split; [apply TieExample.res_b_tie|].
  split; [apply TieExample.compute_tie|].
  split; [apply TieExample.correlations_tie|].
  intros [Halpha _]. cbn in Halpha. injection Halpha as Hc.
  by apply TieExample.c_tie_not_1.
Qed.

Lemma C1_tie_takes_second_branch_witness :
  KernelBasedHGR.beta Examples.r_tie = KernelBasedHGR.beta Examples.rb_tie /\
  exists x, KernelBasedHGR.alpha Examples.rb_tie !! 0%nat = Some x /\
            KernelBasedHGR.alpha Examples.r_tie = <[0%nat := x]> (Np.zeros 2).
Proof.
  apply (C1_tie_takes_second_branch Examples.qr_bits Examples.lstsq_tie
           Examples.minimize_x0 default_config 2 None 0 Examples.a_tie Examples.a_tie
           Examples.ra_tie Examples.rb_tie Examples.r_tie).
  - apply TieExample.res_a_tie.
  - apply TieExample.res_b_tie.
  - apply TieExample.correlations_tie.
  - apply TieExample.compute_tie.
Defined.

Lemma C4_single_kernel_max_and_zeroed_side_witness :
  exists ra rb,
    KernelBasedHGR._kbhgr Examples.qr_bits Examples.lstsq_tie Examples.minimize_x0
      default_config 0 Examples.a_tie Examples.a_tie 2 1 None None = Ok ra /\
    KernelBasedHGR._kbhgr Examples.qr_bits Examples.lstsq_tie Examples.minimize_x0
      default_config 0 Examples.a_tie Examples.a_tie 1 2 None None = Ok rb /\
    KernelBasedHGR.correlation Examples.r_tie
      = Rmax (KernelBasedHGR.correlation ra) (KernelBasedHGR.correlation rb) /\
    (KernelBasedHGR.correlation ra > KernelBasedHGR.correlation rb ->
       length (KernelBasedHGR.beta Examples.r_tie) = 2%nat /\
       Spec.zero_but_first (KernelBasedHGR.beta Examples.r_tie)) /\
    (KernelBasedHGR.correlation ra <= KernelBasedHGR.correlation rb ->
       length (KernelBasedHGR.alpha Examples.r_tie) = 2%nat /\
       Spec.zero_but_first (KernelBasedHGR.alpha Examples.r_tie)).
Proof.
  apply (C4_single_kernel_max_and_zeroed_side Examples.qr_bits Examples.lstsq_tie
           Examples.minimize_x0 default_config 2 None 0 Examples.a_tie Examples.a_tie
           Examples.r_tie).
  apply TieExample.compute_tie.
Defined.

(** ** Claims on the orchestrator *)

Lemma dot_scaled_dev (m d m' d' : R) (u w : vec) :
  Np.dot (map (fun x => (x - m) / d) u) (map (fun y => (y - m') / d') w)
  = Np.sum (zip_with (fun x y => (x - m) * (y - m')) u w) / (d * d').
Proof.
  revert w. induction u as [|x u IH]; intros [|y w];
    try (cbn; unfold Rdiv; ring).
  cbn [map]. rewrite dot_cons, IH.
  change (Np.sum (zip_with (fun x y => (x - m) * (y - m')) (x :: u) (y :: w)))
    with ((x - m) * (y - m')
          + Np.sum (zip_with (fun x y => (x - m) * (y - m')) u w)).
  unfold Rdiv. rewrite Rinv_mult. ring.
Qed.

(** The bound on the correlation needs an [eps] that is not negative: on
    [a = b = [0; 2]] with [eps = -1/2] the standardized vectors are
    [[-2; 2]] and the correlation is 4. *)
Lemma negative_eps_breaks_bound :
  exists r,
    KernelBasedHGR._kbhgr Examples.qr_bits Examples.lstsq_none Examples.minimize_x0
      Examples.negative_eps 0 [0; 2] [0; 2] 1 1 None None = Ok r /\
    ~ (0 <= KernelBasedHGR.correlation r <= 1).
Proof.
  rewrite OrchestratorFacts.kbhgr_linear by done. eexists. split; [reflexivity|].
  cbn [KernelBasedHGR.correlation]. unfold Backend.standardize.
  assert (Hm : Backend.mean [0; 2] = 1)
    by (unfold Backend.mean, Np.mean, Np.sum; cbn; lra).
  assert (Hs : Backend.std [0; 2] = 1).
  { unfold Backend.std, Backend.var, Np.var.
    change (Np.mean [0; 2]) with (Backend.mean [0; 2]). rewrite Hm.
    replace (Np.mean (map (fun x => (x - 1) ^ 2) [0; 2])) with 1
      by (unfold Np.mean, Np.sum; cbn; lra).
    apply sqrt_1. }
  rewrite Hm, Hs. unfold Backend.abs, Backend.len, Np.dot, Np.sum. cbn.
  match goal with |- ~ (_ <= Rabs ?x <= _) => replace x with 4 by (field; lra) end.
  rewrite Rabs_pos_eq by lra. lra.
Qed.

(** C3: for every configuration whose [eps] is not negative, the correlation
    of every result of [_kbhgr] lies in [0, 1], whatever the input vectors
    are and whatever the QR routine, the least-squares fit and the solver
    produce. *)
Theorem C3_correlation_in_unit_interval
    (qr_r : matrix -> matrix) (lstsq : matrix -> vec -> vec)
    (minimize : (vec -> R * vec) -> matrix -> vec -> NonlinearConstraint ->
                opt_method -> R -> nat -> vec)
    (self : config) (n : nat) (a b : vec) (degree_a degree_b : nat)
    (a0 b0 : option vec) (r : KernelBasedHGR.Result) :
  0 <= eps self ->
  KernelBasedHGR._kbhgr qr_r lstsq minimize self n a b degree_a degree_b a0 b0 = Ok r ->
  0 <= KernelBasedHGR.correlation r <= 1.
Proof.
  intros Heps Hr.
  apply OrchestratorFacts.kbhgr_inv in Hr as (x & y & Hx & Hy & Hlen & ->).
  apply standardized_correlation_bound; [done | congruence].
Qed.

Lemma C3_correlation_in_unit_interval_witness :
  0 <= KernelBasedHGR.correlation Examples.ra_tie <= 1.
Proof.
  apply (C3_correlation_in_unit_interval Examples.qr_bits Examples.lstsq_tie
           Examples.minimize_x0 default_config 0 Examples.a_tie Examples.a_tie
           2 1 None None).
  - left. apply default_eps_pos.
  - apply TieExample.res_a_tie.
Defined.

(** C5: with both degrees equal to 1 the result does not depend on the QR
    routine, the least-squares fit or the solver: both coefficient vectors are
    [1], the correlation is that of the two standardized inputs, and it is the
    absolute Pearson coefficient with [eps] added to both standard
    deviations. *)
Theorem C5_linear_case_is_pearson
    (qr_r : matrix -> matrix) (lstsq : matrix -> vec -> vec)
    (minimize : (vec -> R * vec) -> matrix -> vec -> NonlinearConstraint ->
                opt_method -> R -> nat -> vec)
    (self : config) (n : nat) (a b : vec) (a0 b0 : option vec) :
  length a = length b ->
  let fa := Backend.standardize a (eps self) in
  let gb := Backend.standardize b (eps self) in
  KernelBasedHGR._kbhgr qr_r lstsq minimize self n a b 1 1 a0 b0
  = Ok {| KernelBasedHGR.a := a; KernelBasedHGR.b := b;
          KernelBasedHGR.correlation := Backend.abs (Np.dot fa gb / Backend.len fa);
          KernelBasedHGR.num_call := n;
          KernelBasedHGR.alpha := [1]; KernelBasedHGR.beta := [1] |} /\
  Backend.abs (Np.dot fa gb / Backend.len fa)
  = Rabs (Spec.pearson_eps (eps self) a b) /\
  Spec.pearson_eps 0 a b = Spec.pearson a b.
Proof.
  intros Hlen fa gb. split; [by apply OrchestratorFacts.kbhgr_linear|]. split.
  - unfold Backend.abs. f_equal.
    unfold fa, gb, Backend.standardize, Backend.len. rewrite dot_scaled_dev.
    unfold Spec.pearson_eps, Spec.cov, Np.mean at 1.
    rewrite length_map, length_zip_with_l_eq by done.
    unfold Backend.std, Backend.var, Backend.mean, Rdiv. ring.
  - unfold Spec.pearson_eps, Spec.pearson. by rewrite !Rplus_0_r.
Qed.

Lemma C5_linear_case_is_pearson_witness :
  Backend.abs (Np.dot (Backend.standardize [0; 2] (eps default_config))
                      (Backend.standardize [1; 3] (eps default_config))
               / Backend.len (Backend.standardize [0; 2] (eps default_config)))
  = Rabs (Spec.pearson_eps (eps default_config) [0; 2] [1; 3]).
Proof.
  apply (C5_linear_case_is_pearson Examples.qr_bits Examples.lstsq_none
           Examples.minimize_x0 default_config 0 [0; 2] [1; 3] None None).
  reflexivity.
Defined.

(** ** Scattering the solution back *)

Lemma length_put (v : vec) (idxs : list nat) (vals : vec) :
  length (Np.put v idxs vals) = length v.
Proof.
  revert v vals. induction idxs as [|i idxs IH]; intros v [|x vals]; cbn; try done.
  by rewrite IH, length_insert.
Qed.

Lemma put_lookup_other (v : vec) (idxs : list nat) (vals : vec) (idx : nat) :
  idx ∉ idxs -> Np.put v idxs vals !! idx = v !! idx.
Proof.
  revert v vals. induction idxs as [|i idxs IH]; intros v [|x vals] Hnot; cbn; try done.
  apply not_elem_of_cons in Hnot as [Hne Hnot].
  rewrite IH by done. by rewrite list_lookup_insert_ne.
Qed.

Lemma put_lookup (v : vec) (idxs : list nat) (vals : vec) (k idx : nat) :
  NoDup idxs -> Forall (fun i => (i < length v)%nat) idxs ->
  length vals = length idxs ->
  idxs !! k = Some idx -> Np.put v idxs vals !! idx = vals !! k.
Proof.
  revert v vals k. induction idxs as [|i idxs IH]; intros v vals k Hnd Hlt Hlen Hk.
  - by rewrite lookup_nil in Hk.
  - destruct vals as [|x vals]; [discriminate|]. cbn [Np.put].
    apply NoDup_cons in Hnd as [Hi Hnd]. apply Forall_cons in Hlt as [Hi' Hlt].
    destruct k as [|k]; cbn in Hk.
    + injection Hk as <-. rewrite put_lookup_other by done.
      by rewrite list_lookup_insert_eq.
    + cbn. apply IH; try done.
      * eapply Forall_impl; [exact Hlt|]. cbn. intros j Hj. by rewrite length_insert.
      * cbn in Hlen. lia.
Qed.

Lemma ncols_gather_cols (m : matrix) (idxs : list nat) :
  Forall (fun i => (i < Np.ncols m)%nat) idxs ->
  Np.ncols (Np.gather_cols m idxs) = length idxs.
Proof.
  intros Hlt. destruct m as [|row m]; cbn.
  - destruct Hlt as [|i idxs Hi _]; [done | cbn in Hi; lia].
  - by rewrite length_map.
Qed.

Lemma kept_bound (dx : nat) (removed : list nat) :
  Forall (fun i => (i < dx)%nat) (KernelBasedHGR.kept dx removed).
Proof.
  apply Forall_forall. intros i Hi.
  apply DetectorFacts.elem_of_kept in Hi as [Hi _]. exact Hi.
Qed.

Lemma detector_kept (qr_r : matrix -> matrix) (self : config) (f g : matrix)
    (fi gi : list nat) :
  KernelBasedHGR._get_linearly_independent qr_r self f g = Ok (fi, gi) ->
  (NoDup fi /\ Forall (fun i => (i < Np.ncols f)%nat) fi) /\
  (NoDup gi /\ Forall (fun i => (i < Np.ncols g)%nat) gi).
Proof.
  unfold KernelBasedHGR._get_linearly_independent. intros H.
  apply bind_Ok in H as (rf & _ & H). apply bind_Ok in H as (rg & _ & [= <- <-]).
  repeat split; auto using DetectorFacts.NoDup_kept, kept_bound.
Qed.

Lemma gather_cols_shape (n : nat) (M : matrix) (idxs : list nat) :
  length M = n -> Spec.has_shape n (length idxs) (Np.gather_cols M idxs).
Proof.
  intros Hn. unfold Np.gather_cols. split; [by rewrite length_map|].
  apply Forall_forall. intros row Hrow.
  apply list_elem_of_In, in_map_iff in Hrow as (r & <- & _). by rewrite length_map.
Qed.

Lemma length_gather_cols (m : matrix) (idxs : list nat) :
  length (Np.gather_cols m idxs) = length m.
Proof. apply length_map. Qed.

Lemma assign_eq (v : vec) (idxs : list nat) (vals : vec) :
  length vals = length idxs -> Forall (fun i => (i < length v)%nat) idxs ->
  Np.assign v idxs vals = Ok (Np.put v idxs vals).
Proof.
  intros Hlen Hlt. unfold Np.assign. rewrite decide_True by done.
  cbn [mbind result_bind]. by rewrite decide_True.
Qed.

Lemma assign_Ok (v : vec) (idxs : list nat) (vals w : vec) :
  length vals = length idxs -> Np.assign v idxs vals = Ok w ->
  w = Np.put v idxs vals.
Proof.
  intros Hlen. unfold Np.assign. rewrite decide_True by done.
  cbn [mbind result_bind]. case_decide; [by intros [= <-] | discriminate].
Qed.

(** More values than one, in another number than that of the indices, are
    refused. *)
Lemma assign_mismatch (v : vec) (idxs : list nat) (vals : vec) :
  length vals <> length idxs -> length vals <> 1%nat ->
  Np.assign v idxs vals = Raise ValueError.
Proof.
  intros Hlen H1. unfold Np.assign. rewrite decide_False by done.
  destruct vals as [|x [|y vals]]; done.
Qed.

Module ScatterFacts.
Import KernelBasedHGR.

Section Estimator.
Variable qr_r : matrix -> matrix.
Variable minimize :
  (vec -> R * vec) -> matrix -> vec -> NonlinearConstraint ->
  opt_method -> R -> nat -> vec.
Variable self : config.

(** The one call of the solver: once the detector and the initial point are
    there, the solver is handed the closure [_fun], [fun_hess], the initial
    point and the constraint of the reduced matrices, and its answer is
    scattered back. *)
Lemma higher_order_call (f g : matrix) (a0 b0 : option vec)
    (fi gi : list nat) (x0_a x0_b : vec) :
  _get_linearly_independent qr_r self f g = Ok (fi, gi) ->
  let F := Np.gather_cols f fi in
  let G := Np.gather_cols g gi in
  let dx := length fi in
  let dy := length gi in
  match a0 with
  | None => Ok (initial_guess self F dx)
  | Some w => Np.gather w fi
  end = Ok x0_a ->
  match b0 with
  | None => Ok (initial_guess self G dy)
  | Some w => Np.gather w gi
  end = Ok x0_b ->
  _higher_order_coefficients qr_r minimize self f g a0 b0
  = (let s_x := minimize (_fun self F G dx (dx + dy)) (fun_hess F G (dx + dy))
                  (x0_a ++ x0_b) (constraint G dx dy (length f))
                  (method self) (tol self) (maxiter self) in
     alpha ← Np.assign (Np.zeros (Np.ncols f)) fi (take dx s_x);
     beta ← Np.assign (Np.zeros (Np.ncols g)) gi (drop dx s_x);
     Ok (alpha, beta)).
Proof.
  intros Hdet F G dx dy Ha Hb. unfold _higher_order_coefficients.
  rewrite Hdet. cbn [mbind result_bind].
  destruct (detector_kept _ _ _ _ _ _ Hdet) as [[_ Hltf] [_ Hltg]].
  rewrite (ncols_gather_cols f fi Hltf), (ncols_gather_cols g gi Hltg).
  rewrite length_gather_cols. fold F G dx dy.
  rewrite Ha. cbn [mbind result_bind]. rewrite Hb. reflexivity.
Qed.

(** When [_higher_order_coefficients] returns, the detector and the initial
    point were there. *)
Lemma higher_order_inv (f g : matrix) (a0 b0 : option vec) (al be : vec) :
  _higher_order_coefficients qr_r minimize self f g a0 b0 = Ok (al, be) ->
  exists fi gi x0_a x0_b,
    _get_linearly_independent qr_r self f g = Ok (fi, gi) /\
    match a0 with
    | None => Ok (initial_guess self (Np.gather_cols f fi) (length fi))
    | Some w => Np.gather w fi
    end = Ok x0_a /\
    match b0 with
    | None => Ok (initial_guess self (Np.gather_cols g gi) (length gi))
    | Some w => Np.gather w gi
    end = Ok x0_b /\
    length x0_a = length fi /\ length x0_b = length gi.
Proof.
  intros H. unfold _higher_order_coefficients in H.
  apply bind_Ok in H as ([fi gi] & Hdet & H).
  destruct (detector_kept _ _ _ _ _ _ Hdet) as [[_ Hltf] [_ Hltg]].
  rewrite (ncols_gather_cols f fi Hltf), (ncols_gather_cols g gi Hltg) in H.
  apply bind_Ok in H as (x0_a & Ha0 & H). apply bind_Ok in H as (x0_b & Hb0 & _).
  exists fi, gi, x0_a, x0_b. do 3 (split; [done|]). split.
  - destruct a0 as [a0|].
    + by apply gather_Ok in Ha0 as [? _].
    + injection Ha0 as <-. unfold initial_guess, Np.ones.
      by rewrite length_map, length_replicate.
  - destruct b0 as [b0|].
    + by apply gather_Ok in Hb0 as [? _].
    + injection Hb0 as <-. unfold initial_guess, Np.ones.
      by rewrite length_map, length_replicate.
Qed.

End Estimator.

End ScatterFacts.

(** C7: when the solver returns a point shaped like its initial point and
    [_higher_order_coefficients] returns [alpha] and [beta], these have the
    lengths of the degrees; with [s_x] the answer of the solver to the
    problem of the reduced matrices (closure [_fun], [fun_hess], initial
    point, constraint), [alpha] holds the first entries of [s_x] and [beta]
    the following ones at the retained indices, in their order, and both are
    zero at every index the detector removed. *)
Theorem C7_scatter_solution_back
    (qr_r : matrix -> matrix)
    (minimize : (vec -> R * vec) -> matrix -> vec -> NonlinearConstraint ->
                opt_method -> R -> nat -> vec)
    (self : config) (f g : matrix) (a0 b0 : option vec) (al be : vec) :
  (forall fn h x0 c m t k, length (minimize fn h x0 c m t k) = length x0) ->
  KernelBasedHGR._higher_order_coefficients qr_r minimize self f g a0 b0
    = Ok (al, be) ->
  exists fi gi x0_a x0_b,
    let F := Np.gather_cols f fi in
    let G := Np.gather_cols g gi in
    let dx := length fi in
    let dy := length gi in
    let s_x :=
      minimize (KernelBasedHGR._fun self F G dx (dx + dy))
               (KernelBasedHGR.fun_hess F G (dx + dy)) (x0_a ++ x0_b)
               (KernelBasedHGR.constraint G dx dy (length f))
               (method self) (tol self) (maxiter self) in
    KernelBasedHGR._get_linearly_independent qr_r self f g = Ok (fi, gi) /\
    match a0 with
    | None => Ok (KernelBasedHGR.initial_guess self F dx)
    | Some w => Np.gather w fi
    end = Ok x0_a /\
    match b0 with
    | None => Ok (KernelBasedHGR.initial_guess self G dy)
    | Some w => Np.gather w gi
    end = Ok x0_b /\
    length s_x = (dx + dy)%nat /\
    length al = Np.ncols f /\ length be = Np.ncols g /\
    (forall k idx, fi !! k = Some idx ->
       al !! idx = s_x !! k /\ is_Some (s_x !! k)) /\
    (forall k idx, gi !! k = Some idx ->
       be !! idx = s_x !! (dx + k)%nat /\ is_Some (s_x !! (dx + k)%nat)) /\
    (forall idx, (idx < Np.ncols f)%nat -> idx ∉ fi -> al !! idx = Some 0) /\
    (forall idx, (idx < Np.ncols g)%nat -> idx ∉ gi -> be !! idx = Some 0).
Proof.
  intros Hshape H.
  destruct (ScatterFacts.higher_order_inv _ _ _ _ _ _ _ _ _ H)
    as (fi & gi & x0_a & x0_b & Hdet & Ha0 & Hb0 & Hla & Hlb).
  exists fi, gi, x0_a, x0_b. intros F G dx dy s_x.
  rewrite (ScatterFacts.higher_order_call qr_r minimize self f g a0 b0
             fi gi x0_a x0_b Hdet Ha0 Hb0) in H.
  cbn zeta in H. fold F G dx dy s_x in H.
  destruct (detector_kept _ _ _ _ _ _ Hdet) as [[Hndf Hltf] [Hndg Hltg]].
  assert (Hls : length s_x = (dx + dy)%nat).
  { unfold s_x. rewrite Hshape, length_app. unfold dx, dy. lia. }
  assert (Hzf : length (Np.zeros (Np.ncols f)) = Np.ncols f)
    by apply length_replicate.
  assert (Hzg : length (Np.zeros (Np.ncols g)) = Np.ncols g)
    by apply length_replicate.
  assert (Hlt : length (take dx s_x) = length fi)
    by (rewrite length_take_le by lia; done).
  assert (Hld : length (drop dx s_x) = length gi)
    by (rewrite length_drop; unfold dx, dy in *; lia).
  apply bind_Ok in H as (al' & Hal & H). apply bind_Ok in H as (be' & Hbe & [= <- <-]).
  apply assign_Ok in Hal; [|done]. apply assign_Ok in Hbe; [|done]. subst al' be'.
  do 4 (split; [done|]). rewrite !length_put. do 2 (split; [done|]).
  split; [|split; [|split]].
  - intros k idx Hk. apply lookup_lt_Some in Hk as Hklt.
    rewrite (put_lookup _ _ _ k) by (rewrite ?Hzf; done).
    rewrite lookup_take_lt by done.
    split; [done|]. apply lookup_lt_is_Some_2. unfold dx in Hls. lia.
  - intros k idx Hk. apply lookup_lt_Some in Hk as Hklt.
    rewrite (put_lookup _ _ _ k) by (rewrite ?Hzg; done).
    rewrite lookup_drop.
    split; [done|]. apply lookup_lt_is_Some_2. unfold dx, dy in *. lia.
  - intros idx Hidx Hnot. rewrite put_lookup_other by done.
    by apply lookup_replicate_2.
  - intros idx Hidx Hnot. rewrite put_lookup_other by done.
    by apply lookup_replicate_2.
Qed.

(** ** The objective, its derivatives and the constraint *)

Lemma sigma_ext (n : nat) (h h' : nat -> R) :
  (forall i, (i < n)%nat -> h i = h' i) -> Spec.sigma n h = Spec.sigma n h'.
Proof.
  induction n as [|n IH]; intros Hext; [done|]. cbn.
  rewrite IH by (intros; apply Hext; lia). rewrite Hext by lia. done.
Qed.

Lemma sigma_shift (n : nat) (h : nat -> R) :
  Spec.sigma (S n) h = h 0%nat + Spec.sigma n (fun i => h (S i)).
Proof.
  induction n as [|n IH]; [cbn; lra|].
  change (Spec.sigma (S (S n)) h) with (Spec.sigma (S n) h + h (S n)).
  rewrite IH. cbn. lra.
Qed.

Lemma sigma_scale (k : R) (n : nat) (h : nat -> R) :
  Spec.sigma n (fun i => k * h i) = k * Spec.sigma n h.
Proof. induction n as [|n IH]; cbn; [lra|]. rewrite IH. lra. Qed.

Lemma sum_map_seq (h : nat -> R) (s n : nat) :
  Np.sum (map h (seq s n)) = Spec.sigma n (fun i => h (s + i)%nat).
Proof.
  revert s. induction n as [|n IH]; intros s; [done|].
  rewrite sigma_shift. cbn [seq map].
  change (Np.sum (h s :: map h (seq (S s) n))) with (h s + Np.sum (map h (seq (S s) n))).
  rewrite IH, Nat.add_0_r. f_equal. apply sigma_ext. intros i _. f_equal. lia.
Qed.

Lemma map_nth_seq {A B} (h : A -> B) (l : list A) (d : A) :
  map h l = map (fun i => h (nth i l d)) (seq 0 (length l)).
Proof.
  induction l as [|x l IH]; [done|]. cbn [length seq map nth].
  f_equal. rewrite <- seq_shift, map_map. exact IH.
Qed.

Lemma zip_with_map_seq {A B C} (op : A -> B -> C) (p : nat -> A) (q : nat -> B)
    (l : list nat) :
  zip_with op (map p l) (map q l) = map (fun i => op (p i) (q i)) l.
Proof. induction l as [|i l IH]; [done|]. cbn. by rewrite IH. Qed.

Lemma dot_map_seq (p q : nat -> R) (n : nat) :
  Np.dot (map p (seq 0 n)) (map q (seq 0 n)) = Spec.sigma n (fun i => p i * q i).
Proof. unfold Np.dot. by rewrite zip_with_map_seq, sum_map_seq. Qed.

Lemma list_as_map_seq {A} (l : list A) (d : A) :
  l = map (fun i => nth i l d) (seq 0 (length l)).
Proof. rewrite <- (map_nth_seq (fun x => x)). symmetry. apply map_id. Qed.

Lemma dot_sigma (u w : vec) :
  length u = length w ->
  Np.dot u w = Spec.sigma (length u) (fun j => nth j u 0 * nth j w 0).
Proof.
  intros Hlen. rewrite <- dot_map_seq.
  rewrite Hlen at 2. by rewrite <- !list_as_map_seq.
Qed.

Lemma sum_abs_norm1 (v : vec) : Np.sum (map Rabs v) = Spec.norm1 v.
Proof.
  induction v as [|x v IH]; [done|].
  change (Rabs x + Np.sum (map Rabs v) = Rabs x + Spec.norm1 v). by rewrite IH.
Qed.

Lemma sum_sigma (v : vec) : Np.sum v = Spec.sigma (length v) (fun i => nth i v 0).
Proof.
  rewrite (list_as_map_seq v 0) at 1. by rewrite sum_map_seq.
Qed.

(** Population variance, as numpy computes it and as the specification
    writes it *)
Lemma var_pop_variance (x : vec) : Np.var x = Spec.pop_variance x.
Proof.
  unfold Np.var, Spec.pop_variance, Np.mean. rewrite length_map.
  rewrite <- sum_sigma. f_equal.
  rewrite (map_nth_seq (fun t => (t - Np.sum x / INR (length x)) ^ 2) x 0).
  by rewrite sum_map_seq.
Qed.

Lemma nth_zip_with {A B C} (op : A -> B -> C) (l : list A) (k : list B)
    (i : nat) (da : A) (db : B) (dc : C) :
  (i < length l)%nat -> (i < length k)%nat ->
  nth i (zip_with op l k) dc = op (nth i l da) (nth i k db).
Proof.
  revert k i. induction l as [|x l IH]; intros [|y k] [|i]; cbn; try lia; auto.
  intros. apply IH; lia.
Qed.

Lemma nth_map_opp (l : vec) (k : nat) : nth k (map Ropp l) 0 = - nth k l 0.
Proof.
  revert k. induction l as [|x l IH]; intros [|k]; cbn; try lra. apply IH.
Qed.

Module SolverFacts.
Import KernelBasedHGR.

Section Shapes.
Variable self : config.
Variables (F G : matrix) (n dx dy : nat).
Hypothesis HF : Spec.has_shape n dx F.
Hypothesis HG : Spec.has_shape n dy G.

Lemma row_length_F (i : nat) : (i < n)%nat -> length (nth i F []) = dx.
Proof.
  destruct HF as [Hn Hrows]. intros Hi.
  rewrite Forall_nth in Hrows. apply Hrows. lia.
Qed.

Lemma row_length_G (i : nat) : (i < n)%nat -> length (nth i G []) = dy.
Proof.
  destruct HG as [Hn Hrows]. intros Hi.
  rewrite Forall_nth in Hrows. apply Hrows. lia.
Qed.

(** [M @ v] is the product of the specification. *)
Lemma matvec_product (M : matrix) (c : nat) (v : vec) :
  Spec.has_shape n c M -> length v = c ->
  Np.matvec M v = Spec.product M v n.
Proof.
  intros [Hn Hrows] Hv. unfold Np.matvec, Spec.product.
  rewrite (map_nth_seq _ M []), Hn. apply map_ext_in. intros i Hi.
  apply in_seq in Hi. rewrite Forall_nth in Hrows.
  rewrite dot_sigma by (rewrite Hrows by lia; lia).
  rewrite Hrows, Hv by lia. done.
Qed.

(** The residual [f_slim @ alp - g_slim @ bet] *)
Lemma diff_residual (alpha beta : vec) :
  length alpha = dx -> length beta = dy ->
  Np.vsub (Np.matvec F alpha) (Np.matvec G beta)
  = map (Spec.residual F G alpha beta) (seq 0 n).
Proof.
  intros Ha Hb. rewrite (matvec_product F dx), (matvec_product G dy) by done.
  unfold Np.vsub, Spec.product. by rewrite zip_with_map_seq.
Qed.

(** Column [j] of [fg] *)
Lemma fg_column (j : nat) :
  map (fun row => nth j row 0) (fg_concat F G)
  = map (fun i => Spec.block_entry F G dx i j) (seq 0 n).
Proof.
  destruct HF as [HnF _], HG as [HnG _].
  rewrite (map_nth_seq _ (fg_concat F G) []).
  unfold fg_concat at 2. rewrite length_zip_with_l_eq by lia. rewrite HnF.
  apply map_ext_in. intros i Hi. apply in_seq in Hi.
  unfold fg_concat. rewrite (nth_zip_with _ _ _ _ [] [] []) by lia.
  unfold Spec.block_entry, Spec.entry. case_decide.
  - rewrite app_nth1 by (rewrite row_length_F by lia; lia). done.
  - rewrite app_nth2 by (rewrite row_length_F by lia; lia).
    rewrite row_length_F by lia. apply nth_map_opp.
Qed.

Lemma scaled_transpose (d : nat) :
  Np.mscale 2 (Np.transpose d (fg_concat F G))
  = map (fun j => map (fun i => 2 * Spec.block_entry F G dx i j) (seq 0 n)) (seq 0 d).
Proof.
  unfold Np.mscale, Np.transpose, Np.scale. rewrite map_map.
  apply map_ext. intros j. by rewrite fg_column, map_map.
Qed.

Lemma objective_value (alpha beta : vec) :
  length alpha = dx -> length beta = dy ->
  fst (_fun self F G dx (dx + dy) (alpha ++ beta))
  = Spec.objective (lasso self) F G alpha beta.
Proof.
  intros Ha Hb. unfold _fun. cbn zeta. cbn [fst].
  assert (Ht : take dx (alpha ++ beta) = alpha)
    by (rewrite <- Ha; apply take_app_length).
  assert (Hd : drop dx (alpha ++ beta) = beta)
    by (rewrite <- Ha; apply drop_app_length).
  rewrite !Ht, !Hd.
  rewrite diff_residual by done. rewrite dot_map_seq, sum_abs_norm1.
  unfold Spec.objective. destruct HF as [-> _]. f_equal.
  apply sigma_ext. intros i _. cbn. ring.
Qed.

Lemma objective_gradient (alpha beta : vec) :
  length alpha = dx -> length beta = dy ->
  snd (_fun self F G dx (dx + dy) (alpha ++ beta))
  = map (Spec.gradient (lasso self) F G alpha beta) (seq 0 (dx + dy)).
Proof.
  intros Ha Hb. unfold _fun. cbn zeta. cbn [snd].
  assert (Ht : take dx (alpha ++ beta) = alpha)
    by (rewrite <- Ha; apply take_app_length).
  assert (Hd : drop dx (alpha ++ beta) = beta)
    by (rewrite <- Ha; apply drop_app_length).
  rewrite !Ht, !Hd.
  rewrite diff_residual by done. rewrite scaled_transpose.
  unfold Np.matvec, Np.vadd, Np.scale. rewrite !map_map.
  rewrite (map_nth_seq (fun x => lasso self * Np.sign x) (alpha ++ beta) 0).
  rewrite length_app, Ha, Hb, zip_with_map_seq.
  apply map_ext. intros j. unfold Spec.gradient.
  rewrite dot_map_seq. destruct HF as [-> _]. rewrite Ha. f_equal.
  rewrite <- sigma_scale. apply sigma_ext. intros i _. ring.
Qed.

Lemma hessian_entries :
  fun_hess F G (dx + dy)
  = map (fun j => map (Spec.hessian F G dx j) (seq 0 (dx + dy))) (seq 0 (dx + dy)).
Proof.
  unfold fun_hess, Np.matmul. rewrite scaled_transpose, map_map.
  apply map_ext. intros j. unfold Np.transpose. rewrite map_map.
  apply map_ext. intros k. rewrite fg_column, dot_map_seq.
  unfold Spec.hessian. destruct HF as [-> _].
  rewrite <- sigma_scale. apply sigma_ext. intros i _. ring.
Qed.

Lemma constraint_value (alpha beta : vec) :
  length alpha = dx -> length beta = dy ->
  c_fun (constraint G dx dy n) (alpha ++ beta)
  = Spec.pop_variance (Spec.product G beta n).
Proof.
  intros Ha Hb. cbn [constraint c_fun].
  assert (Hd : drop dx (alpha ++ beta) = beta)
    by (rewrite <- Ha; apply drop_app_length).
  by rewrite Hd, (matvec_product G dy), var_pop_variance.
Qed.

End Shapes.

End SolverFacts.

(** C6: once the detector has returned the retained columns and the initial
    point is there, [_higher_order_coefficients] hands the solver, on the
    reduced kernel matrices F (n x dx) and G (n x dy), an objective that at
    every point [alpha ++ beta] returns the value
    ||F.alpha - G.beta||^2 + lasso.||[alpha, beta]||_1 and the gradient
    2.[F -G]^T.(F.alpha - G.beta) + lasso.sign([alpha, beta]), the Hessian
    2.[F -G]^T.[F -G], and a constraint whose function is the population
    variance of G.beta with both bounds equal to 1; what it returns is the
    answer of the solver to that problem, scattered back. *)
Theorem C6_objective_and_constraint
    (qr_r : matrix -> matrix)
    (minimize : (vec -> R * vec) -> matrix -> vec -> NonlinearConstraint ->
                opt_method -> R -> nat -> vec)
    (self : config) (f g : matrix) (a0 b0 : option vec)
    (fi gi : list nat) (x0_a x0_b : vec) :
  length f = length g ->
  KernelBasedHGR._get_linearly_independent qr_r self f g = Ok (fi, gi) ->
  let F := Np.gather_cols f fi in
  let G := Np.gather_cols g gi in
  let n := length f in
  let dx := length fi in
  let dy := length gi in
  let d := (dx + dy)%nat in
  match a0 with
  | None => Ok (KernelBasedHGR.initial_guess self F dx)
  | Some w => Np.gather w fi
  end = Ok x0_a ->
  match b0 with
  | None => Ok (KernelBasedHGR.initial_guess self G dy)
  | Some w => Np.gather w gi
  end = Ok x0_b ->
  let fn := KernelBasedHGR._fun self F G dx d in
  let H := KernelBasedHGR.fun_hess F G d in
  let c := KernelBasedHGR.constraint G dx dy n in
  KernelBasedHGR._higher_order_coefficients qr_r minimize self f g a0 b0
  = (let s_x := minimize fn H (x0_a ++ x0_b) c (method self) (tol self) (maxiter self) in
     alpha ← Np.assign (Np.zeros (Np.ncols f)) fi (take dx s_x);
     beta ← Np.assign (Np.zeros (Np.ncols g)) gi (drop dx s_x);
     Ok (alpha, beta)) /\
  (forall alpha beta, length alpha = dx -> length beta = dy ->
     fn (alpha ++ beta)
     = (Spec.objective (lasso self) F G alpha beta,
        map (Spec.gradient (lasso self) F G alpha beta) (seq 0 d)) /\
     c_fun c (alpha ++ beta) = Spec.pop_variance (Spec.product G beta n)) /\
  H = map (fun j => map (Spec.hessian F G dx j) (seq 0 d)) (seq 0 d) /\
  c_lb c = 1 /\ c_ub c = 1.
Proof.
  intros Hlen Hdet F G n dx dy d Ha Hb fn H c.
  assert (HF : Spec.has_shape n dx F) by (by apply gather_cols_shape).
  assert (HG : Spec.has_shape n dy G) by (by apply gather_cols_shape).
  split; [by apply ScatterFacts.higher_order_call|].
  split; [|split; [|done]].
  - intros alpha beta Hal Hbe. split.
    + unfold fn. rewrite (surjective_pairing (KernelBasedHGR._fun self F G dx d (alpha ++ beta))).
      unfold d. f_equal.
      * by apply (SolverFacts.objective_value self F G n dx dy).
      * by apply (SolverFacts.objective_gradient self F G n dx dy).
    + by apply (SolverFacts.constraint_value G n dx dy).
  - by apply (SolverFacts.hessian_entries F G n dx dy).
Qed.

Lemma C6_objective_and_constraint_witness :
  let F := Np.gather_cols Examples.F_bits [0%nat] in
  let G := Np.gather_cols Examples.G_bits [0%nat; 1%nat] in
  let fn := KernelBasedHGR._fun default_config F G 1 3 in
  let H := KernelBasedHGR.fun_hess F G 3 in
  let c := KernelBasedHGR.constraint G 1 2 4 in
  KernelBasedHGR._higher_order_coefficients Examples.qr_bits Examples.minimize_x0
    default_config Examples.F_bits Examples.G_bits None None
  = (let s_x := Examples.minimize_x0 fn H
                  (KernelBasedHGR.initial_guess default_config F 1
                   ++ KernelBasedHGR.initial_guess default_config G 2)
                  c (method default_config) (tol default_config)
                  (maxiter default_config) in
     alpha ← Np.assign (Np.zeros 1) [0%nat] (take 1 s_x);
     beta ← Np.assign (Np.zeros 2) [0%nat; 1%nat] (drop 1 s_x);
     Ok (alpha, beta)) /\
  (forall alpha beta, length alpha = 1%nat -> length beta = 2%nat ->
     fn (alpha ++ beta)
     = (Spec.objective (lasso default_config) F G alpha beta,
        map (Spec.gradient (lasso default_config) F G alpha beta) (seq 0 3)) /\
     c_fun c (alpha ++ beta) = Spec.pop_variance (Spec.product G beta 4)) /\
  H = map (fun j => map (Spec.hessian F G 1 j) (seq 0 3)) (seq 0 3) /\
  c_lb c = 1 /\ c_ub c = 1.
Proof.
  apply (C6_objective_and_constraint Examples.qr_bits Examples.minimize_x0
           default_config Examples.F_bits Examples.G_bits None None
           [0%nat] [0%nat; 1%nat]).
  - reflexivity.
  - apply DetectorExamples.detector_bits.
  - reflexivity.
  - reflexivity.
Defined.

Lemma solve_bits :
  KernelBasedHGR._higher_order_coefficients Examples.qr_bits Examples.minimize_x0
    default_config Examples.F_bits Examples.G_bits None None
  = Ok (Examples.alpha_bits, Examples.beta_bits).
Proof.
  unfold KernelBasedHGR._higher_order_coefficients.
  rewrite DetectorExamples.detector_bits. reflexivity.
Qed.

Lemma solve_twin :
  KernelBasedHGR._higher_order_coefficients Examples.qr_twin Examples.minimize_x0
    default_config Examples.F_bits Examples.G_twin None None
  = Ok (Examples.alpha_twin, Examples.beta_twin).
Proof.
  unfold KernelBasedHGR._higher_order_coefficients.
  rewrite DetectorExamples.detector_twin. reflexivity.
Qed.

Lemma C7_scatter_solution_back_witness :
  Examples.alpha_twin !! 0%nat = Examples.x0_twin !! 0%nat /\
  Examples.beta_twin !! 0%nat = Examples.x0_twin !! 1%nat /\
  Examples.beta_twin !! 1%nat = Some 0.
Proof.
  destruct (C7_scatter_solution_back Examples.qr_twin Examples.minimize_x0
              default_config Examples.F_bits Examples.G_twin None None
              Examples.alpha_twin Examples.beta_twin)
    as (fi & gi & x0_a & x0_b & Hdet & Ha0 & Hb0 & _ & _ & _ & Hal & Hbe & _ & Hzero);
    [intros; reflexivity | apply solve_twin |].
  rewrite DetectorExamples.detector_twin in Hdet. injection Hdet as <- <-.
  injection Ha0 as <-. injection Hb0 as <-.
  split; [exact (proj1 (Hal 0%nat 0%nat eq_refl))|].
  split; [exact (proj1 (Hbe 0%nat 0%nat eq_refl))|].
  apply Hzero; [cbn; lia|]. intros Hin.
  apply elem_of_cons in Hin as [[=]|Hin]. by apply elem_of_nil in Hin.
Defined.

(** The detector is reached from [_kbhgr] on these inputs: degrees 1 and 2
    without the closed-form shortcut. *)
Lemma kbhgr_bits :
  exists r,
    KernelBasedHGR._kbhgr Examples.qr_bits Examples.lstsq_none Examples.minimize_x0
      Examples.no_lstsq 0 Examples.a_bits Examples.b_bits 1 2 None None = Ok r /\
    KernelBasedHGR.alpha r = Examples.alpha_bits /\
    KernelBasedHGR.beta r = Examples.beta_bits.
Proof.
  unfold KernelBasedHGR._kbhgr.
  rewrite DetectorExamples.kernel_a_bits, DetectorExamples.kernel_b_bits.
  cbn [mbind result_bind].
  rewrite decide_False by (intros [_ [=]]).
  rewrite decide_False by (intros [_ [=]]).
  rewrite decide_False by (intros [[=] _]).
  change (KernelBasedHGR._higher_order_coefficients Examples.qr_bits
            Examples.minimize_x0 Examples.no_lstsq Examples.F_bits Examples.G_bits
            None None)
    with (KernelBasedHGR._higher_order_coefficients Examples.qr_bits
            Examples.minimize_x0 default_config Examples.F_bits Examples.G_bits
            None None).
  rewrite solve_bits. cbn [mbind result_bind]. eexists. split; [reflexivity|]. done.
Qed.

(** * Further properties *)

(** ** The call counter and the stored result *)

Module CallFacts.
Import Indicator.

Section Calls.
Context {K : Type}.
Variable sem : semantics.
Variable _value : state K -> vec -> vec -> result (R * K).

(** One invocation: the counter moves by one exactly when the assertions
    pass, and a returned result carries the inputs and the new counter. *)
Lemma call_counter (self : state K) (a b : ndarray) :
  let out := __call__ K sem _value self a b in
  _num_calls (snd out)
  = (_num_calls self + (if decide (Calls.valid_shapes (a, b)) then 1 else 0))%nat /\
  forall r, fst out = Ok r ->
    Indicator.a r = a /\ Indicator.b r = b /\
    Indicator.num_call r = _num_calls (snd out) /\
    Calls.valid_shapes (a, b).
Proof.
  unfold __call__, Calls.valid_shapes. cbn [fst snd].
  repeat case_decide; cbn [fst snd]; try (exfalso; tauto).
  - destruct (_value _ _ _) as [[v k]|e]; cbn; split; try done.
    intros r [= <-]. cbn. tauto.
  - split; [lia | discriminate].
  - split; [lia | discriminate].
Qed.

End Calls.

End CallFacts.

(** X1: over any sequence of invocations, and whatever [_value] does,
    [num_calls] grows by the number of invocations that pass the two shape
    assertions: a raising [_value] is counted, a shape error is not. *)
Theorem X1_num_calls_counts_attempts
    (K : Type) (sem : Indicator.semantics)
    (_value : Indicator.state K -> vec -> vec -> result (R * K))
    (calls : list (Indicator.ndarray * Indicator.ndarray))
    (self : Indicator.state K) :
  Indicator._num_calls (snd (Indicator.run K sem _value self calls))
  = (Indicator._num_calls self + Calls.attempts calls)%nat.
Proof.
  revert self. induction calls as [|[a b] calls IH]; intros self.
  - cbn. lia.
  - cbn [Indicator.run].
    destruct (CallFacts.call_counter sem _value self a b) as [Hn _].
    destruct (Indicator.__call__ K sem _value self a b) as [res self'].
    specialize (IH self').
    destruct (Indicator.run K sem _value self' calls) as [outs final].
    cbn [fst snd] in *. rewrite IH, Hn. unfold Calls.attempts.
    rewrite filter_cons. case_decide; cbn [length]; lia.
Qed.

(** X2: the i-th invocation of a sequence, when it returns, returns a result
    that holds its two input arrays and whose [num_call] is the number of
    invocations that passed the shape assertions up to and including it. *)
Theorem X2_result_records_call
    (K : Type) (sem : Indicator.semantics)
    (_value : Indicator.state K -> vec -> vec -> result (R * K))
    (calls : list (Indicator.ndarray * Indicator.ndarray))
    (self : Indicator.state K) (i : nat) (r : Indicator.Result K) :
  fst (Indicator.run K sem _value self calls) !! i = Some (Ok r) ->
  calls !! i = Some (Indicator.a r, Indicator.b r) /\
  Indicator.num_call r
  = (Indicator._num_calls self + Calls.attempts (take (S i) calls))%nat.
Proof.
  revert self i. induction calls as [|[a b] calls IH]; intros self i.
  - cbn. by rewrite lookup_nil.
  - cbn [Indicator.run].
    destruct (CallFacts.call_counter sem _value self a b) as [Hn Hres].
    destruct (Indicator.__call__ K sem _value self a b) as [res self'].
    specialize (IH self').
    destruct (Indicator.run K sem _value self' calls) as [outs final].
    cbn [fst snd] in *. unfold Calls.attempts in *. destruct i as [|i].
    + intros Hi. cbn in Hi. injection Hi as ->.
      destruct (Hres r eq_refl) as (-> & -> & -> & Hv).
      split; [done|]. rewrite Hn.
      change (take 1 ((a, b) :: calls)) with ((a, b) :: take 0 calls).
      rewrite take_0, filter_cons, decide_True by done.
      rewrite decide_True by done. done.
    + intros Hi. change ((res :: outs) !! S i) with (outs !! i) in Hi.
      destruct (IH i Hi) as [Hc ->]. split; [done|]. rewrite Hn.
      change (take (S (S i)) ((a, b) :: calls)) with ((a, b) :: take (S i) calls).
      rewrite filter_cons. case_decide; cbn [length]; lia.
Qed.

Lemma X2_result_records_call_witness :
  Indicator.num_call
    {| Indicator.a := Indicator.vector [1; 2]; Indicator.b := Indicator.vector [3; 4];
       Indicator.value := 1 * 1; Indicator.num_call := 1; Indicator.kwargs := tt |}
  = Nat.add 0
      (Calls.attempts
         (take 2 [(Examples.two_by_two, Indicator.vector [1; 2]);
                  (Indicator.vector [1; 2], Indicator.vector [3; 4])])).
Proof.
  apply (X2_result_records_call unit Indicator.hgr (fun _ _ _ => Ok (1, tt))
           [(Examples.two_by_two, Indicator.vector [1; 2]);
            (Indicator.vector [1; 2], Indicator.vector [3; 4])]
           (Indicator.init unit) 1).
  reflexivity.
Defined.

(** X3: when [compute] returns a value, that value is the [value] field of the
    result now stored in [last_result], whose [num_call] is the current
    counter. *)
Theorem X3_compute_returns_stored_value
    (K : Type) (sem : Indicator.semantics)
    (_value : Indicator.state K -> vec -> vec -> result (R * K))
    (self : Indicator.state K) (a b : Indicator.ndarray) (v : R) :
  fst (Indicator.compute K sem _value self a b) = Ok v ->
  exists r,
    Indicator._last_result (snd (Indicator.compute K sem _value self a b)) = Some r /\
    Indicator.value r = v /\
    Indicator.num_call r
    = Indicator._num_calls (snd (Indicator.compute K sem _value self a b)).
Proof.
  unfold Indicator.compute.
  pose proof (IndicatorFacts.call_last_result sem _value self a b) as Hlast.
  destruct (CallFacts.call_counter sem _value self a b) as [_ Hres].
  destruct (Indicator.__call__ K sem _value self a b) as [[r|e] self'];
    cbn [fst snd] in *; [|discriminate].
  intros [= <-]. exists r. destruct (Hres r eq_refl) as (_ & _ & Hn & _). done.
Qed.

Lemma X3_compute_returns_stored_value_witness :
  exists r,
    Indicator._last_result
      (snd (Indicator.compute unit Indicator.hgr (fun _ _ _ => Ok (1, tt))
              (Indicator.init unit) (Indicator.vector [1; 2]) (Indicator.vector [3; 4])))
    = Some r /\
    Indicator.value r = 1 * 1 /\
    Indicator.num_call r
    = Indicator._num_calls
        (snd (Indicator.compute unit Indicator.hgr (fun _ _ _ => Ok (1, tt))
                (Indicator.init unit) (Indicator.vector [1; 2]) (Indicator.vector [3; 4]))).
Proof.
  apply (X3_compute_returns_stored_value unit Indicator.hgr (fun _ _ _ => Ok (1, tt))).
  reflexivity.
Defined.

(** ** The kernel expansion *)

Lemma sum_sub_const (c : R) (p : vec) :
  Np.sum (map (fun x => x - c) p) = Np.sum p - INR (length p) * c.
Proof.
  induction p as [|x p IH]; [cbn; lra|].
  change (Np.sum (map (fun x => x - c) (x :: p)))
    with (x - c + Np.sum (map (fun x => x - c) p)).
  change (Np.sum (x :: p)) with (x + Np.sum p).
  rewrite IH. change (length (x :: p)) with (S (length p)). rewrite S_INR. lra.
Qed.

Lemma nth_map_default {A B} (h : A -> B) (l : list A) (i : nat) (d : B) (d' : A) :
  (i < length l)%nat -> nth i (map h l) d = h (nth i l d').
Proof.
  revert i. induction l as [|x l IH]; intros [|i]; cbn; try lia; auto.
  intros. apply IH. lia.
Qed.

Lemma nth_map_seq {A} (h : nat -> A) (s n i : nat) (d : A) :
  (i < n)%nat -> nth i (map h (seq s n)) d = h (s + i)%nat.
Proof.
  intros Hi. rewrite (nth_map_default h _ _ _ 0%nat) by (rewrite length_seq; lia).
  by rewrite seq_nth.
Qed.

Module KernelFacts.
Import KernelBasedHGR.

(** Entry (i, k) of the kernel is [v_i ^ (k+1) - mean(v ^ (k+1))]. *)
Lemma kernel_entry (v : vec) (degree : nat) (m : matrix) (i k : nat) :
  kernel v degree = Ok m -> (i < length v)%nat -> (k < degree)%nat ->
  Spec.entry m i k
  = nth i v 0 ^ S k - Backend.mean (map (fun x => x ^ S k) v).
Proof.
  unfold kernel, Backend.stack. intros Hm Hi Hk.
  destruct degree as [|d]; [lia|].
  set (col := fun d0 => let p := map (fun x => x ^ d0) v in
                        map (fun x => x - Backend.mean p) p) in Hm.
  change (seq 1 (S d)) with (1%nat :: seq 2 d) in Hm. cbn [map] in Hm.
  injection Hm as <-.
  assert (Hlen : length (col 1%nat) = length v) by (unfold col; by rewrite !length_map).
  rewrite Hlen. unfold Spec.entry.
  rewrite nth_map_seq by done. rewrite Nat.add_0_l.
  change (nth i (col 1%nat) 0 :: map (fun c : vec => nth i c 0) (map col (seq 2 d)))
    with (map (fun c : vec => nth i c 0) (map col (seq 1 (S d)))).
  rewrite (nth_map_default _ _ _ _ []) by (rewrite length_map, length_seq; lia).
  rewrite nth_map_seq by lia. unfold col. cbn zeta.
  rewrite (nth_map_default _ _ _ _ 0) by (rewrite length_map; lia).
  rewrite (nth_map_default _ _ _ _ 0) by lia. done.
Qed.

Lemma kernel_shape (v : vec) (degree : nat) (m : matrix) :
  kernel v degree = Ok m -> Spec.has_shape (length v) degree m.
Proof.
  intros Hm. split; [by apply length_kernel in Hm|].
  unfold kernel, Backend.stack in Hm. destruct degree as [|d]; [discriminate|].
  cbn [seq map] in Hm. injection Hm as <-.
  apply Forall_forall. intros row Hrow.
  apply list_elem_of_In, in_map_iff in Hrow as (i & <- & _).
  cbn [map length]. by rewrite !length_map, length_seq.
Qed.

End KernelFacts.

Lemma sum_replicate (n : nat) (y : R) : Np.sum (replicate n y) = INR n * y.
Proof.
  induction n as [|n IH]; [cbn; lra|].
  change (Np.sum (replicate (S n) y)) with (y + Np.sum (replicate n y)).
  rewrite IH, S_INR. lra.
Qed.

Lemma map_replicate {A B} (h : A -> B) (n : nat) (x : A) :
  map h (replicate n x) = replicate n (h x).
Proof. induction n as [|n IH]; [done|]. cbn. by rewrite IH. Qed.

Lemma nth_replicate {A} (n i : nat) (x d : A) :
  (i < n)%nat -> nth i (replicate n x) d = x.
Proof.
  revert i. induction n as [|n IH]; intros [|i] Hi; cbn; try lia; auto.
  apply IH. lia.
Qed.

(** X4: [kernel] refuses degree 0 with a ValueError; for a degree of at least
    1 it returns a matrix with one row per sample and [degree] columns whose
    entry (i, k) is [v_i ^ (k+1) - mean(v ^ (k+1))]. *)
Theorem X4_kernel_shape_and_entries (v : vec) (degree : nat) :
  (degree = 0%nat -> KernelBasedHGR.kernel v degree = Raise ValueError) /\
  ((1 <= degree)%nat ->
   exists m,
     KernelBasedHGR.kernel v degree = Ok m /\
     Spec.has_shape (length v) degree m /\
     forall i k, (i < length v)%nat -> (k < degree)%nat ->
       Spec.entry m i k
       = nth i v 0 ^ S k - Backend.mean (map (fun x => x ^ S k) v)).
Proof.
  split.
  - by intros ->.
  - intros Hd. destruct (kernel_returns v degree Hd) as [m Hm].
    exists m. split; [done|]. split; [by apply KernelFacts.kernel_shape|].
    intros i k. by apply KernelFacts.kernel_entry.
Qed.

(** The columns of the kernel of a non-empty vector sum to zero. *)
Lemma kernel_column_sum (v : vec) (degree : nat) (m : matrix) (k : nat) :
  v <> [] -> KernelBasedHGR.kernel v degree = Ok m -> (k < degree)%nat ->
  Spec.sigma (length v) (fun i => Spec.entry m i k) = 0.
Proof.
  intros Hv Hm Hk.
  rewrite (sigma_ext _ _
             (fun i => nth i (map (fun x => x - Backend.mean (map (fun x => x ^ S k) v))
                                  (map (fun x => x ^ S k) v)) 0)).
  2:{ intros i Hi. rewrite (KernelFacts.kernel_entry v degree m i k) by done.
      rewrite (nth_map_default _ _ _ _ 0) by (rewrite length_map; lia).
      by rewrite (nth_map_default _ _ _ _ 0) by lia. }
  set (p := map (fun x => x ^ S k) v).
  replace (length v) with (length (map (fun x => x - Backend.mean p) p))
    by (unfold p; by rewrite !length_map).
  rewrite <- sum_sigma, sum_sub_const. unfold Backend.mean, Np.mean.
  assert (Hn : 0 < INR (length p)).
  { apply INR_length_pos. unfold p. destruct v; done. }
  field. lra.
Qed.

(** X5: every column of the kernel of a non-empty vector sums to zero: the
    columns are centered. *)
Theorem X5_kernel_columns_centered (v : vec) (degree : nat) (m : matrix) (k : nat) :
  v <> [] -> KernelBasedHGR.kernel v degree = Ok m -> (k < degree)%nat ->
  Spec.sigma (length v) (fun i => Spec.entry m i k) = 0.
Proof. apply kernel_column_sum. Qed.

Lemma X5_kernel_columns_centered_witness :
  Spec.sigma (length Examples.b_bits) (fun i => Spec.entry Examples.G_bits i 1) = 0.
Proof.
  apply (X5_kernel_columns_centered Examples.b_bits 2 Examples.G_bits 1).
  - discriminate.
  - apply DetectorExamples.kernel_b_bits.
  - lia.
Defined.

(** X6: the kernel of a constant vector is the zero matrix, whatever the
    degree. *)
Theorem X6_kernel_of_constant_is_zero
    (n : nat) (c : R) (degree : nat) (m : matrix) (i k : nat) :
  KernelBasedHGR.kernel (replicate n c) degree = Ok m ->
  (i < n)%nat -> (k < degree)%nat -> Spec.entry m i k = 0.
Proof.
  intros Hm Hi Hk.
  rewrite (KernelFacts.kernel_entry _ degree m i k) by (rewrite ?length_replicate; done).
  rewrite nth_replicate by done. rewrite map_replicate.
  unfold Backend.mean, Np.mean. rewrite sum_replicate, length_replicate.
  assert (Hn : 0 < INR n) by (apply lt_0_INR; lia).
  field. lra.
Qed.

Lemma X6_kernel_of_constant_is_zero_witness :
  exists m, KernelBasedHGR.kernel (replicate 3 5) 2 = Ok m /\ Spec.entry m 2 1 = 0.
Proof.
  destruct (kernel_returns (replicate 3 5) 2) as [m Hm]; [lia|].
  exists m. split; [exact Hm|].
  apply (X6_kernel_of_constant_is_zero 3 5 2 m 2 1 Hm); lia.
Defined.

(** ** The layout of the augmented matrix *)

Lemma map_is_fmap {A B} (h : A -> B) (l : list A) : map h l = h <$> l.
Proof. induction l as [|x l IH]; [done|]. cbn. by rewrite IH. Qed.

Lemma elem_of_map_seq (h : nat -> nat) (s n p : nat) :
  p ∈ map h (seq s n) <-> exists i, (s <= i < s + n)%nat /\ p = h i.
Proof.
  rewrite map_is_fmap, list_elem_of_fmap. split.
  - intros (i & -> & Hi). apply elem_of_seq in Hi. eauto.
  - intros (i & Hi & ->). exists i. split; [done|]. by apply elem_of_seq.
Qed.

Lemma NoDup_map_seq (h : nat -> nat) (s n : nat) :
  (forall i j, h i = h j -> i = j) -> NoDup (map h (seq s n)).
Proof.
  intros Hinj. rewrite map_is_fmap. apply NoDup_fmap_2_strong; [|apply NoDup_seq].
  intros i j _ _. apply Hinj.
Qed.

Module LayoutFacts.
Import KernelBasedHGR.

Lemma elem_of_f_positions (dx dy p : nat) :
  p ∈ f_positions dx dy <->
  (exists i, (i < Nat.min dx dy)%nat /\ p = (2 * i + 1)%nat) \/
  (dy <= dx /\ 2 * dy + 1 <= p <= dx + dy)%nat.
Proof.
  unfold f_positions. case_decide.
  - rewrite elem_of_map_seq. split.
    + intros (i & Hi & ->). left. exists i. lia.
    + intros [(i & Hi & ->) | Hr]; [|lia]. exists i. lia.
  - rewrite elem_of_app, !elem_of_map_seq. split.
    + intros [(i & Hi & ->) | (i & Hi & ->)]; [left; exists i; lia | right; lia].
    + intros [(i & Hi & ->) | Hr]; [left; exists i; lia|].
      right. exists (p - 1)%nat. lia.
Qed.

Lemma elem_of_g_positions (dx dy p : nat) :
  p ∈ g_positions dx dy <->
  (exists i, (i < Nat.min dx dy)%nat /\ p = (2 * i + 2)%nat) \/
  (dx < dy /\ 2 * dx + 1 <= p <= dx + dy)%nat.
Proof.
  unfold g_positions. case_decide.
  - rewrite elem_of_app, !elem_of_map_seq. split.
    + intros [(i & Hi & ->) | (i & Hi & ->)]; [left; exists i; lia | right; lia].
    + intros [(i & Hi & ->) | Hr]; [left; exists i; lia|].
      right. exists (p - 1)%nat. lia.
  - rewrite elem_of_map_seq. split.
    + intros (i & Hi & ->). left. exists i. lia.
    + intros [(i & Hi & ->) | Hr]; [|lia]. exists i. lia.
Qed.

Lemma NoDup_f_positions (dx dy : nat) : NoDup (f_positions dx dy).
Proof.
  unfold f_positions. case_decide.
  - apply NoDup_map_seq. intros; lia.
  - apply NoDup_app. repeat split.
    + apply NoDup_map_seq. intros; lia.
    + intros p Hp Hq. apply elem_of_map_seq in Hp as (i & Hi & ->).
      apply elem_of_map_seq in Hq as (j & Hj & Hij). lia.
    + apply NoDup_map_seq. intros; lia.
Qed.

Lemma NoDup_g_positions (dx dy : nat) : NoDup (g_positions dx dy).
Proof.
  unfold g_positions. case_decide.
  - apply NoDup_app. repeat split.
    + apply NoDup_map_seq. intros; lia.
    + intros p Hp Hq. apply elem_of_map_seq in Hp as (i & Hi & ->).
      apply elem_of_map_seq in Hq as (j & Hj & Hij). lia.
    + apply NoDup_map_seq. intros; lia.
  - apply NoDup_map_seq. intros; lia.
Qed.

Lemma positions_disjoint (dx dy p : nat) :
  p ∈ f_positions dx dy -> p ∉ g_positions dx dy.
Proof.
  rewrite elem_of_f_positions, elem_of_g_positions.
  intros [(i & Hi & ->) | Hf] [(j & Hj & Hp) | Hg]; lia.
Qed.

End LayoutFacts.

(** X7: the positions given to the kernel columns in the augmented matrix
    [ 1 | F_1 | G_1 | F_2 | G_2 | ... ] are pairwise distinct and are exactly
    the columns 1 to dx + dy: column 0 is left to the bias, every other column
    receives one kernel column, and while both variables have a column of
    that degree, F_k sits immediately before G_k. *)
Theorem X7_positions_partition_columns (dx dy : nat) :
  NoDup (KernelBasedHGR.f_positions dx dy ++ KernelBasedHGR.g_positions dx dy) /\
  (forall p, p ∈ KernelBasedHGR.f_positions dx dy ++ KernelBasedHGR.g_positions dx dy
             <-> (1 <= p <= dx + dy)%nat) /\
  (forall k, (k < Nat.min dx dy)%nat ->
     KernelBasedHGR.f_positions dx dy !! k = Some (2 * k + 1)%nat /\
     KernelBasedHGR.g_positions dx dy !! k = Some (2 * k + 2)%nat).
Proof.
  split; [|split].
  - apply NoDup_app. repeat split.
    + apply LayoutFacts.NoDup_f_positions.
    + apply LayoutFacts.positions_disjoint.
    + apply LayoutFacts.NoDup_g_positions.
  - intros p. rewrite elem_of_app, LayoutFacts.elem_of_f_positions,
      LayoutFacts.elem_of_g_positions. split.
    + intros [[(i & Hi & ->) | Hr] | [(i & Hi & ->) | Hr]]; lia.
    + intros Hp. destruct (Nat.Even_or_Odd p) as [[q ->] | [q ->]].
      * destruct (decide (q <= Nat.min dx dy)%nat).
        -- right. left. exists (q - 1)%nat. lia.
        -- destruct (decide (dx < dy)%nat); [right; right; lia | left; right; lia].
      * destruct (decide (q < Nat.min dx dy)%nat).
        -- left. left. exists q. lia.
        -- destruct (decide (dx < dy)%nat); [right; right; lia | left; right; lia].
  - intros k Hk. unfold KernelBasedHGR.f_positions, KernelBasedHGR.g_positions.
    case_decide.
    + rewrite lookup_app_l by (rewrite length_map, length_seq; lia).
      rewrite !lookup_map, !lookup_seq_lt by lia. done.
    + rewrite lookup_app_l by (rewrite length_map, length_seq; lia).
      rewrite !lookup_map, !lookup_seq_lt by lia. done.
Qed.

Lemma ncols_of_shape (n d : nat) (m : matrix) :
  (1 <= n)%nat -> Spec.has_shape n d m -> Np.ncols m = d.
Proof.
  intros Hn [Hlen Hrows]. destruct m as [|row m]; [cbn in Hlen; lia|].
  apply Forall_cons in Hrows as [Hrow _]. exact Hrow.
Qed.

Lemma row_of_shape (n d : nat) (m : matrix) (i : nat) :
  Spec.has_shape n d m -> (i < n)%nat -> length (nth i m []) = d.
Proof.
  intros [Hlen Hrows] Hi. rewrite Forall_nth in Hrows. apply Hrows. lia.
Qed.

Module AugmentedFacts.
Import KernelBasedHGR.

Section Shapes.
Variables (f g : matrix) (n dx dy : nat).
Hypothesis Hn : (1 <= n)%nat.
Hypothesis Hf : Spec.has_shape n dx f.
Hypothesis Hg : Spec.has_shape n dy g.

Lemma fg_bias_row (i : nat) :
  (i < n)%nat ->
  nth i (fg_bias f g) []
  = Np.put (Np.put (Np.ones (dx + dy + 1)) (f_positions dx dy) (nth i f []))
           (g_positions dx dy) (nth i g []).
Proof.
  intros Hi. unfold fg_bias, Np.put_cols.
  rewrite (ncols_of_shape n dx f), (ncols_of_shape n dy g) by done.
  destruct Hf as [Hlf _], Hg as [Hlg _].
  assert (Hlo : length (replicate (length f) (Np.ones (dx + dy + 1))) = n)
    by (rewrite length_replicate; lia).
  rewrite (nth_zip_with _ _ _ _ [] [] [])
    by (rewrite ?length_zip_with_l_eq; lia).
  rewrite (nth_zip_with _ _ _ _ [] [] []) by lia.
  by rewrite nth_replicate by lia.
Qed.

Lemma fg_bias_shape : Spec.has_shape n (dx + dy + 1) (fg_bias f g).
Proof.
  pose proof Hf as [Hlf _]. pose proof Hg as [Hlg _].
  assert (Hlen : length (fg_bias f g) = n).
  { unfold fg_bias, Np.put_cols.
    assert (Hlo : length (replicate (length f) (Np.ones (Np.ncols f + Np.ncols g + 1))) = n)
      by (rewrite length_replicate; lia).
    rewrite length_zip_with_l_eq; rewrite length_zip_with_l_eq; lia. }
  split; [done|].
  - apply Forall_nth with (d := []). intros i Hi.
    assert (Hin : (i < n)%nat) by lia.
    rewrite fg_bias_row by done.
    rewrite !length_put. apply length_replicate.
Qed.

Lemma fg_bias_bias_column (i : nat) :
  (i < n)%nat -> Spec.entry (fg_bias f g) i 0 = 1.
Proof.
  intros Hi. unfold Spec.entry. rewrite fg_bias_row by done.
  rewrite nth_lookup, !put_lookup_other.
  - unfold Np.ones. rewrite lookup_replicate_2 by lia. done.
  - rewrite LayoutFacts.elem_of_f_positions. intros [(j & _ & Hj) | Hr]; lia.
  - rewrite LayoutFacts.elem_of_g_positions. intros [(j & _ & Hj) | Hr]; lia.
Qed.

Lemma fg_bias_f_column (i k p : nat) :
  (i < n)%nat -> f_positions dx dy !! k = Some p ->
  Spec.entry (fg_bias f g) i p = Spec.entry f i k.
Proof.
  intros Hi Hk. unfold Spec.entry. rewrite fg_bias_row by done.
  rewrite !(nth_lookup _ _ 0).
  rewrite put_lookup_other
    by (apply LayoutFacts.positions_disjoint; by eapply list_elem_of_lookup_2).
  rewrite (put_lookup _ _ _ k); try done.
  - apply LayoutFacts.NoDup_f_positions.
  - eapply Forall_impl; [apply DetectorFacts.f_positions_bound|].
    cbn. intros q Hq. unfold Np.ones. by rewrite length_replicate.
  - rewrite DetectorFacts.length_f_positions. by apply (row_of_shape n).
Qed.

Lemma fg_bias_g_column (i k p : nat) :
  (i < n)%nat -> g_positions dx dy !! k = Some p ->
  Spec.entry (fg_bias f g) i p = Spec.entry g i k.
Proof.
  intros Hi Hk. unfold Spec.entry. rewrite fg_bias_row by done.
  rewrite !(nth_lookup _ _ 0).
  rewrite (put_lookup _ _ _ k); try done.
  - apply LayoutFacts.NoDup_g_positions.
  - eapply Forall_impl; [apply DetectorFacts.g_positions_bound|].
    cbn. intros q Hq. rewrite length_put. unfold Np.ones. by rewrite length_replicate.
  - rewrite DetectorFacts.length_g_positions. by apply (row_of_shape n).
Qed.

End Shapes.

End AugmentedFacts.

(** X8: for kernel matrices F (n x dx) and G (n x dy) with n >= 1, the matrix
    handed to the QR factorization has n rows and dx + dy + 1 columns; its
    column 0 is all ones, and column k of F, resp. of G, is found unchanged at
    its position. *)
Theorem X8_augmented_matrix_layout (f g : matrix) (n dx dy : nat) :
  (1 <= n)%nat -> Spec.has_shape n dx f -> Spec.has_shape n dy g ->
  Spec.has_shape n (dx + dy + 1) (KernelBasedHGR.fg_bias f g) /\
  forall i, (i < n)%nat ->
    Spec.entry (KernelBasedHGR.fg_bias f g) i 0 = 1 /\
    (forall k, (k < dx)%nat ->
       exists p, KernelBasedHGR.f_positions dx dy !! k = Some p /\
                 Spec.entry (KernelBasedHGR.fg_bias f g) i p = Spec.entry f i k) /\
    (forall k, (k < dy)%nat ->
       exists p, KernelBasedHGR.g_positions dx dy !! k = Some p /\
                 Spec.entry (KernelBasedHGR.fg_bias f g) i p = Spec.entry g i k).
Proof.
  intros Hn Hf Hg. split; [by apply AugmentedFacts.fg_bias_shape|].
  intros i Hi. split; [by apply (AugmentedFacts.fg_bias_bias_column f g n dx dy)|].
  split; intros k Hk.
  - destruct (lookup_lt_is_Some_2 (KernelBasedHGR.f_positions dx dy) k) as [p Hp].
    { by rewrite DetectorFacts.length_f_positions. }
    exists p. split; [done|].
    by apply (AugmentedFacts.fg_bias_f_column f g n dx dy).
  - destruct (lookup_lt_is_Some_2 (KernelBasedHGR.g_positions dx dy) k) as [p Hp].
    { by rewrite DetectorFacts.length_g_positions. }
    exists p. split; [done|].
    by apply (AugmentedFacts.fg_bias_g_column f g n dx dy).
Qed.

Lemma X8_augmented_matrix_layout_witness :
  Spec.has_shape 4 4 (KernelBasedHGR.fg_bias Examples.F_bits Examples.G_bits).
Proof.
  apply (X8_augmented_matrix_layout Examples.F_bits Examples.G_bits 4 1 2).
  - lia.
  - split; [reflexivity | repeat constructor].
  - split; [reflexivity | repeat constructor].
Defined.

(** ** Too few samples for the detector *)

Lemma length_diag_from (c : nat) (m : matrix) (k : nat) :
  Forall (fun row => length row = c) m ->
  length (Np.diag_from k m) = Nat.min (length m) (c - k).
Proof.
  intros Hrows. revert k. induction Hrows as [|row m Hrow _ IH]; intros k; [done|].
  cbn [Np.diag_from]. destruct (row !! k) as [x|] eqn:Hx.
  - apply lookup_lt_Some in Hx. cbn [length]. rewrite IH. lia.
  - apply lookup_ge_None in Hx. cbn [length]. lia.
Qed.

Lemma length_diag (n c : nat) (m : matrix) :
  Spec.has_shape n c m -> length (Np.diag m) = Nat.min n c.
Proof.
  intros [Hn Hrows]. unfold Np.diag. rewrite (length_diag_from c) by done.
  rewrite Hn. f_equal. lia.
Qed.

(** [v[idxs]] returns exactly when every index is in range; otherwise it
    raises IndexError. *)
Lemma gather_cases (r : vec) (idxs : list nat) :
  (Forall (fun i => (i < length r)%nat) idxs /\ exists rs, Np.gather r idxs = Ok rs) \/
  (Exists (fun i => (length r <= i)%nat) idxs /\ Np.gather r idxs = Raise IndexError).
Proof.
  induction idxs as [|i idxs IH].
  - left. split; [constructor | by exists []].
  - cbn [Np.gather]. destruct (r !! i) as [x|] eqn:Hx.
    + apply lookup_lt_Some in Hx.
      destruct IH as [[Hall [rs ->]] | [Hex ->]].
      * left. split; [by constructor | by exists (x :: rs)].
      * right. split; [by apply Exists_cons_tl | done].
    + apply lookup_ge_None in Hx. right. split; [by apply Exists_cons_hd | done].
Qed.

Module SampleFacts.
Import KernelBasedHGR.

Section Detector.
Variable qr_r : matrix -> matrix.
Variable self : config.
Variables (f g : matrix) (n dx dy : nat).
Hypothesis Hn : (1 <= n)%nat.
Hypothesis Hf : Spec.has_shape n dx f.
Hypothesis Hg : Spec.has_shape n dy g.
Hypothesis Hqr : Spec.has_shape n (dx + dy + 1) (qr_r (fg_bias f g)).

Lemma length_r_diag : length (r_diag qr_r f g) = Nat.min n (dx + dy + 1).
Proof. unfold r_diag. by rewrite length_map, (length_diag n (dx + dy + 1)). Qed.

Lemma detector_enough :
  (dx + dy < n)%nat ->
  exists fi gi, _get_linearly_independent qr_r self f g = Ok (fi, gi).
Proof.
  intros Hlt. apply DetectorFacts.detector_returns.
  rewrite length_r_diag, (ncols_of_shape n dx f), (ncols_of_shape n dy g) by done. lia.
Qed.

Lemma detector_too_few :
  (n <= dx + dy)%nat ->
  _get_linearly_independent qr_r self f g = Raise IndexError.
Proof.
  intros Hle. unfold _get_linearly_independent.
  rewrite (ncols_of_shape n dx f), (ncols_of_shape n dy g) by done.
  pose proof length_r_diag as Hlen.
  assert (Hlast : (dx + dy)%nat ∈ f_positions dx dy ++ g_positions dx dy).
  { rewrite elem_of_app, LayoutFacts.elem_of_f_positions,
      LayoutFacts.elem_of_g_positions.
    destruct (decide (dx < dy)%nat); [right; right; lia|].
    destruct (decide (dy < dx)%nat); [left; right; lia|].
    right. left. exists (dx - 1)%nat. lia. }
  destruct (gather_cases (r_diag qr_r f g) (f_positions dx dy))
    as [[Hallf [rf ->]] | [_ ->]]; [|done].
  cbn [mbind result_bind].
  destruct (gather_cases (r_diag qr_r f g) (g_positions dx dy))
    as [[Hallg [rg ->]] | [_ ->]]; [|done].
  exfalso. rewrite Forall_forall in Hallf, Hallg.
  apply elem_of_app in Hlast as [Hin | Hin];
    [apply Hallf in Hin | apply Hallg in Hin]; lia.
Qed.

End Detector.

End SampleFacts.

Module SolveFacts.
Import KernelBasedHGR.

Section Estimator.
Variable qr_r : matrix -> matrix.
Variable lstsq : matrix -> vec -> vec.
Variable minimize :
  (vec -> R * vec) -> matrix -> vec -> NonlinearConstraint ->
  opt_method -> R -> nat -> vec.
Variable self : config.

Lemma warm_start_returns (a0 : option vec) (m : matrix) (idxs : list nat) (d dx : nat) :
  WarmStart.covers a0 d -> Forall (fun i => (i < d)%nat) idxs ->
  exists x0,
    match a0 with
    | None => Ok (initial_guess self m dx)
    | Some a0 => Np.gather a0 idxs
    end = Ok x0.
Proof.
  intros Hc Hidx. destruct a0 as [v|]; [|eauto].
  apply gather_returns. eapply Forall_impl; [exact Hidx|].
  cbn. intros i Hi. specialize (Hc v eq_refl). lia.
Qed.

Lemma warm_start_length (a0 : option vec) (m : matrix) (idxs : list nat) (x0 : vec) :
  match a0 with
  | None => Ok (initial_guess self m (length idxs))
  | Some a0 => Np.gather a0 idxs
  end = Ok x0 ->
  length x0 = length idxs.
Proof.
  destruct a0 as [a0|].
  - intros H. by apply gather_Ok in H as [? _].
  - intros [= <-]. unfold initial_guess, Np.ones.
    by rewrite length_map, length_replicate.
Qed.

(** With a solver that answers a point of the length of its initial point,
    the higher-order solve returns as soon as the detector does. *)
Lemma higher_order_returns (f g : matrix) (a0 b0 : option vec) (fi gi : list nat) :
  (forall fn h x0 c m t k, length (minimize fn h x0 c m t k) = length x0) ->
  _get_linearly_independent qr_r self f g = Ok (fi, gi) ->
  WarmStart.covers a0 (Np.ncols f) -> WarmStart.covers b0 (Np.ncols g) ->
  exists al be,
    _higher_order_coefficients qr_r minimize self f g a0 b0 = Ok (al, be) /\
    length al = Np.ncols f /\ length be = Np.ncols g.
Proof.
  intros Hshape Hdet Ha Hb.
  destruct (detector_kept _ _ _ _ _ _ Hdet) as [[_ Hfi] [_ Hgi]].
  destruct (warm_start_returns a0 (Np.gather_cols f fi) fi (Np.ncols f)
              (length fi) Ha Hfi) as [x0 Hx0].
  destruct (warm_start_returns b0 (Np.gather_cols g gi) gi (Np.ncols g)
              (length gi) Hb Hgi) as [y0 Hy0].
  rewrite (ScatterFacts.higher_order_call qr_r minimize self f g a0 b0
             fi gi x0 y0 Hdet Hx0 Hy0).
  cbn zeta.
  match goal with
  | |- context [Np.assign _ fi (take _ ?s)] => set (s_x := s)
  end.
  assert (Hls : length s_x = (length fi + length gi)%nat).
  { unfold s_x. rewrite Hshape, length_app.
    by rewrite (warm_start_length _ _ _ _ Hx0), (warm_start_length _ _ _ _ Hy0). }
  rewrite (assign_eq _ fi).
  2:{ rewrite length_take_le by lia. done. }
  2:{ unfold Np.zeros. by rewrite length_replicate. }
  cbn [mbind result_bind]. rewrite (assign_eq _ gi).
  2:{ rewrite length_drop. lia. }
  2:{ unfold Np.zeros. by rewrite length_replicate. }
  cbn [mbind result_bind]. do 2 eexists. split; [reflexivity|].
  rewrite !length_put. unfold Np.zeros. by rewrite !length_replicate.
Qed.

(** [_kbhgr] when neither closed form applies *)
Lemma kbhgr_solver_branch (n : nat) (a b : vec) (degree_a degree_b : nat)
    (a0 b0 : option vec) (f g : matrix) :
  kernel a degree_a = Ok f -> kernel b degree_b = Ok g ->
  ~ (degree_a = 1%nat /\ degree_b = 1%nat) ->
  ~ (degree_a = 1%nat /\ use_lstsq self = true) ->
  ~ (degree_b = 1%nat /\ use_lstsq self = true) ->
  _kbhgr qr_r lstsq minimize self n a b degree_a degree_b a0 b0
  = '(alpha, beta) ← _higher_order_coefficients qr_r minimize self f g a0 b0;
    f_alpha ← Backend.matmul_mv f alpha;
    g_beta ← Backend.matmul_mv g beta;
    let fa := Backend.standardize f_alpha (eps self) in
    let gb := Backend.standardize g_beta (eps self) in
    fa_gb ← Backend.matmul_vv fa gb;
    Ok {| KernelBasedHGR.a := a; KernelBasedHGR.b := b;
          correlation := Backend.abs (fa_gb / Backend.len fa);
          num_call := n; alpha := alpha; beta := beta |}.
Proof.
  intros Hf Hg H1 H2 H3. unfold _kbhgr. rewrite Hf, Hg. cbn [mbind result_bind].
  rewrite !decide_False by done.
  destruct (_higher_order_coefficients qr_r minimize self f g a0 b0) as [[al be]|e];
    [|reflexivity].
  cbn [mbind result_bind].
  destruct (Backend.matmul_mv f al) as [fal|e]; [|reflexivity].
  cbn [mbind result_bind].
  destruct (Backend.matmul_mv g be) as [gbe|e]; reflexivity.
Qed.

End Estimator.

End SolveFacts.

(** X9: when the R factor has the shape of the factorized matrix (n rows,
    dx + dy + 1 columns), the detector returns if the kernel matrices have
    more than dx + dy rows and raises IndexError otherwise: the diagonal of R
    has min(n, dx + dy + 1) entries and the last column is always looked up. *)
Theorem X9_detector_needs_samples
    (qr_r : matrix -> matrix) (self : config) (f g : matrix) (n dx dy : nat) :
  (1 <= n)%nat -> Spec.has_shape n dx f -> Spec.has_shape n dy g ->
  Spec.has_shape n (dx + dy + 1) (qr_r (KernelBasedHGR.fg_bias f g)) ->
  ((dx + dy < n)%nat ->
     exists fi gi, KernelBasedHGR._get_linearly_independent qr_r self f g = Ok (fi, gi)) /\
  ((n <= dx + dy)%nat ->
     KernelBasedHGR._get_linearly_independent qr_r self f g = Raise IndexError).
Proof.
  intros Hn Hf Hg Hqr. split.
  - by apply (SampleFacts.detector_enough qr_r self f g n dx dy).
  - by apply (SampleFacts.detector_too_few qr_r self f g n dx dy).
Qed.

Lemma X9_detector_needs_samples_witness :
  exists fi gi,
    KernelBasedHGR._get_linearly_independent Examples.qr_bits default_config
      Examples.F_bits Examples.G_bits = Ok (fi, gi).
Proof.
  apply (X9_detector_needs_samples Examples.qr_bits default_config
           Examples.F_bits Examples.G_bits 4 1 2).
  - lia.
  - split; [reflexivity | repeat constructor].
  - split; [reflexivity | repeat constructor].
  - split; [reflexivity | repeat constructor].
  - lia.
Defined.

(** X10: when neither closed form applies and the QR routine keeps the shape
    of its argument, [_kbhgr] on non-empty vectors of one length n raises
    IndexError if n <= degree_a + degree_b; otherwise, with warm starts (if
    any) as long as the degrees and a solver that answers a point of the
    length of its initial point, it returns a result. *)
Theorem X10_solver_branch_needs_samples
    (qr_r : matrix -> matrix) (lstsq : matrix -> vec -> vec)
    (minimize : (vec -> R * vec) -> matrix -> vec -> NonlinearConstraint ->
                opt_method -> R -> nat -> vec)
    (self : config) (n : nat) (a b : vec) (degree_a degree_b : nat)
    (a0 b0 : option vec) :
  (forall M rows cols, Spec.has_shape rows cols M -> Spec.has_shape rows cols (qr_r M)) ->
  a <> [] -> length a = length b ->
  (1 <= degree_a)%nat -> (1 <= degree_b)%nat ->
  ~ (degree_a = 1%nat /\ degree_b = 1%nat) ->
  ~ (degree_a = 1%nat /\ use_lstsq self = true) ->
  ~ (degree_b = 1%nat /\ use_lstsq self = true) ->
  ((length a <= degree_a + degree_b)%nat ->
     KernelBasedHGR._kbhgr qr_r lstsq minimize self n a b degree_a degree_b a0 b0
     = Raise IndexError) /\
  ((degree_a + degree_b < length a)%nat ->
   WarmStart.covers a0 degree_a -> WarmStart.covers b0 degree_b ->
   (forall fn h x0 c m t k, length (minimize fn h x0 c m t k) = length x0) ->
     exists r,
       KernelBasedHGR._kbhgr qr_r lstsq minimize self n a b degree_a degree_b a0 b0
       = Ok r).
Proof.
  intros Hqr Ha Hlen Hda Hdb H1 H2 H3.
  destruct (kernel_returns a degree_a Hda) as [f Hf].
  destruct (kernel_returns b degree_b Hdb) as [g Hg].
  rewrite (SolveFacts.kbhgr_solver_branch qr_r lstsq minimize self n a b
             degree_a degree_b a0 b0 f g) by done.
  pose proof (KernelFacts.kernel_shape _ _ _ Hf) as Hsf.
  pose proof (KernelFacts.kernel_shape _ _ _ Hg) as Hsg.
  rewrite <- Hlen in Hsg.
  assert (Hn : (1 <= length a)%nat) by (destruct a; [done | cbn; lia]).
  pose proof (AugmentedFacts.fg_bias_shape f g _ _ _ Hn Hsf Hsg) as HsA.
  apply Hqr in HsA.
  pose proof (SampleFacts.detector_enough qr_r self f g (length a)
                degree_a degree_b Hn Hsf Hsg HsA) as Hok.
  pose proof (SampleFacts.detector_too_few qr_r self f g (length a)
                degree_a degree_b Hn Hsf Hsg HsA) as Hbad.
  split.
  - intros Hle. unfold KernelBasedHGR._higher_order_coefficients.
    by rewrite (Hbad Hle).
  - intros Hlt Hca Hcb Hshape. destruct (Hok Hlt) as (fi & gi & Hdet).
    pose proof (ncols_of_shape (length a) degree_a f Hn Hsf) as Hcf.
    pose proof (ncols_of_shape (length a) degree_b g Hn Hsg) as Hcg.
    destruct (SolveFacts.higher_order_returns qr_r minimize self f g a0 b0 fi gi
                Hshape Hdet) as (al & be & -> & Hal & Hbe).
    + by rewrite Hcf.
    + by rewrite Hcg.
    + cbn [mbind result_bind].
      rewrite (matmul_mv_eq f) by (eapply rows_match; [exact Hsf | congruence]).
      cbn [mbind result_bind].
      rewrite (matmul_mv_eq g) by (eapply rows_match; [exact Hsg | congruence]).
      cbn [mbind result_bind].
      rewrite matmul_vv_eq.
      2:{ rewrite !length_standardize, !length_matvec.
          destruct Hsf as [-> _]. by destruct Hsg as [-> _]. }
      cbn [mbind result_bind]. eauto.
Qed.

Lemma X10_solver_branch_needs_samples_witness :
  KernelBasedHGR._kbhgr qr_same_shape Examples.lstsq_none Examples.minimize_x0
    default_config 0 [0; 2] [1; 3] 2 2 None None = Raise IndexError /\
  exists r,
    KernelBasedHGR._kbhgr qr_same_shape Examples.lstsq_none Examples.minimize_x0
      Examples.no_lstsq 0 Examples.a_bits Examples.b_bits 1 2 None None = Ok r.
Proof.
  split.
  - apply (X10_solver_branch_needs_samples qr_same_shape Examples.lstsq_none
             Examples.minimize_x0 default_config 0 [0; 2] [1; 3] 2 2 None None).
    + intros M rows cols HM. exact HM.
    + discriminate.
    + reflexivity.
    + lia.
    + lia.
    + intros [[=] _].
    + intros [[=] _].
    + intros [[=] _].
    + cbn. lia.
  - apply (X10_solver_branch_needs_samples qr_same_shape Examples.lstsq_none
             Examples.minimize_x0 Examples.no_lstsq 0 Examples.a_bits
             Examples.b_bits 1 2 None None).
    + intros M rows cols HM. exact HM.
    + discriminate.
    + reflexivity.
    + lia.
    + lia.
    + intros [_ [=]].
    + intros [_ [=]].
    + intros [[=] _].
    + cbn. lia.
    + intros v [=].
    + intros v [=].
    + intros; reflexivity.
Defined.

(** ** More on what the detector returns *)

Lemma filter_seq_sorted (P : nat -> Prop) `{!forall i, Decision (P i)} (s n : nat) :
  StronglySorted lt (filter P (seq s n)).
Proof.
  revert s. induction n as [|n IH]; intros s; [constructor|].
  cbn [seq]. rewrite filter_cons. case_decide; [|apply IH].
  constructor; [apply IH|]. apply Forall_forall. intros i Hi.
  apply list_elem_of_filter in Hi as [_ Hi]. apply elem_of_seq in Hi. lia.
Qed.

Lemma filter_seq_all (P : nat -> Prop) `{!forall i, Decision (P i)} (s n : nat) :
  (forall i, P i) -> filter P (seq s n) = seq s n.
Proof.
  intros HP. revert s. induction n as [|n IH]; intros s; [done|].
  cbn [seq]. rewrite filter_cons, decide_True by done. by rewrite IH.
Qed.

Lemma select_none (xs : list nat) (mask : list bool) :
  Forall (fun b => b = false) mask -> Np.select xs mask = [].
Proof.
  intros Hm. revert xs. induction Hm as [|b mask -> _ IH]; intros [|x xs]; cbn; auto.
Qed.

Lemma dropped_nothing (delta : R) (dx : nat) (rs : vec) :
  Forall (fun x => delta < x) rs -> KernelBasedHGR.dropped delta dx rs = [].
Proof.
  intros Hrs. unfold KernelBasedHGR.dropped. rewrite select_none; [done|].
  induction Hrs as [|x rs Hx _ IH]; cbn [map]; constructor; [|done].
  apply bool_decide_eq_false. lra.
Qed.

Lemma gather_abs_nonneg (v : vec) (idxs : list nat) (rs : vec) :
  Np.gather (map Rabs v) idxs = Ok rs -> Forall (fun x => 0 <= x) rs.
Proof.
  intros Hg. apply gather_Ok in Hg as [Hlen Hget].
  apply Forall_lookup. intros k x Hx.
  destruct (lookup_lt_is_Some_2 idxs k) as [i Hi].
  { rewrite <- Hlen. by apply lookup_lt_Some in Hx. }
  rewrite (Hget _ _ Hi), lookup_map in Hx.
  destruct (v !! i) as [y|]; [|discriminate]. injection Hx as <-. apply Rabs_pos.
Qed.

(** X11: the two index lists the detector returns are strictly increasing
    (so without repetition) and within the column range of their matrix. *)
Theorem X11_detector_lists_increasing
    (qr_r : matrix -> matrix) (self : config) (f g : matrix) (fi gi : list nat) :
  KernelBasedHGR._get_linearly_independent qr_r self f g = Ok (fi, gi) ->
  (StronglySorted lt fi /\ Forall (fun i => (i < Np.ncols f)%nat) fi) /\
  (StronglySorted lt gi /\ Forall (fun i => (i < Np.ncols g)%nat) gi).
Proof.
  intros Hdet. destruct (detector_kept _ _ _ _ _ _ Hdet) as [[_ Hf] [_ Hg]].
  unfold KernelBasedHGR._get_linearly_independent in Hdet.
  apply bind_Ok in Hdet as (rf & _ & Hdet).
  apply bind_Ok in Hdet as (rg & _ & [= <- <-]).
  split; (split; [apply filter_seq_sorted | done]).
Qed.

Lemma X11_detector_lists_increasing_witness :
  (StronglySorted lt [0%nat] /\
   Forall (fun i => (i < Np.ncols Examples.F_bits)%nat) [0%nat]) /\
  (StronglySorted lt [0%nat; 1%nat] /\
   Forall (fun i => (i < Np.ncols Examples.G_bits)%nat) [0%nat; 1%nat]).
Proof.
  apply (X11_detector_lists_increasing Examples.qr_bits default_config
           Examples.F_bits Examples.G_bits).
  apply DetectorExamples.detector_bits.
Defined.

(** X12: with a negative [delta] no column can be flagged (the diagonal is
    taken in absolute value), so whenever the detector returns it retains
    every column of both matrices. *)
Theorem X12_negative_delta_keeps_all
    (qr_r : matrix -> matrix) (self : config) (f g : matrix) (fi gi : list nat) :
  delta self < 0 ->
  KernelBasedHGR._get_linearly_independent qr_r self f g = Ok (fi, gi) ->
  fi = seq 0 (Np.ncols f) /\ gi = seq 0 (Np.ncols g).
Proof.
  intros Hd Hdet. unfold KernelBasedHGR._get_linearly_independent in Hdet.
  apply bind_Ok in Hdet as (rf & Hrf & Hdet).
  apply bind_Ok in Hdet as (rg & Hrg & [= <- <-]).
  apply gather_abs_nonneg in Hrf, Hrg.
  rewrite !dropped_nothing.
  - unfold KernelBasedHGR.kept. split; apply filter_seq_all; intros i; apply not_elem_of_nil.
  - eapply Forall_impl; [exact Hrg|]. cbn. intros; lra.
  - eapply Forall_impl; [exact Hrf|]. cbn. intros; lra.
Qed.

Lemma X12_negative_delta_keeps_all_witness :
  exists fi gi,
    KernelBasedHGR._get_linearly_independent Examples.qr_bits negative_delta
      Examples.F_bits Examples.G_bits = Ok (fi, gi) /\
    fi = seq 0 1 /\ gi = seq 0 2.
Proof.
  destruct (DetectorFacts.detector_returns Examples.qr_bits negative_delta
              Examples.F_bits Examples.G_bits) as (fi & gi & Hdet).
  { rewrite DetectorExamples.r_diag_bits. cbn. lia. }
  exists fi, gi. split; [exact Hdet|].
  apply (X12_negative_delta_keeps_all Examples.qr_bits negative_delta
           Examples.F_bits Examples.G_bits fi gi); [cbn; lra | exact Hdet].
Defined.

(** ** The objective as a quadratic form *)

Lemma sigma_plus (n : nat) (h h' : nat -> R) :
  Spec.sigma n (fun i => h i + h' i) = Spec.sigma n h + Spec.sigma n h'.
Proof. induction n as [|n IH]; cbn; [lra|]. rewrite IH. lra. Qed.

Lemma sigma_app (m k : nat) (h : nat -> R) :
  Spec.sigma (m + k) h = Spec.sigma m h + Spec.sigma k (fun j => h (m + j)%nat).
Proof.
  induction k as [|k IH]; [rewrite Nat.add_0_r; cbn; lra|].
  rewrite Nat.add_succ_r. cbn. rewrite IH. lra.
Qed.

Lemma sigma_nonneg (n : nat) (h : nat -> R) :
  (forall i, 0 <= h i) -> 0 <= Spec.sigma n h.
Proof. intros Hh. induction n as [|n IH]; cbn; [lra|]. specialize (Hh n). lra. Qed.

Lemma sigma_square_sum (n : nat) (r e : nat -> R) :
  Spec.sigma n (fun i => (r i + e i) ^ 2)
  = Spec.sigma n (fun i => r i ^ 2) + 2 * Spec.sigma n (fun i => r i * e i)
    + Spec.sigma n (fun i => e i ^ 2).
Proof. induction n as [|n IH]; cbn; [lra|]. cbn in IH. rewrite IH. ring. Qed.

(** Exchanging the sum over rows and the sum over columns *)
Lemma sigma_gradient_dot (n d : nat) (B : nat -> nat -> R) (r h : nat -> R) :
  Spec.sigma d (fun j => 2 * Spec.sigma n (fun i => B i j * r i) * h j)
  = 2 * Spec.sigma n (fun i => r i * Spec.sigma d (fun j => B i j * h j)).
Proof.
  induction d as [|d IH].
  - cbn. rewrite (sigma_ext _ _ (fun i => 0 * r i)) by (intros; ring).
    rewrite sigma_scale. ring.
  - cbn [Spec.sigma]. rewrite IH.
    rewrite (sigma_ext n (fun i => r i * (Spec.sigma d (fun j => B i j * h j) + B i d * h d))
               (fun i => r i * Spec.sigma d (fun j => B i j * h j)
                         + h d * (B i d * r i))) by (intros; ring).
    rewrite sigma_plus, sigma_scale. ring.
Qed.

Lemma sigma_hessian_form (n d : nat) (B : nat -> nat -> R) (h : nat -> R) :
  Spec.sigma d (fun j => h j * Spec.sigma d
                  (fun k => 2 * Spec.sigma n (fun i => B i j * B i k) * h k))
  = 2 * Spec.sigma n (fun i => Spec.sigma d (fun j => B i j * h j) ^ 2).
Proof.
  rewrite (sigma_ext d _
             (fun j => 2 * Spec.sigma n
                             (fun i => B i j * Spec.sigma d (fun k => B i k * h k))
                       * h j)).
  - rewrite sigma_gradient_dot. f_equal. apply sigma_ext. intros i _. ring.
  - intros j _.
    rewrite (sigma_ext d _ (fun k => 2 * Spec.sigma n (fun i => B i k * B i j) * h k)).
    + rewrite sigma_gradient_dot. ring.
    + intros k _. f_equal. f_equal. apply sigma_ext. intros i _. ring.
Qed.

Lemma nth_vadd (u w : vec) (j : nat) :
  length u = length w -> nth j (Np.vadd u w) 0 = nth j u 0 + nth j w 0.
Proof.
  intros Hlen. destruct (decide (j < length u)%nat) as [Hj|Hj].
  - unfold Np.vadd. by rewrite (nth_zip_with _ _ _ _ 0 0 0) by lia.
  - unfold Np.vadd. rewrite !nth_overflow; rewrite ?length_zip_with_l_eq; try lia. lra.
Qed.

Module QuadraticFacts.
Import KernelBasedHGR.

Section Shapes.
Variable self : config.
Variables (F G : matrix) (n dx dy : nat).
Hypothesis HF : Spec.has_shape n dx F.
Hypothesis HG : Spec.has_shape n dy G.

(** The residual is linear in the point. *)
Lemma residual_add (alpha beta ha hb : vec) (i : nat) :
  length alpha = length ha -> length beta = length hb ->
  Spec.residual F G (Np.vadd alpha ha) (Np.vadd beta hb) i
  = Spec.residual F G alpha beta i + Spec.residual F G ha hb i.
Proof.
  intros Ha Hb. unfold Spec.residual.
  replace (length (Np.vadd alpha ha)) with (length alpha)
    by (unfold Np.vadd; by rewrite length_zip_with_l_eq).
  replace (length (Np.vadd beta hb)) with (length beta)
    by (unfold Np.vadd; by rewrite length_zip_with_l_eq).
  rewrite <- Ha, <- Hb.
  rewrite (sigma_ext (length alpha) (fun j => Spec.entry F i j * nth j (Np.vadd alpha ha) 0)
             (fun j => Spec.entry F i j * nth j alpha 0 + Spec.entry F i j * nth j ha 0))
    by (intros; rewrite nth_vadd by done; ring).
  rewrite (sigma_ext (length beta) (fun j => Spec.entry G i j * nth j (Np.vadd beta hb) 0)
             (fun j => Spec.entry G i j * nth j beta 0 + Spec.entry G i j * nth j hb 0))
    by (intros; rewrite nth_vadd by done; ring).
  rewrite !sigma_plus. ring.
Qed.

(** The residual of a point is the block matrix [F -G] applied to it. *)
Lemma residual_block (ha hb : vec) (i : nat) :
  length ha = dx -> length hb = dy ->
  Spec.residual F G ha hb i
  = Spec.sigma (dx + dy)
      (fun j => Spec.block_entry F G dx i j * nth j (ha ++ hb) 0).
Proof.
  intros Ha Hb. unfold Spec.residual. rewrite sigma_app, Ha, Hb.
  rewrite (sigma_ext dx (fun j => Spec.block_entry F G dx i j * nth j (ha ++ hb) 0)
             (fun j => Spec.entry F i j * nth j ha 0)).
  2:{ intros j Hj. unfold Spec.block_entry. rewrite decide_True by done.
      by rewrite app_nth1 by lia. }
  rewrite (sigma_ext dy
             (fun j => Spec.block_entry F G dx i (dx + j) * nth (dx + j) (ha ++ hb) 0)
             (fun j => -1 * (Spec.entry G i j * nth j hb 0))).
  2:{ intros j Hj. unfold Spec.block_entry. rewrite decide_False by lia.
      rewrite app_nth2 by lia. rewrite Ha.
      replace (dx + j - dx)%nat with j by lia. ring. }
  rewrite sigma_scale. ring.
Qed.

Lemma dot_seq_r (gam : nat -> R) (h : vec) (d : nat) :
  length h = d ->
  Np.dot (map gam (seq 0 d)) h = Spec.sigma d (fun j => gam j * nth j h 0).
Proof.
  intros Hh. rewrite (list_as_map_seq h 0) at 1. rewrite Hh. apply dot_map_seq.
Qed.

Lemma dot_seq_l (gam : nat -> R) (h : vec) (d : nat) :
  length h = d ->
  Np.dot h (map gam (seq 0 d)) = Spec.sigma d (fun j => nth j h 0 * gam j).
Proof.
  intros Hh. rewrite (list_as_map_seq h 0) at 1. rewrite Hh. apply dot_map_seq.
Qed.

(** The second-order expansion of the objective without lasso *)
Lemma objective_expansion (alpha beta ha hb : vec) :
  lasso self = 0 ->
  length alpha = dx -> length beta = dy -> length ha = dx -> length hb = dy ->
  let d := (dx + dy)%nat in
  let x := alpha ++ beta in
  let h := ha ++ hb in
  fst (_fun self F G dx d (Np.vadd x h))
  = fst (_fun self F G dx d x) + Np.dot (snd (_fun self F G dx d x)) h
    + 1 / 2 * Np.dot h (Np.matvec (fun_hess F G d) h).
Proof.
  intros Hl Ha Hb Hha Hhb d x h. unfold d, x, h.
  assert (Hlh : length (ha ++ hb) = (dx + dy)%nat) by (rewrite length_app; lia).
  unfold Np.vadd at 1. rewrite zip_with_app by lia.
  fold (Np.vadd alpha ha) (Np.vadd beta hb).
  rewrite (SolverFacts.objective_value self F G n dx dy HF HG)
    by (unfold Np.vadd; rewrite length_zip_with_l_eq; lia).
  rewrite (SolverFacts.objective_value self F G n dx dy HF HG) by done.
  rewrite (SolverFacts.objective_gradient self F G n dx dy HF HG) by done.
  rewrite (SolverFacts.hessian_entries F G n dx dy HF HG).
  unfold Spec.objective. rewrite Hl, !Rmult_0_l, !Rplus_0_r.
  destruct HF as [HnF _]. rewrite HnF.
  rewrite (sigma_ext n (fun i => Spec.residual F G (Np.vadd alpha ha) (Np.vadd beta hb) i ^ 2)
             (fun i => (Spec.residual F G alpha beta i + Spec.residual F G ha hb i) ^ 2))
    by (intros; rewrite residual_add by lia; done).
  rewrite sigma_square_sum.
  rewrite dot_seq_r by done.
  unfold Np.matvec. rewrite map_map.
  rewrite dot_seq_l by done.
  rewrite (sigma_ext (dx + dy)
             (fun j => Spec.gradient 0 F G alpha beta j * nth j (ha ++ hb) 0)
             (fun j => 2 * Spec.sigma n
                             (fun i => Spec.block_entry F G dx i j
                                       * Spec.residual F G alpha beta i)
                       * nth j (ha ++ hb) 0)).
  2:{ intros j _. unfold Spec.gradient. rewrite HnF, Ha. ring. }
  rewrite sigma_gradient_dot.
  rewrite (sigma_ext (dx + dy)
             (fun j => nth j (ha ++ hb) 0
                       * Np.dot (map (Spec.hessian F G dx j) (seq 0 (dx + dy))) (ha ++ hb))
             (fun j => nth j (ha ++ hb) 0
                       * Spec.sigma (dx + dy)
                           (fun k => 2 * Spec.sigma n
                                           (fun i => Spec.block_entry F G dx i j
                                                     * Spec.block_entry F G dx i k)
                                     * nth k (ha ++ hb) 0))).
  2:{ intros j _. rewrite dot_seq_r by done. f_equal.
      apply sigma_ext. intros k _. unfold Spec.hessian. by rewrite HnF. }
  rewrite sigma_hessian_form.
  rewrite (sigma_ext n (fun i => Spec.residual F G alpha beta i
                                 * Spec.sigma (dx + dy)
                                     (fun j => Spec.block_entry F G dx i j
                                               * nth j (ha ++ hb) 0))
             (fun i => Spec.residual F G alpha beta i * Spec.residual F G ha hb i))
    by (intros; by rewrite <- residual_block).
  rewrite (sigma_ext n (fun i => Spec.sigma (dx + dy)
                                   (fun j => Spec.block_entry F G dx i j
                                             * nth j (ha ++ hb) 0) ^ 2)
             (fun i => Spec.residual F G ha hb i ^ 2))
    by (intros; by rewrite <- residual_block).
  lra.
Qed.

(** The quadratic form of [fun_hess] is twice a sum of squares. *)
Lemma hessian_form (ha hb : vec) :
  length ha = dx -> length hb = dy ->
  let h := ha ++ hb in
  Np.dot h (Np.matvec (fun_hess F G (dx + dy)) h)
  = 2 * Spec.sigma n (fun i => Spec.residual F G ha hb i ^ 2).
Proof.
  intros Hha Hhb h. unfold h.
  assert (Hlh : length (ha ++ hb) = (dx + dy)%nat) by (rewrite length_app; lia).
  rewrite (SolverFacts.hessian_entries F G n dx dy HF HG).
  unfold Np.matvec. rewrite map_map. rewrite dot_seq_l by done.
  destruct HF as [HnF _].
  rewrite (sigma_ext (dx + dy)
             (fun j => nth j (ha ++ hb) 0
                       * Np.dot (map (Spec.hessian F G dx j) (seq 0 (dx + dy))) (ha ++ hb))
             (fun j => nth j (ha ++ hb) 0
                       * Spec.sigma (dx + dy)
                           (fun k => 2 * Spec.sigma n
                                           (fun i => Spec.block_entry F G dx i j
                                                     * Spec.block_entry F G dx i k)
                                     * nth k (ha ++ hb) 0))).
  2:{ intros j _. rewrite dot_seq_r by done. f_equal.
      apply sigma_ext. intros k _. unfold Spec.hessian. by rewrite HnF. }
  rewrite sigma_hessian_form. f_equal.
  apply sigma_ext. intros i _. by rewrite <- residual_block.
Qed.

End Shapes.

End QuadraticFacts.

(** X13: without lasso the objective is an exact quadratic: at every point
    [x = alpha ++ beta] and for every step [h], the value at [x + h] is the
    value at [x] plus the supplied gradient times [h] plus half the quadratic
    form of the supplied Hessian.  So the gradient and the Hessian handed to
    the solver are the first and second derivatives of the objective. *)
Theorem X13_objective_second_order_expansion
    (self : config) (F G : matrix) (n dx dy : nat) (alpha beta ha hb : vec) :
  Spec.has_shape n dx F -> Spec.has_shape n dy G ->
  lasso self = 0 ->
  length alpha = dx -> length beta = dy -> length ha = dx -> length hb = dy ->
  let d := (dx + dy)%nat in
  let x := alpha ++ beta in
  let h := ha ++ hb in
  fst (KernelBasedHGR._fun self F G dx d (Np.vadd x h))
  = fst (KernelBasedHGR._fun self F G dx d x)
    + Np.dot (snd (KernelBasedHGR._fun self F G dx d x)) h
    + 1 / 2 * Np.dot h (Np.matvec (KernelBasedHGR.fun_hess F G d) h).
Proof.
  intros HF HG Hl Ha Hb Hha Hhb.
  by apply (QuadraticFacts.objective_expansion self F G n dx dy).
Qed.

Lemma X13_objective_second_order_expansion_witness :
  fst (KernelBasedHGR._fun default_config Examples.F_bits Examples.G_bits 1 3
         (Np.vadd ([1] ++ [1; 1]) ([2] ++ [0; 1])))
  = fst (KernelBasedHGR._fun default_config Examples.F_bits Examples.G_bits 1 3
           ([1] ++ [1; 1]))
    + Np.dot (snd (KernelBasedHGR._fun default_config Examples.F_bits Examples.G_bits
                     1 3 ([1] ++ [1; 1]))) ([2] ++ [0; 1])
    + 1 / 2 * Np.dot ([2] ++ [0; 1])
                (Np.matvec (KernelBasedHGR.fun_hess Examples.F_bits Examples.G_bits 3)
                           ([2] ++ [0; 1])).
Proof.
  apply (X13_objective_second_order_expansion default_config
           Examples.F_bits Examples.G_bits 4 1 2 [1] [1; 1] [2] [0; 1]).
  - split; [reflexivity | repeat constructor].
  - split; [reflexivity | repeat constructor].
  - reflexivity.
  - reflexivity.
  - reflexivity.
  - reflexivity.
  - reflexivity.
Defined.

(** X14: the quadratic form of the supplied Hessian is never negative, so
    without lasso the objective lies above each of its tangents: the problem
    handed to the solver is convex. *)
Theorem X14_hessian_positive_semidefinite
    (self : config) (F G : matrix) (n dx dy : nat) (alpha beta ha hb : vec) :
  Spec.has_shape n dx F -> Spec.has_shape n dy G ->
  length alpha = dx -> length beta = dy -> length ha = dx -> length hb = dy ->
  let d := (dx + dy)%nat in
  let x := alpha ++ beta in
  let h := ha ++ hb in
  0 <= Np.dot h (Np.matvec (KernelBasedHGR.fun_hess F G d) h) /\
  (lasso self = 0 ->
   fst (KernelBasedHGR._fun self F G dx d x)
   + Np.dot (snd (KernelBasedHGR._fun self F G dx d x)) h
   <= fst (KernelBasedHGR._fun self F G dx d (Np.vadd x h))).
Proof.
  intros HF HG Ha Hb Hha Hhb d x h.
  assert (Hpsd : 0 <= Np.dot h (Np.matvec (KernelBasedHGR.fun_hess F G d) h)).
  { unfold h, d. rewrite (QuadraticFacts.hessian_form F G n dx dy HF HG) by done.
    apply Rmult_le_pos; [lra|]. apply sigma_nonneg. intros i. apply pow2_ge_0. }
  split; [exact Hpsd|]. intros Hl. unfold d, x, h in *.
  rewrite (QuadraticFacts.objective_expansion self F G n dx dy HF HG alpha beta ha hb)
    by done.
  lra.
Qed.

Lemma X14_hessian_positive_semidefinite_witness :
  0 <= Np.dot ([2] ++ [0; 1])
         (Np.matvec (KernelBasedHGR.fun_hess Examples.F_bits Examples.G_bits 3)
                    ([2] ++ [0; 1])).
Proof.
  apply (X14_hessian_positive_semidefinite default_config
           Examples.F_bits Examples.G_bits 4 1 2 [1] [1; 1] [2] [0; 1]).
  - split; [reflexivity | repeat constructor].
  - split; [reflexivity | repeat constructor].
  - reflexivity.
  - reflexivity.
  - reflexivity.
  - reflexivity.
Defined.

(** ** The variance constraint *)

Lemma dot_zeros_l (k : nat) (u : vec) : Np.dot (replicate k 0) u = 0.
Proof.
  revert u. induction k as [|k IH]; intros [|x u]; try reflexivity.
  change (replicate (S k) 0) with (0 :: replicate k 0).
  rewrite dot_cons, IH. lra.
Qed.

Lemma dot_zeros_r (k : nat) (u : vec) : Np.dot u (replicate k 0) = 0.
Proof. rewrite dot_comm. apply dot_zeros_l. Qed.

Lemma sum_app (u w : vec) : Np.sum (u ++ w) = Np.sum u + Np.sum w.
Proof.
  induction u as [|x u IH]; [change (Np.sum w = 0 + Np.sum w); lra|].
  change (Np.sum ((x :: u) ++ w)) with (x + Np.sum (u ++ w)).
  change (Np.sum (x :: u)) with (x + Np.sum u). rewrite IH. lra.
Qed.

Lemma dot_app (u1 u2 w1 w2 : vec) :
  length u1 = length w1 ->
  Np.dot (u1 ++ u2) (w1 ++ w2) = Np.dot u1 w1 + Np.dot u2 w2.
Proof. intros Hlen. unfold Np.dot. by rewrite zip_with_app, sum_app. Qed.

Module ConstraintFacts.
Import KernelBasedHGR.

Section Shapes.
Variables (G : matrix) (n dx dy : nat).
Hypothesis Hn : (1 <= n)%nat.
Hypothesis HG : Spec.has_shape n dy G.
Hypothesis Hc : Columns.centered n dy G.

#[local] Abbreviation Gv v := (fun i => Spec.sigma dy (fun j => Spec.entry G i j * nth j v 0)).

Lemma column_of_G (j : nat) :
  map (fun row => nth j row 0) G = map (fun i => Spec.entry G i j) (seq 0 n).
Proof. destruct HG as [HnG _]. by rewrite (map_nth_seq _ G []), HnG. Qed.

(** [2 * g_slim.T @ g_slim] *)
Lemma gram_entries :
  Np.matmul dy (Np.mscale 2 (Np.transpose dy G)) G
  = map (fun j => map (fun k => 2 * Spec.sigma n
                                 (fun i => Spec.entry G i j * Spec.entry G i k))
                      (seq 0 dy))
        (seq 0 dy).
Proof.
  assert (Ht : Np.transpose dy G
               = map (fun j => map (fun i => Spec.entry G i j) (seq 0 n)) (seq 0 dy)).
  { unfold Np.transpose. apply map_ext. intros j. apply column_of_G. }
  assert (Hs : Np.mscale 2 (Np.transpose dy G)
               = map (fun j => map (fun i => 2 * Spec.entry G i j) (seq 0 n)) (seq 0 dy)).
  { rewrite Ht. unfold Np.mscale, Np.scale. rewrite map_map.
    apply map_ext. intros j. by rewrite map_map. }
  unfold Np.matmul. rewrite Hs, Ht, map_map.
  apply map_ext. intros j. rewrite map_map. apply map_ext. intros k.
  rewrite dot_map_seq, <- sigma_scale.
  apply sigma_ext. intros i _. ring.
Qed.

Lemma gram_times (v : vec) (j : nat) :
  Spec.sigma dy (fun k => 2 * Spec.sigma n
                            (fun i => Spec.entry G i j * Spec.entry G i k)
                          * nth k v 0)
  = 2 * Spec.sigma n (fun i => Spec.entry G i j * Gv v i).
Proof.
  rewrite (sigma_ext dy _
             (fun k => 2 * Spec.sigma n
                             (fun i => Spec.entry G i k * Spec.entry G i j)
                       * nth k v 0)).
  - by rewrite sigma_gradient_dot.
  - intros k _. f_equal. f_equal. apply sigma_ext. intros i _. ring.
Qed.

(** The projection [G.v] sums to zero when the columns of G are centered. *)
Lemma projection_sum_zero (v : vec) : Spec.sigma n (Gv v) = 0.
Proof.
  pose proof (sigma_gradient_dot n dy (Spec.entry G) (fun _ => 1)
                (fun j => nth j v 0)) as Hswap.
  cbn beta in Hswap.
  assert (Hl : Spec.sigma dy
                 (fun j => 2 * Spec.sigma n (fun i => Spec.entry G i j * 1) * nth j v 0)
               = 0).
  { rewrite (sigma_ext dy _ (fun _ => 0 * 0)).
    - rewrite sigma_scale. ring.
    - intros j Hj.
      rewrite (sigma_ext n _ (fun i => Spec.entry G i j)) by (intros; ring).
      rewrite (Hc j Hj). ring. }
  rewrite Hl in Hswap.
  assert (Hr : Spec.sigma n (fun i => 1 * Gv v i) = Spec.sigma n (Gv v))
    by (apply sigma_ext; intros; ring).
  rewrite Hr in Hswap. lra.
Qed.

Lemma constraint_mean_square (alpha beta : vec) :
  length alpha = dx -> length beta = dy ->
  c_fun (constraint G dx dy n) (alpha ++ beta)
  = Spec.sigma n (fun i => Gv beta i ^ 2) / INR n.
Proof.
  intros Ha Hb. cbn [constraint c_fun].
  assert (Hd : drop dx (alpha ++ beta) = beta)
    by (rewrite <- Ha; apply drop_app_length).
  rewrite Hd, (SolverFacts.matvec_product n G dy) by done.
  unfold Spec.product. rewrite Hb.
  assert (Hmean : Np.mean (map (Gv beta) (seq 0 n)) = 0).
  { unfold Np.mean. rewrite sum_map_seq.
    rewrite (sigma_ext n _ (Gv beta)) by done.
    rewrite projection_sum_zero. unfold Rdiv. ring. }
  unfold Np.var. rewrite Hmean. unfold Np.mean.
  rewrite !length_map, length_seq, map_map, sum_map_seq. f_equal.
  apply sigma_ext. intros i _. cbn [Nat.add]. ring.
Qed.

Lemma constraint_jac_dot (alpha beta ha hb : vec) :
  length alpha = dx -> length beta = dy -> length ha = dx -> length hb = dy ->
  Np.dot (c_jac (constraint G dx dy n) (alpha ++ beta)) (ha ++ hb)
  = 2 * Spec.sigma n (fun i => Gv beta i * Gv hb i) / INR n.
Proof.
  intros Ha Hb Hha Hhb. cbn [constraint c_jac].
  assert (Hd : drop dx (alpha ++ beta) = beta)
    by (rewrite <- Ha; apply drop_app_length).
  rewrite Hd, dot_app by (unfold Np.zeros; rewrite length_replicate; lia).
  unfold Np.zeros. rewrite dot_zeros_l, Rplus_0_l.
  rewrite gram_entries. unfold Np.matvec. rewrite !map_map.
  rewrite QuadraticFacts.dot_seq_r by done.
  rewrite (sigma_ext dy _
             (fun j => / INR n * (2 * Spec.sigma n (fun i => Spec.entry G i j * Gv beta i)
                                  * nth j hb 0))).
  2:{ intros j _. rewrite QuadraticFacts.dot_seq_r by done.
      rewrite gram_times. unfold Rdiv. ring. }
  rewrite sigma_scale, sigma_gradient_dot. unfold Rdiv. ring.
Qed.

Lemma constraint_hess_form (ha hb : vec) :
  length ha = dx -> length hb = dy ->
  Np.dot (ha ++ hb) (Np.matvec (c_hess (constraint G dx dy n)) (ha ++ hb))
  = 2 * Spec.sigma n (fun i => Gv hb i ^ 2) / INR n.
Proof.
  intros Hha Hhb. cbn [constraint c_hess]. unfold cst_hess, gram_g, Np.matvec.
  rewrite gram_entries, map_app, map_replicate, !map_map.
  rewrite dot_app by (rewrite length_replicate; lia).
  unfold Np.zeros at 1. rewrite dot_zeros_l, dot_zeros_r, Rplus_0_l.
  rewrite QuadraticFacts.dot_seq_l by done.
  rewrite (sigma_ext dy _
             (fun j => / INR n
                       * (nth j hb 0
                          * Spec.sigma dy
                              (fun k => 2 * Spec.sigma n
                                              (fun i => Spec.entry G i j * Spec.entry G i k)
                                        * nth k hb 0)))).
  2:{ intros j _. rewrite dot_app by (unfold Np.zeros; rewrite length_replicate; lia).
      unfold Np.zeros. rewrite dot_zeros_l, Rplus_0_l, map_map.
      rewrite QuadraticFacts.dot_seq_r by done.
      rewrite (sigma_ext dy (fun k => 2 * Spec.sigma n
                                            (fun i => Spec.entry G i j * Spec.entry G i k)
                                      / INR n * nth k hb 0)
                 (fun k => / INR n * (2 * Spec.sigma n
                                            (fun i => Spec.entry G i j * Spec.entry G i k)
                                      * nth k hb 0)))
        by (intros; unfold Rdiv; ring).
      rewrite sigma_scale. ring. }
  rewrite sigma_scale, sigma_hessian_form. unfold Rdiv. ring.
Qed.

Lemma constraint_expansion (alpha beta ha hb : vec) :
  length alpha = dx -> length beta = dy -> length ha = dx -> length hb = dy ->
  let c := constraint G dx dy n in
  let x := alpha ++ beta in
  let h := ha ++ hb in
  c_fun c (Np.vadd x h)
  = c_fun c x + Np.dot (c_jac c x) h + 1 / 2 * Np.dot h (Np.matvec (c_hess c) h).
Proof.
  intros Ha Hb Hha Hhb c x h. unfold c, x, h.
  unfold Np.vadd at 1. rewrite zip_with_app by lia.
  fold (Np.vadd alpha ha) (Np.vadd beta hb).
  rewrite constraint_mean_square
    by (unfold Np.vadd; rewrite length_zip_with_l_eq; lia).
  rewrite constraint_mean_square, constraint_jac_dot, constraint_hess_form by done.
  rewrite (sigma_ext n (fun i => Gv (Np.vadd beta hb) i ^ 2)
             (fun i => (Gv beta i + Gv hb i) ^ 2)).
  2:{ intros i _. f_equal. rewrite <- sigma_plus. apply sigma_ext. intros j _.
      rewrite nth_vadd by lia. ring. }
  rewrite sigma_square_sum. field. apply not_0_INR. lia.
Qed.

End Shapes.

End ConstraintFacts.

(** Columns selected from a matrix *)
Lemma gather_cols_entry (M : matrix) (idxs : list nat) (i k : nat) :
  (i < length M)%nat -> (k < length idxs)%nat ->
  Spec.entry (Np.gather_cols M idxs) i k = Spec.entry M i (nth k idxs 0%nat).
Proof.
  intros Hi Hk. unfold Spec.entry, Np.gather_cols.
  rewrite (nth_map_default _ _ _ _ []) by done.
  by rewrite (nth_map_default _ _ _ _ 0%nat) by done.
Qed.

Lemma gather_cols_centered (n d : nat) (M : matrix) (idxs : list nat) :
  length M = n -> Columns.centered n d M -> Forall (fun i => (i < d)%nat) idxs ->
  Columns.centered n (length idxs) (Np.gather_cols M idxs).
Proof.
  intros Hn Hc Hidx k Hk.
  rewrite (sigma_ext n _ (fun i => Spec.entry M i (nth k idxs 0%nat))).
  - apply Hc. rewrite Forall_nth in Hidx. by apply Hidx.
  - intros i Hi. apply gather_cols_entry; lia.
Qed.

(** X15: for the reduced kernel matrix of the second variable (columns of
    the kernel of a non-empty vector, selected by any list of column
    indices), the constraint function is the mean square of the projection,
    and at every point and for every step it expands exactly with the
    supplied jacobian and Hessian: they are its first and second
    derivatives.  This rests on the kernel columns being centered. *)
Theorem X15_constraint_second_order_expansion
    (b : vec) (degree_b : nat) (g : matrix) (gi : list nat) (dx : nat)
    (alpha beta ha hb : vec) :
  b <> [] -> KernelBasedHGR.kernel b degree_b = Ok g ->
  Forall (fun i => (i < degree_b)%nat) gi ->
  length alpha = dx -> length beta = length gi ->
  length ha = dx -> length hb = length gi ->
  let g_slim := Np.gather_cols g gi in
  let c := KernelBasedHGR.constraint g_slim dx (length gi) (length b) in
  let x := alpha ++ beta in
  let h := ha ++ hb in
  c_fun c x
  = Spec.sigma (length b) (fun i => nth i (Np.matvec g_slim beta) 0 ^ 2)
    / INR (length b) /\
  c_fun c (Np.vadd x h)
  = c_fun c x + Np.dot (c_jac c x) h + 1 / 2 * Np.dot h (Np.matvec (c_hess c) h).
Proof.
  intros Hb Hg Hgi Ha Hbe Hha Hhb g_slim c x h.
  assert (Hn : (1 <= length b)%nat) by (destruct b; [done | cbn; lia]).
  pose proof (length_kernel _ _ _ Hg) as Hlen.
  pose proof (gather_cols_shape (length b) g gi Hlen) as Hshape.
  assert (Hcen : Columns.centered (length b) (length gi) g_slim).
  { apply (gather_cols_centered (length b) degree_b); try done.
    intros j Hj. by apply (kernel_column_sum b degree_b). }
  split.
  - unfold c, x.
    rewrite (ConstraintFacts.constraint_mean_square g_slim (length b) dx (length gi))
      by done.
    f_equal. apply sigma_ext. intros i Hi.
    rewrite (SolverFacts.matvec_product (length b) g_slim (length gi)) by done.
    unfold Spec.product. rewrite nth_map_seq by done. by rewrite Hbe.
  - by apply (ConstraintFacts.constraint_expansion g_slim (length b) dx (length gi)).
Qed.

Lemma X15_constraint_second_order_expansion_witness :
  let c := KernelBasedHGR.constraint (Np.gather_cols Examples.G_bits [0%nat; 1%nat])
             1 2 (length Examples.b_bits) in
  c_fun c (Np.vadd ([1] ++ [1; 1]) ([2] ++ [0; 1]))
  = c_fun c ([1] ++ [1; 1]) + Np.dot (c_jac c ([1] ++ [1; 1])) ([2] ++ [0; 1])
    + 1 / 2 * Np.dot ([2] ++ [0; 1]) (Np.matvec (c_hess c) ([2] ++ [0; 1])).
Proof.
  apply (X15_constraint_second_order_expansion Examples.b_bits 2 Examples.G_bits
           [0%nat; 1%nat] 1 [1] [1; 1] [2] [0; 1]).
  - discriminate.
  - apply DetectorExamples.kernel_b_bits.
  - repeat constructor; lia.
  - reflexivity.
  - reflexivity.
  - reflexivity.
  - reflexivity.
Defined.

(** ** The initial point *)

Lemma sum_scale (c : R) (u : vec) : Np.sum (map (fun t => c * t) u) = c * Np.sum u.
Proof.
  induction u as [|x u IH]; [cbn; lra|].
  change (Np.sum (map (fun t => c * t) (x :: u)))
    with (c * x + Np.sum (map (fun t => c * t) u)).
  change (Np.sum (x :: u)) with (x + Np.sum u). rewrite IH. lra.
Qed.

Lemma dot_replicate (u : vec) (c : R) :
  Np.dot u (replicate (length u) c) = c * Np.sum u.
Proof.
  induction u as [|x u IH]; [cbn; lra|].
  change (replicate (length (x :: u)) c) with (c :: replicate (length u) c).
  rewrite dot_cons, IH. change (Np.sum (x :: u)) with (x + Np.sum u). lra.
Qed.

Lemma var_scale (c : R) (u : vec) :
  Np.var (map (fun t => c * t) u) = c * c * Np.var u.
Proof.
  unfold Np.var, Np.mean. rewrite !length_map, sum_scale, map_map.
  rewrite (map_ext (fun t => (c * t - c * Np.sum u / INR (length u)) ^ 2)
             (fun t => (c * c) * (t - Np.sum u / INR (length u)) ^ 2))
    by (intros; unfold Rdiv; ring).
  rewrite <- (map_map (fun t => (t - Np.sum u / INR (length u)) ^ 2)
                (fun y => c * c * y)).
  rewrite sum_scale. unfold Rdiv. ring.
Qed.

(** X16: without warm start, the second half of the initial point makes the
    constraint function equal to v / (v + eps), where v is the variance of
    the row sums of the reduced kernel matrix: the constraint Var = 1 holds at
    the initial point up to [eps]. *)
Theorem X16_initial_point_is_near_feasible
    (self : config) (G : matrix) (n dx dy : nat) (a0 : vec) :
  Spec.has_shape n dy G -> length a0 = dx ->
  let v := Np.var (map Np.sum G) in
  0 < v + eps self ->
  c_fun (KernelBasedHGR.constraint G dx dy n)
        (a0 ++ KernelBasedHGR.initial_guess self G dy)
  = v / (v + eps self).
Proof.
  intros [Hn Hrows] Ha v Hpos. cbn [KernelBasedHGR.constraint c_fun].
  assert (Hd : drop dx (a0 ++ KernelBasedHGR.initial_guess self G dy)
               = KernelBasedHGR.initial_guess self G dy)
    by (rewrite <- Ha; apply drop_app_length).
  rewrite Hd. unfold KernelBasedHGR.initial_guess, Np.ones. rewrite map_replicate.
  fold v. set (s := sqrt (v + eps self)).
  assert (Hs : s * s = v + eps self) by (apply sqrt_sqrt; lra).
  assert (Hs0 : s <> 0) by (intros H0; rewrite H0 in Hs; lra).
  assert (Hmv : Np.matvec G (replicate dy (1 / s))
                = map (fun t => 1 / s * t) (map Np.sum G)).
  { unfold Np.matvec. rewrite map_map. apply map_ext_in. intros row Hrow.
    rewrite Forall_forall in Hrows.
    rewrite <- (Hrows row) by (by apply list_elem_of_In).
    apply dot_replicate. }
  rewrite Hmv, var_scale. fold v. rewrite <- Hs. field. done.
Qed.

Lemma X16_initial_point_is_near_feasible_witness :
  c_fun (KernelBasedHGR.constraint Examples.G_bits 1 2 4)
        ([1] ++ KernelBasedHGR.initial_guess default_config Examples.G_bits 2)
  = Np.var (map Np.sum Examples.G_bits)
    / (Np.var (map Np.sum Examples.G_bits) + eps default_config).
Proof.
  apply (X16_initial_point_is_near_feasible default_config Examples.G_bits 4 1 2 [1]).
  - split; [reflexivity | repeat constructor].
  - reflexivity.
  - pose proof default_eps_pos.
    assert (0 <= Np.var (map Np.sum Examples.G_bits)) by (apply var_nonneg; discriminate).
    lra.
Defined.

(** ** The closed forms of the orchestrator *)

(** X17: with the closed-form shortcut enabled and at least one degree equal
    to 1 (both at least 1), on non-empty vectors of one length and with a
    least-squares routine that answers one coefficient per column, [_kbhgr]
    returns, and returns the same result whatever the QR routine, the solver
    and the warm starts are; the coefficient vector of a degree-1 side is
    [1]. *)
Theorem X17_closed_form_ignores_solver
    (lstsq : matrix -> vec -> vec) (self : config) (n : nat) (a b : vec)
    (degree_a degree_b : nat) :
  use_lstsq self = true ->
  degree_a = 1%nat \/ degree_b = 1%nat ->
  (1 <= degree_a)%nat -> (1 <= degree_b)%nat ->
  a <> [] -> length a = length b ->
  (forall m v, m <> [] -> length (lstsq m v) = Np.ncols m) ->
  exists r,
    (forall qr_r minimize a0 b0,
       KernelBasedHGR._kbhgr qr_r lstsq minimize self n a b degree_a degree_b a0 b0
       = Ok r) /\
    (degree_a = 1%nat -> KernelBasedHGR.alpha r = [1]) /\
    (degree_b = 1%nat -> KernelBasedHGR.beta r = [1]).
Proof.
  intros Hl Hone Hda Hdb Ha Hlen Hfit.
  assert (Hb : b <> []) by (intros ->; destruct a; done).
  assert (Hrows : forall (v w : vec) (d : nat) (m : matrix),
            v <> [] -> KernelBasedHGR.kernel v d = Ok m ->
            Forall (fun row => length row = length (lstsq m w)) m).
  { intros v w d m Hv Hm. apply (rows_match (length v) d).
    - by apply KernelFacts.kernel_shape.
    - rewrite Hfit; [by apply (ncols_kernel v)|].
      apply length_kernel in Hm. intros ->. by destruct v. }
  destruct (decide (degree_a = 1%nat)) as [->|Hna];
    [destruct (decide (degree_b = 1%nat)) as [->|Hnb]|].
  - eexists. split.
    { intros qr_r minimize a0 b0. by apply OrchestratorFacts.kbhgr_linear. }
    split; reflexivity.
  - destruct (kernel_returns b degree_b Hdb) as [g Hg].
    eexists. split.
    { intros qr_r minimize a0 b0.
      apply (OrchestratorFacts.kbhgr_lstsq_a qr_r lstsq minimize self n a b
               degree_b a0 b0 g); try done.
      by apply (Hrows b _ degree_b). }
    split; [reflexivity | done].
  - destruct Hone as [?| ->]; [done|].
    destruct (kernel_returns a degree_a Hda) as [f Hf].
    eexists. split.
    { intros qr_r minimize a0 b0.
      apply (OrchestratorFacts.kbhgr_lstsq_b qr_r lstsq minimize self n a b
               degree_a a0 b0 f); try done.
      by apply (Hrows a _ degree_a). }
    split; [done | reflexivity].
Qed.

Lemma X17_closed_form_ignores_solver_witness :
  exists r,
    (forall qr_r minimize a0 b0,
       KernelBasedHGR._kbhgr qr_r Examples.lstsq_cols minimize
         default_config 0 Examples.a_tie Examples.a_tie 2 1 a0 b0 = Ok r) /\
    (2%nat = 1%nat -> KernelBasedHGR.alpha r = [1]) /\
    (1%nat = 1%nat -> KernelBasedHGR.beta r = [1]).
Proof.
  apply (X17_closed_form_ignores_solver Examples.lstsq_cols
           default_config 0 Examples.a_tie Examples.a_tie 2 1).
  - reflexivity.
  - by right.
  - lia.
  - lia.
  - discriminate.
  - reflexivity.
  - intros m v _. unfold Examples.lstsq_cols.
    case_decide as Hc; [by rewrite Hc | apply length_replicate].
Defined.

(** X18: in the closed forms, exchanging the two vectors together with their
    degrees exchanges [alpha] and [beta] and leaves the correlation
    unchanged. *)
Theorem X18_closed_form_swap_symmetry
    (qr_r : matrix -> matrix) (lstsq : matrix -> vec -> vec)
    (minimize : (vec -> R * vec) -> matrix -> vec -> NonlinearConstraint ->
                opt_method -> R -> nat -> vec)
    (self : config) (n : nat) (a b : vec) (degree_a degree_b : nat)
    (a0 b0 a0' b0' : option vec) (r : KernelBasedHGR.Result) :
  use_lstsq self = true ->
  degree_a = 1%nat \/ degree_b = 1%nat ->
  length a = length b ->
  KernelBasedHGR._kbhgr qr_r lstsq minimize self n a b degree_a degree_b a0 b0 = Ok r ->
  exists r',
    KernelBasedHGR._kbhgr qr_r lstsq minimize self n b a degree_b degree_a a0' b0'
    = Ok r' /\
    KernelBasedHGR.correlation r' = KernelBasedHGR.correlation r /\
    KernelBasedHGR.alpha r' = KernelBasedHGR.beta r /\
    KernelBasedHGR.beta r' = KernelBasedHGR.alpha r.
Proof.
  intros Hl Hone Hlen Hr.
  assert (Hcor : forall u w : vec, length u = length w ->
            Backend.abs (Np.dot w u / Backend.len w)
            = Backend.abs (Np.dot u w / Backend.len u)).
  { intros u w Huw. unfold Backend.len. by rewrite (dot_comm w u), Huw. }
  destruct (decide (degree_a = 1%nat)) as [->|Hna];
    [destruct (decide (degree_b = 1%nat)) as [->|Hnb]|].
  - rewrite OrchestratorFacts.kbhgr_linear in Hr by done. injection Hr as <-.
    rewrite OrchestratorFacts.kbhgr_linear by done. eexists. split; [reflexivity|].
    cbn. split; [|done]. apply Hcor. by rewrite !length_standardize.
  - assert (Hg : exists g, KernelBasedHGR.kernel b degree_b = Ok g).
    { apply kernel_returns. destruct degree_b; [|lia].
      unfold KernelBasedHGR._kbhgr in Hr.
      destruct (kernel_returns a 1) as [f Hf]; [lia|]. rewrite Hf in Hr.
      discriminate. }
    destruct Hg as [g Hg].
    destruct (OrchestratorFacts.kbhgr_lstsq_a_inv qr_r lstsq minimize self n a b
                degree_b a0 b0 g r Hnb Hl Hg Hr) as [_ Hrows].
    rewrite (OrchestratorFacts.kbhgr_lstsq_a qr_r lstsq minimize self n a b
               degree_b a0 b0 g) in Hr by done.
    injection Hr as <-.
    rewrite (OrchestratorFacts.kbhgr_lstsq_b qr_r lstsq minimize self n b a
               degree_b a0' b0' g) by done.
    eexists. split; [reflexivity|]. cbn. split; [|done]. apply Hcor.
    rewrite !length_standardize, length_matvec.
    apply length_kernel in Hg. congruence.
  - destruct Hone as [?| ->]; [done|].
    assert (Hf : exists f, KernelBasedHGR.kernel a degree_a = Ok f).
    { apply kernel_returns. destruct degree_a; [|lia]. discriminate. }
    destruct Hf as [f Hf].
    destruct (OrchestratorFacts.kbhgr_lstsq_b_inv qr_r lstsq minimize self n a b
                degree_a a0 b0 f r Hna Hl Hf Hr) as [_ Hrows].
    rewrite (OrchestratorFacts.kbhgr_lstsq_b qr_r lstsq minimize self n a b
               degree_a a0 b0 f) in Hr by done.
    injection Hr as <-.
    rewrite (OrchestratorFacts.kbhgr_lstsq_a qr_r lstsq minimize self n b a
               degree_a a0' b0' f) by done.
    eexists. split; [reflexivity|]. cbn. split; [|done]. apply Hcor.
    rewrite !length_standardize, length_matvec.
    apply length_kernel in Hf. congruence.
Qed.

Lemma X18_closed_form_swap_symmetry_witness :
  exists r',
    KernelBasedHGR._kbhgr Examples.qr_bits Examples.lstsq_tie Examples.minimize_x0
      default_config 0 Examples.a_tie Examples.a_tie 1 2 None None = Ok r' /\
    KernelBasedHGR.correlation r' = KernelBasedHGR.correlation Examples.ra_tie /\
    KernelBasedHGR.alpha r' = KernelBasedHGR.beta Examples.ra_tie /\
    KernelBasedHGR.beta r' = KernelBasedHGR.alpha Examples.ra_tie.
Proof.
  apply (X18_closed_form_swap_symmetry Examples.qr_bits Examples.lstsq_tie
           Examples.minimize_x0 default_config 0 Examples.a_tie Examples.a_tie 2 1
           None None None None Examples.ra_tie).
  - reflexivity.
  - by right.
  - reflexivity.
  - apply TieExample.res_a_tie.
Defined.

(** X19: with degree 1 the Single-Kernel variant returns exactly what the
    Double-Kernel variant with degrees 1 and 1 returns. *)
Theorem X19_single_degree_1_is_double
    (qr_r : matrix -> matrix) (lstsq : matrix -> vec -> vec)
    (minimize : (vec -> R * vec) -> matrix -> vec -> NonlinearConstraint ->
                opt_method -> R -> nat -> vec)
    (self : config) (last : option KernelBasedHGR.Result) (n : nat) (a b : vec) :
  SingleKernelHGR._compute qr_r lstsq minimize self 1 last n a b
  = DoubleKernelHGR._compute qr_r lstsq minimize self 1 1 last n a b.
Proof.
  unfold SingleKernelHGR._compute, SingleKernelHGR.res_a, SingleKernelHGR.res_b,
    DoubleKernelHGR._compute.
  destruct (KernelBasedHGR.warm_start last) as [a0 b0].
  destruct (decide (length a = length b)) as [Hlen|Hlen].
  - rewrite !OrchestratorFacts.kbhgr_linear by done. cbn [mbind result_bind].
    cbn [KernelBasedHGR.correlation KernelBasedHGR.alpha KernelBasedHGR.beta].
    rewrite decide_False by lra. cbn.
    unfold Backend.maximum. by rewrite Rmax_left by lra.
  - by rewrite !OrchestratorFacts.kbhgr_linear_mismatch by done.
Qed.

(** ** Re-evaluating the stored transformations *)

Lemma kernel_1_projection (a : vec) (f : matrix) :
  KernelBasedHGR.kernel a 1 = Ok f ->
  Np.matvec f [1] = map (fun x => x - Backend.mean a) a.
Proof.
  unfold KernelBasedHGR.kernel, Backend.stack. cbn [seq map].
  intros [= <-]. rewrite !length_map. unfold Np.matvec. rewrite map_map.
  assert (Hp : map (fun x => x * 1) a = a).
  { rewrite <- (map_id a) at 2. apply map_ext. intros x. ring. }
  rewrite Hp.
  etransitivity;
    [|symmetry; apply (list_as_map_seq (map (fun x => x - Backend.mean a) a) 0)].
  rewrite length_map. apply map_ext. intros i.
  unfold Np.dot, Np.sum. cbn [zip_with foldr]. ring.
Qed.

Lemma standardize_centered (a : vec) (eps : R) :
  a <> [] ->
  Backend.standardize (map (fun x => x - Backend.mean a) a) eps
  = Backend.standardize a eps.
Proof.
  intros Ha. pose proof (INR_length_pos a Ha) as Hn.
  set (m := Backend.mean a).
  assert (Hm : Backend.mean (map (fun x => x - m) a) = 0).
  { unfold Backend.mean, Np.mean. rewrite sum_sub_const, length_map.
    unfold m, Backend.mean, Np.mean. field. lra. }
  assert (Hv : Backend.var (map (fun x => x - m) a) = Backend.var a).
  { unfold Backend.var, Np.var. fold (Backend.mean (map (fun x => x - m) a)).
    rewrite Hm. fold (Backend.mean a). fold m. rewrite map_map.
    unfold Np.mean. rewrite !length_map. f_equal. f_equal.
    apply map_ext. intros x. ring. }
  unfold Backend.standardize, Backend.std. rewrite Hm, Hv, map_map.
  apply map_ext. intros x. fold m. unfold Rdiv. ring.
Qed.

Module ProjectionFacts.
Import KernelBasedHGR.

Section Estimator.
Variable qr_r : matrix -> matrix.
Variable lstsq : matrix -> vec -> vec.
Variable minimize :
  (vec -> R * vec) -> matrix -> vec -> NonlinearConstraint ->
  opt_method -> R -> nat -> vec.
Variable self : config.

(** In every branch the returned coefficients fit the kernel matrices, and
    the correlation is that of the standardized products of the kernels with
    them. *)
Lemma kbhgr_projections (n : nat) (a b : vec) (degree_a degree_b : nat)
    (a0 b0 : option vec) (r : Result) :
  a <> [] -> b <> [] ->
  _kbhgr qr_r lstsq minimize self n a b degree_a degree_b a0 b0 = Ok r ->
  exists f g,
    kernel a degree_a = Ok f /\ kernel b degree_b = Ok g /\
    Forall (fun row => length row = length (alpha r)) f /\
    Forall (fun row => length row = length (beta r)) g /\
    let fa := Backend.standardize (Np.matvec f (alpha r)) (eps self) in
    let gb := Backend.standardize (Np.matvec g (beta r)) (eps self) in
    correlation r = Backend.abs (Np.dot fa gb / Backend.len fa).
Proof.
  intros Ha Hb H. unfold _kbhgr in H.
  apply bind_Ok in H as (f & Hf & H). apply bind_Ok in H as (g & Hg & H).
  apply bind_Ok in H as ([[[al be] fa] gb] & Hbranch & H).
  apply bind_Ok in H as (c & Hc & [= <-]).
  apply matmul_vv_Ok in Hc as [_ ->].
  exists f, g. do 2 (split; [done|]). cbn.
  change (Backend.ones 1) with [1] in *.
  pose proof (KernelFacts.kernel_shape _ _ _ Hf) as Hsf.
  pose proof (KernelFacts.kernel_shape _ _ _ Hg) as Hsg.
  repeat case_decide.
  - destruct H as [-> ->]. injection Hbranch as <- <- <- <-.
    split; [by apply (rows_match _ _ _ _ Hsf)|].
    split; [by apply (rows_match _ _ _ _ Hsg)|].
    rewrite (kernel_1_projection a f Hf), (kernel_1_projection b g Hg).
    by rewrite !standardize_centered.
  - destruct H0 as [-> _].
    apply bind_Ok in Hbranch as (be' & _ & Hbranch).
    apply bind_Ok in Hbranch as (gbe & Hmv & [= <- <- <- <-]).
    apply matmul_mv_Ok in Hmv as [Hall ->].
    split; [by apply (rows_match _ _ _ _ Hsf)|]. split; [done|].
    rewrite (kernel_1_projection a f Hf). by rewrite standardize_centered.
  - destruct H1 as [-> _].
    apply bind_Ok in Hbranch as (al' & _ & Hbranch).
    apply bind_Ok in Hbranch as (fal & Hmv & [= <- <- <- <-]).
    apply matmul_mv_Ok in Hmv as [Hall ->].
    split; [done|]. split; [by apply (rows_match _ _ _ _ Hsg)|].
    rewrite (kernel_1_projection b g Hg). by rewrite standardize_centered.
  - apply bind_Ok in Hbranch as ([al' be'] & _ & Hbranch).
    apply bind_Ok in Hbranch as (fal & Hfal & Hbranch).
    apply bind_Ok in Hbranch as (gbe & Hgbe & [= <- <- <- <-]).
    apply matmul_mv_Ok in Hfal as [Hallf ->].
    apply matmul_mv_Ok in Hgbe as [Hallg ->]. done.
Qed.

End Estimator.

End ProjectionFacts.

(** X20: after a call of [_kbhgr] on non-empty vectors of one length, an
    indicator with HGR semantics that stores the returned [alpha] and [beta]
    re-evaluates, through [value] on the same two vectors, a number whose
    absolute value is the correlation that was returned. *)
Theorem X20_value_reproduces_correlation
    (qr_r : matrix -> matrix) (lstsq : matrix -> vec -> vec)
    (minimize : (vec -> R * vec) -> matrix -> vec -> NonlinearConstraint ->
                opt_method -> R -> nat -> vec)
    (self : config) (n : nat) (a b : vec) (degree_a degree_b : nat)
    (a0 b0 : option vec) (r : KernelBasedHGR.Result)
    (st : Indicator.state KernelIndicator.coefficients)
    (last : Indicator.Result KernelIndicator.coefficients) :
  a <> [] -> length a = length b ->
  KernelBasedHGR._kbhgr qr_r lstsq minimize self n a b degree_a degree_b a0 b0 = Ok r ->
  Indicator._last_result st = Some last ->
  Indicator.kwargs last = (KernelBasedHGR.alpha r, KernelBasedHGR.beta r) ->
  exists v,
    CopulaIndicator.value KernelIndicator.coefficients Indicator.hgr (eps self)
      (KernelIndicator._f degree_a) (KernelIndicator._g degree_b) st
      (Indicator.vector a) (Indicator.vector b) = Ok v /\
    Rabs v = KernelBasedHGR.correlation r.
Proof.
  intros Ha Hlen Hr Hst Hkw.
  assert (Hb : b <> []) by (intros ->; destruct a; done).
  destruct (ProjectionFacts.kbhgr_projections qr_r lstsq minimize self n a b
              degree_a degree_b a0 b0 r Ha Hb Hr)
    as (f & g & Hf & Hg & Hrf & Hrg & Hcor).
  unfold CopulaIndicator.value. rewrite Hst.
  unfold KernelIndicator._f, KernelIndicator._g, KernelBasedHGR._f, KernelBasedHGR._g.
  rewrite Hkw. cbn [fst snd Indicator.vector Indicator.data].
  rewrite Hf, Hg. cbn [mbind result_bind].
  rewrite (matmul_mv_eq f) by done. cbn [mbind result_bind].
  rewrite (matmul_mv_eq g) by done. cbn [mbind result_bind].
  set (fa := Backend.standardize (Np.matvec f (KernelBasedHGR.alpha r)) (eps self)) in *.
  set (gb := Backend.standardize (Np.matvec g (KernelBasedHGR.beta r)) (eps self)) in *.
  assert (Hl : length fa = length gb).
  { unfold fa, gb. rewrite !length_standardize, !length_matvec.
    apply length_kernel in Hf, Hg. congruence. }
  unfold Elementwise.mul. rewrite decide_True by done. cbn [mbind result_bind].
  eexists. split; [reflexivity|]. cbn zeta in Hcor. rewrite Hcor.
  unfold Indicator._factor, Backend.mean, Np.mean, Backend.abs, Backend.len.
  rewrite length_zip_with_l_eq by done. rewrite Rmult_1_r. reflexivity.
Qed.

Lemma X20_value_reproduces_correlation_witness :
  exists v,
    CopulaIndicator.value KernelIndicator.coefficients Indicator.hgr
      (eps default_config) (KernelIndicator._f 1) (KernelIndicator._g 1)
      {| Indicator._last_result :=
           Some {| Indicator.a := Indicator.vector [1; 2];
                   Indicator.b := Indicator.vector [1; 3];
                   Indicator.value := 0; Indicator.num_call := 1;
                   Indicator.kwargs := ([1], [1]) |};
         Indicator._num_calls := 1 |}
      (Indicator.vector [1; 2]) (Indicator.vector [1; 3]) = Ok v /\
    Rabs v =
    Backend.abs
      (Np.dot (Backend.standardize [1; 2] (eps default_config))
         (Backend.standardize [1; 3] (eps default_config))
       / Backend.len (Backend.standardize [1; 2] (eps default_config))).
Proof.
  apply (X20_value_reproduces_correlation
           qr_same_shape Examples.lstsq_none (fun _ _ x0 _ _ _ _ => x0)
           default_config 1 [1; 2] [1; 3] 1 1 None None
           {| KernelBasedHGR.a := [1; 2]; KernelBasedHGR.b := [1; 3];
              KernelBasedHGR.correlation :=
                Backend.abs
                  (Np.dot (Backend.standardize [1; 2] (eps default_config))
                     (Backend.standardize [1; 3] (eps default_config))
                   / Backend.len (Backend.standardize [1; 2] (eps default_config)));
              KernelBasedHGR.num_call := 1;
              KernelBasedHGR.alpha := [1]; KernelBasedHGR.beta := [1] |}
           _
           {| Indicator.a := Indicator.vector [1; 2];
              Indicator.b := Indicator.vector [1; 3];
              Indicator.value := 0; Indicator.num_call := 1;
              Indicator.kwargs := ([1], [1]) |}).
  - discriminate.
  - reflexivity.
  - reflexivity.
  - reflexivity.
  - reflexivity.
Defined.

(** ** The three semantics *)

(** X21: with the same [_value], an invocation that returns under the HGR
    semantics returns under the GeDI and NLC semantics too, with the same
    additional fields and call number; the three values differ by the factor
    only: the NLC value is the HGR value times [std b * std a] and, where the
    deviation of [a] is not zero, the GeDI value is the HGR value times
    [std b / std a], so that the NLC value is the GeDI value times the
    square of [std a]. *)
Theorem X21_semantics_differ_by_factor (K : Type)
    (_value : Indicator.state K -> vec -> vec -> result (R * K))
    (self : Indicator.state K) (a b : Indicator.ndarray)
    (rh : Indicator.Result K) :
  fst (Indicator.__call__ K Indicator.hgr _value self a b) = Ok rh ->
  exists rg rn,
    fst (Indicator.__call__ K Indicator.gedi _value self a b) = Ok rg /\
    fst (Indicator.__call__ K Indicator.nlc _value self a b) = Ok rn /\
    Indicator.kwargs rg = Indicator.kwargs rh /\
    Indicator.kwargs rn = Indicator.kwargs rh /\
    Indicator.num_call rg = Indicator.num_call rh /\
    Indicator.num_call rn = Indicator.num_call rh /\
    Indicator.value rn
    = Indicator.value rh
      * (Backend.std (Indicator.data b) * Backend.std (Indicator.data a)) /\
    (Backend.std (Indicator.data a) <> 0 ->
     Indicator.value rg
     = Indicator.value rh
       * (Backend.std (Indicator.data b) / Backend.std (Indicator.data a)) /\
     Indicator.value rn
     = Indicator.value rg
       * (Backend.std (Indicator.data a) * Backend.std (Indicator.data a))).
Proof.
  unfold Indicator.__call__.
  repeat case_decide; try discriminate.
  destruct (_value _ _ _) as [[v k]|e]; [|discriminate].
  cbn [fst]. intros [= <-]. do 2 eexists.
  do 2 (split; [reflexivity|]).
  cbn [Indicator.kwargs Indicator.num_call Indicator.value].
  do 4 (split; [reflexivity|]).
  unfold Indicator._factor. split; [ring|].
  intros Hstd. split; [ring|]. field. exact Hstd.
Qed.

Lemma X21_semantics_differ_by_factor_witness :
  exists rg rn,
    fst (Indicator.__call__ unit Indicator.gedi (fun _ _ _ => Ok (1, tt))
           (Indicator.init unit)
           (Indicator.vector [1; 2]) (Indicator.vector [1; 3])) = Ok rg /\
    fst (Indicator.__call__ unit Indicator.nlc (fun _ _ _ => Ok (1, tt))
           (Indicator.init unit)
           (Indicator.vector [1; 2]) (Indicator.vector [1; 3])) = Ok rn /\
    Indicator.kwargs rg = tt /\
    Indicator.kwargs rn = tt /\
    Indicator.num_call rg = 1%nat /\
    Indicator.num_call rn = 1%nat /\
    Indicator.value rn
    = 1 * 1 * (Backend.std [1; 3] * Backend.std [1; 2]) /\
    (Backend.std [1; 2] <> 0 ->
     Indicator.value rg
     = 1 * 1 * (Backend.std [1; 3] / Backend.std [1; 2]) /\
     Indicator.value rn
     = Indicator.value rg * (Backend.std [1; 2] * Backend.std [1; 2])).
Proof.
  apply (X21_semantics_differ_by_factor unit (fun _ _ _ => Ok (1, tt))
           (Indicator.init unit)
           (Indicator.vector [1; 2]) (Indicator.vector [1; 3])
           {| Indicator.a := Indicator.vector [1; 2];
              Indicator.b := Indicator.vector [1; 3];
              Indicator.value := 1 * 1; Indicator.num_call := 1;
              Indicator.kwargs := tt |}).
  reflexivity.
Defined.

(** ** Shapes that do not fit *)

(** X22: [_kbhgr] never returns a result on two vectors of different
    lengths, whatever the degrees, the configuration and the external
    routines are; with both degrees equal to 1 the error is the ValueError of
    the product of the two standardized vectors, and in the closed-form fits
    (degrees at least 1) it is the LinAlgError of the least-squares solve. *)
Theorem X22_different_lengths_are_refused
    (qr_r : matrix -> matrix) (lstsq : matrix -> vec -> vec)
    (minimize : (vec -> R * vec) -> matrix -> vec -> NonlinearConstraint ->
                opt_method -> R -> nat -> vec)
    (self : config) (n : nat) (a b : vec) (degree_a degree_b : nat)
    (a0 b0 : option vec) :
  length a <> length b ->
  raises (KernelBasedHGR._kbhgr qr_r lstsq minimize self n a b degree_a degree_b a0 b0) /\
  (degree_a = 1%nat -> degree_b = 1%nat ->
   KernelBasedHGR._kbhgr qr_r lstsq minimize self n a b degree_a degree_b a0 b0
   = Raise ValueError) /\
  (use_lstsq self = true ->
   (degree_a = 1%nat /\ (2 <= degree_b)%nat) \/ ((2 <= degree_a)%nat /\ degree_b = 1%nat) ->
   KernelBasedHGR._kbhgr qr_r lstsq minimize self n a b degree_a degree_b a0 b0
   = Raise LinAlgError).
Proof.
  intros Hlen. split; [|split].
  - destruct (KernelBasedHGR._kbhgr qr_r lstsq minimize self n a b degree_a degree_b
                a0 b0) as [r|e] eqn:Hr; [|by exists e].
    apply OrchestratorFacts.kbhgr_inv in Hr as (x & y & _ & _ & Heq & _). done.
  - intros -> ->. by apply OrchestratorFacts.kbhgr_linear_mismatch.
  - intros Hl Hdeg. unfold KernelBasedHGR._kbhgr.
    destruct Hdeg as [[-> Hdb] | [Hda ->]].
    + destruct (kernel_returns a 1) as [f Hf]; [lia|].
      destruct (kernel_returns b degree_b) as [g Hg]; [lia|].
      rewrite Hf, Hg. cbn [mbind result_bind].
      rewrite decide_False by (intros [_ ->]; lia). rewrite decide_True by done.
      unfold Backend.lstsq. apply length_kernel in Hg.
      by rewrite decide_False by (rewrite length_standardize; congruence).
    + destruct (kernel_returns a degree_a) as [f Hf]; [lia|].
      destruct (kernel_returns b 1) as [g Hg]; [lia|].
      rewrite Hf, Hg. cbn [mbind result_bind].
      rewrite decide_False by (intros [-> _]; lia).
      rewrite decide_False by (intros [-> _]; lia).
      rewrite decide_True by done.
      unfold Backend.lstsq. apply length_kernel in Hf.
      by rewrite decide_False by (rewrite length_standardize; congruence).
Qed.

Lemma X22_different_lengths_are_refused_witness :
  raises (KernelBasedHGR._kbhgr Examples.qr_bits Examples.lstsq_tie
            Examples.minimize_x0 default_config 0 [0; 2] [1; 3; 5] 1 2 None None) /\
  (1%nat = 1%nat -> 2%nat = 1%nat ->
   KernelBasedHGR._kbhgr Examples.qr_bits Examples.lstsq_tie Examples.minimize_x0
     default_config 0 [0; 2] [1; 3; 5] 1 2 None None = Raise ValueError) /\
  (use_lstsq default_config = true ->
   (1%nat = 1%nat /\ (2 <= 2)%nat) \/ ((2 <= 1)%nat /\ 2%nat = 1%nat) ->
   KernelBasedHGR._kbhgr Examples.qr_bits Examples.lstsq_tie Examples.minimize_x0
     default_config 0 [0; 2] [1; 3; 5] 1 2 None None = Raise LinAlgError).
Proof.
  apply (X22_different_lengths_are_refused Examples.qr_bits Examples.lstsq_tie
           Examples.minimize_x0 default_config 0 [0; 2] [1; 3; 5] 1 2 None None).
  cbn. lia.
Defined.

(** ** Re-application after an estimation *)

(** X23: after [_kbhgr] returns on non-empty vectors, the returned [alpha]
    and [beta] have the lengths of the two degrees, which are at least 1, so
    the transformations [_f] and [_g] with these coefficients return on every
    vector: the kernel of that vector multiplied by the coefficients. *)
Theorem X23_reapplication_returns
    (qr_r : matrix -> matrix) (lstsq : matrix -> vec -> vec)
    (minimize : (vec -> R * vec) -> matrix -> vec -> NonlinearConstraint ->
                opt_method -> R -> nat -> vec)
    (self : config) (n : nat) (a b : vec) (degree_a degree_b : nat)
    (a0 b0 : option vec) (r : KernelBasedHGR.Result) :
  a <> [] ->
  KernelBasedHGR._kbhgr qr_r lstsq minimize self n a b degree_a degree_b a0 b0 = Ok r ->
  length (KernelBasedHGR.alpha r) = degree_a /\
  length (KernelBasedHGR.beta r) = degree_b /\
  forall v,
    exists fv gv,
      KernelBasedHGR.kernel v degree_a = Ok fv /\
      KernelBasedHGR.kernel v degree_b = Ok gv /\
      KernelBasedHGR._f degree_a (KernelBasedHGR.alpha r) v
      = Ok (Np.matvec fv (KernelBasedHGR.alpha r)) /\
      KernelBasedHGR._g degree_b (KernelBasedHGR.beta r) v
      = Ok (Np.matvec gv (KernelBasedHGR.beta r)).
Proof.
  intros Ha Hr.
  assert (Hlen : length a = length b).
  { pose proof Hr as Hr'.
    by apply OrchestratorFacts.kbhgr_inv in Hr' as (x & y & _ & _ & Heq & _). }
  assert (Hb : b <> []) by (intros ->; destruct a; done).
  destruct (ProjectionFacts.kbhgr_projections qr_r lstsq minimize self n a b
              degree_a degree_b a0 b0 r Ha Hb Hr)
    as (f & g & Hf & Hg & Hrf & Hrg & _).
  assert (Hrow : forall (v w : vec) (d : nat) (m : matrix),
            v <> [] -> KernelBasedHGR.kernel v d = Ok m ->
            Forall (fun row => length row = length w) m -> length w = d /\ (1 <= d)%nat).
  { intros v w d m Hv Hm Hall.
    pose proof (KernelFacts.kernel_shape _ _ _ Hm) as [Hn Hrows].
    destruct m as [|row m]; [destruct v; done|].
    apply Forall_cons in Hall as [Hw _]. apply Forall_cons in Hrows as [Hd _].
    split; [congruence|]. destruct d; [discriminate | lia]. }
  destruct (Hrow a _ _ _ Ha Hf Hrf) as [Hal Hda].
  destruct (Hrow b _ _ _ Hb Hg Hrg) as [Hbe Hdb].
  do 2 (split; [done|]). intros v.
  destruct (kernel_returns v degree_a Hda) as [fv Hfv].
  destruct (kernel_returns v degree_b Hdb) as [gv Hgv].
  exists fv, gv. do 2 (split; [done|]).
  unfold KernelBasedHGR._f, KernelBasedHGR._g. rewrite Hfv, Hgv.
  cbn [mbind result_bind]. split.
  - apply matmul_mv_eq. apply (rows_match (length v) degree_a); [|done].
    by apply KernelFacts.kernel_shape.
  - apply matmul_mv_eq. apply (rows_match (length v) degree_b); [|done].
    by apply KernelFacts.kernel_shape.
Qed.

Lemma X23_reapplication_returns_witness :
  length (KernelBasedHGR.alpha Examples.ra_tie) = 2%nat /\
  length (KernelBasedHGR.beta Examples.ra_tie) = 1%nat /\
  forall v,
    exists fv gv,
      KernelBasedHGR.kernel v 2 = Ok fv /\
      KernelBasedHGR.kernel v 1 = Ok gv /\
      KernelBasedHGR._f 2 (KernelBasedHGR.alpha Examples.ra_tie) v
      = Ok (Np.matvec fv (KernelBasedHGR.alpha Examples.ra_tie)) /\
      KernelBasedHGR._g 1 (KernelBasedHGR.beta Examples.ra_tie) v
      = Ok (Np.matvec gv (KernelBasedHGR.beta Examples.ra_tie)).
Proof.
  apply (X23_reapplication_returns Examples.qr_bits Examples.lstsq_tie
           Examples.minimize_x0 default_config 0 Examples.a_tie Examples.a_tie
           2 1 None None Examples.ra_tie).
  - discriminate.
  - apply TieExample.res_a_tie.
Defined.
